(** * Session orchestration core of the reflective-journaling front end

    A shallow embedding of the client code that drives one timed recording
    session: the countdown timer ([SessionTimer.tsx]), the audio recorder hook
    ([useAudioRecorder]), the remote-call helpers of [lib/api] and the page
    component [HomePage] that composes them.

    React state is a record.  Every handler is cut at its [await]s into
    segments that run to completion on the single JavaScript thread; which
    segment runs next, and with which answer, is chosen by the environment
    (user, browser, network) and appears as an event. *)

From Stdlib Require Import List ZArith NArith String Bool Arith Lia.
From Stdlib Require Import Sorting.Sorted Sorting.Permutation.
Import ListNotations.
Local Open Scope Z_scope.
Local Open Scope list_scope.

(* ================================================================== *)
(** ** JavaScript values the code inspects *)

Module JS.

(** Whatever a rejected promise or a [throw] carries.  The handlers only
    ever ask [err instanceof Error ? err.message : fallback]. *)
Inductive Thrown : Type :=
| ErrorObj (message : string)
| NonError.

Definition message_or (err : Thrown) (fallback : string) : string :=
  match err with
  | ErrorObj m => m
  | NonError => fallback
  end.

(** A text given to [JSON.parse], kept together with what parsing makes of
    it: either it encodes a value, or [JSON.parse] throws a [SyntaxError].
    The code casts what was parsed ([as A]) and checks nothing, so [A] is the
    type of the values the text may encode: for the summary cache every JSON
    value ([option Api.SessionSummary]); for the event stream and the
    answers of the service, which are taken to speak the declared types,
    those types. *)
Inductive JSONText (A : Type) : Type :=
| Encodes (v : A)
| Unparsable (raw : string).
Arguments Encodes {A} v.
Arguments Unparsable {A} raw.

Definition JSON_stringify {A : Type} (v : A) : JSONText A := Encodes v.

Definition JSON_parse {A : Type} (text : JSONText A) : Thrown + A :=
  match text with
  | Encodes v => inr v
  | Unparsable _ => inl (ErrorObj "Unexpected token in JSON")
  end.

(** A JSON value, as [JSON.parse] returns one.  Numbers are kept as
    integers: the code never computes with one. *)
#[warnings="-register-all"]
Inductive JSON : Type :=
| JSON_null
| JSON_boolean (b : bool)
| JSON_number (n : Z)
| JSON_string (s : string)
| JSON_array (elements : list JSON)
| JSON_object (members : list (string * JSON)).

(** The JSON values that are truthy: [true], a number other than 0, a string
    other than the empty one, every array and every object. *)
#[warnings="-register-all"]
Inductive Truthy : Type :=
| Truthy_true
| Truthy_number (negative : bool) (magnitude : positive)
| Truthy_string (first : Ascii.ascii) (rest : string)
| Truthy_array (elements : list JSON)
| Truthy_object (members : list (string * JSON)).

Fixpoint JSON_eqb (a b : JSON) {struct a} : bool :=
  match a, b with
  | JSON_null, JSON_null => true
  | JSON_boolean x, JSON_boolean y => Bool.eqb x y
  | JSON_number x, JSON_number y => (x =? y)%Z
  | JSON_string x, JSON_string y => (x =? y)%string
  | JSON_array xs, JSON_array ys =>
      (fix all (xs ys : list JSON) {struct xs} : bool :=
         match xs, ys with
         | [], [] => true
         | x :: xs', y :: ys' => JSON_eqb x y && all xs' ys'
         | _, _ => false
         end) xs ys
  | JSON_object xs, JSON_object ys =>
      (fix all (xs ys : list (string * JSON)) {struct xs} : bool :=
         match xs, ys with
         | [], [] => true
         | (k, x) :: xs', (k', y) :: ys' =>
             (k =? k')%string && JSON_eqb x y && all xs' ys'
         | _, _ => false
         end) xs ys
  | _, _ => false
  end.

Definition Truthy_eqb (a b : Truthy) : bool :=
  match a, b with
  | Truthy_true, Truthy_true => true
  | Truthy_number s m, Truthy_number s' m' => Bool.eqb s s' && (m =? m')%positive
  | Truthy_string c r, Truthy_string c' r' =>
      (String c r =? String c' r')%string
  | Truthy_array xs, Truthy_array ys =>
      JSON_eqb (JSON_array xs) (JSON_array ys)
  | Truthy_object xs, Truthy_object ys =>
      JSON_eqb (JSON_object xs) (JSON_object ys)
  | _, _ => false
  end.

(** A date string, kept together with what [new Date(s).getTime()] makes of
    it: milliseconds since the epoch, or [NaN] for an invalid date. *)
Inductive DateString : Type :=
| ISODate (ms : Z)
| InvalidDate (raw : string).

(** [None] stands for [NaN]. *)
Definition Date_getTime (s : DateString) : option Z :=
  match s with
  | ISODate ms => Some ms
  | InvalidDate _ => None
  end.

(** [!s] for a [string | null]: [null] and the empty string are falsy. *)
Definition truthy (s : option string) : option string :=
  match s with
  | Some EmptyString => None
  | other => other
  end.

(** [Array.prototype.sort(comparefn)]: a stable sort; a comparator result of
    [NaN] is read as [+0] (ECMAScript [SortCompare]).  An element moves
    behind another exactly when the comparator says it is greater, so equal
    elements keep their order. *)
Section ArraySort.
Context {A : Type} (comparefn : A -> A -> option Z).

Definition SortCompare (x y : A) : Z :=
  match comparefn x y with
  | Some v => v
  | None => 0
  end.

Fixpoint insert (x : A) (sorted : list A) : list A :=
  match sorted with
  | [] => [x]
  | y :: rest =>
      if 0 <? SortCompare x y then y :: insert x rest else x :: y :: rest
  end.

Fixpoint Array_sort (l : list A) : list A :=
  match l with
  | [] => []
  | x :: rest => insert x (Array_sort rest)
  end.
End ArraySort.

End JS.
Import JS.

(* ================================================================== *)
(** ** [lib/api]: the types exchanged with the remote service *)

Module Api.

Inductive PromptType : Type := prompt | response.

Record PromptEvent : Type := {
  id : string;
  type : PromptType;
  content : string;
  audioUrl : option string;
  createdAt : DateString
}.

(** The shape [SessionSummary] declares. *)
Record SessionSummary_shape : Type := {
  summary : string;
  tips : list string;
  generatedAt : string
}.

(** What a variable typed [SessionSummary] holds when it is truthy.  The
    type is erased at run time and [JSON.parse(cached) as SessionSummary]
    checks nothing: besides an object of the declared shape the variable may
    hold any other truthy JSON value.  ([null] is the [None] of
    [SessionSummary | null].) *)
Inductive SessionSummary : Type :=
| Shaped (s : SessionSummary_shape)
| Miscast (v : Truthy).
Coercion Shaped : SessionSummary_shape >-> SessionSummary.

Record SessionStartResponse : Type := {
  sessionId : string;
  expiresAt : string;
  initialPrompt : option PromptEvent
}.

Definition SessionSummary_eqb (a b : SessionSummary) : bool :=
  match a, b with
  | Shaped x, Shaped y =>
      (summary x =? summary y)%string
      && (if list_eq_dec string_dec (tips x) (tips y) then true else false)
      && (generatedAt x =? generatedAt y)%string
  | Miscast x, Miscast y => Truthy_eqb x y
  | _, _ => false
  end.

(** Two [SessionSummary | null] values differ (a dependency changed). *)
Definition summary_changed (a b : option SessionSummary) : bool :=
  match a, b with
  | None, None => false
  | Some x, Some y => negb (SessionSummary_eqb x y)
  | _, _ => true
  end.

(** What [JSON.parse] makes of the text in the summary cache, behind the
    cast: a truthy value, or [None] for [null], [false], [0] and the empty
    string.  [setLocalSummary] stores a falsy value as it is; every use of
    the local summary is a truthiness test ([!localSummary],
    [displayedSummary ? ...]), so the page has no local summary then. *)
Definition Cached : Type := option SessionSummary.

End Api.

(* ================================================================== *)
(** ** [SummaryCard]: can the card be rendered?

    The component reads [summary.summary], [summary.tips] and
    [summary.generatedAt] of whatever it is given.  An exception thrown
    while it renders takes the page down. *)

Module SummaryCard.
Import Api.

(** [value.key] for one of the three keys the component reads; [None] is
    [undefined].  [JSON.parse] keeps the last of several members with the
    same key; arrays, strings, numbers and [true] have none of the keys. *)
Definition member (key : string) (value : Truthy) : option JSON :=
  match value with
  | Truthy_object members =>
      option_map snd
        (find (fun m => (fst m =? key)%string) (rev members))
  | _ => None
  end.

(** [{value}] as a child of an element: React renders strings and numbers,
    skips [null] and booleans, renders the elements of an array, and throws
    on an object. *)
Fixpoint valid_child (value : JSON) : bool :=
  match value with
  | JSON_object _ => false
  | JSON_array elements => forallb valid_child elements
  | _ => true
  end.

(** The callback of [summary.tips.map]: [tip.slice(0, 10)] for the key,
    [{tip}] as child.  Strings and arrays have [slice]; on [null] the read
    throws, on anything else [tip.slice] is not a function. *)
Definition tip_renders (tip : JSON) : bool :=
  match tip with
  | JSON_string _ => true
  | JSON_array elements => forallb valid_child elements
  | _ => false
  end.

(** Does [<SummaryCard summary={summary} />] render?  [summary.tips.map]
    throws unless [tips] is an array; [new Date(...).toLocaleString()]
    never throws. *)
Definition renders (summary : SessionSummary) : bool :=
  match summary with
  | Shaped _ => true
  | Miscast value =>
      match member "tips" value with
      | Some (JSON_array tips) => forallb tip_renders tips
      | _ => false
      end
      && match member "summary" value with
         | Some child => valid_child child
         | None => true
         end
  end.

End SummaryCard.

(* ================================================================== *)
(** ** The event log of [HomePage] *)

Module EventLog.
Import Api.

(** [(a, b) => new Date(a.createdAt).getTime() - new Date(b.createdAt).getTime()] *)
Definition byCreatedAt (a b : PromptEvent) : option Z :=
  match Date_getTime (createdAt a), Date_getTime (createdAt b) with
  | Some ta, Some tb => Some (ta - tb)
  | _, _ => None
  end.

(** The updater that [appendEvent] passes to [setEvents]. *)
Definition appendEvent (incoming : PromptEvent) (prev : list PromptEvent)
  : list PromptEvent :=
  let exists_ := existsb (fun event => (id event =? id incoming)%string) prev in
  if exists_ then prev
  else Array_sort byCreatedAt (prev ++ [incoming]).

(** The log after a run of deliveries, starting from [useState([])]. *)
Definition admitAll (arrivals : list PromptEvent) : list PromptEvent :=
  fold_left (fun log incoming => appendEvent incoming log) arrivals [].

(** The event carries a creation timestamp: its [createdAt] is a date. *)
Definition timestamped (e : PromptEvent) : Prop :=
  Date_getTime (createdAt e) <> None.

(** [a] was created no later than [b]. *)
Definition createdAt_le (a b : PromptEvent) : Prop :=
  match Date_getTime (createdAt a), Date_getTime (createdAt b) with
  | Some ta, Some tb => ta <= tb
  | _, _ => False
  end.

Definition ids (log : list PromptEvent) : list string := map id log.

End EventLog.

(* ================================================================== *)
(** ** [SessionTimer]: the countdown component

    Times are numbers of clock ticks of [performance.now()]; the component
    only subtracts and compares them.  [onExpire] is opaque to the component:
    the model records the frame time of every call. *)

Module SessionTimer.

Record Timer : Type := {
  durationMs : Z;                (* prop *)
  isRunning : bool;              (* prop *)
  remainingMs : Z;               (* useState(durationMs) *)
  start : Z;                     (* [const start] of the live effect *)
  animationFrame : option nat;   (* [let animationFrame] of the live effect;
                                    [None]: the effect returned no cleanup *)
  scheduled : list nat;          (* browser: frame requests not yet run *)
  nextHandle : nat;              (* browser: the next request handle *)
  expiries : list Z              (* [now] of every [onExpire()], oldest first *)
}.

Definition setRemainingMs (v : Z) (t : Timer) : Timer :=
  {| durationMs := durationMs t; isRunning := isRunning t; remainingMs := v;
     start := start t; animationFrame := animationFrame t;
     scheduled := scheduled t; nextHandle := nextHandle t;
     expiries := expiries t |}.

(** [onExpire()] called by the frame that carries time [now]. *)
Definition onExpire (now : Z) (t : Timer) : Timer :=
  {| durationMs := durationMs t; isRunning := isRunning t;
     remainingMs := remainingMs t; start := start t;
     animationFrame := animationFrame t; scheduled := scheduled t;
     nextHandle := nextHandle t; expiries := expiries t ++ [now] |}.

(** [animationFrame = requestAnimationFrame(tick)] *)
Definition requestAnimationFrame (t : Timer) : Timer :=
  {| durationMs := durationMs t; isRunning := isRunning t;
     remainingMs := remainingMs t; start := start t;
     animationFrame := Some (nextHandle t);
     scheduled := scheduled t ++ [nextHandle t];
     nextHandle := S (nextHandle t); expiries := expiries t |}.

Definition cancelAnimationFrame (h : nat) (t : Timer) : Timer :=
  {| durationMs := durationMs t; isRunning := isRunning t;
     remainingMs := remainingMs t; start := start t;
     animationFrame := animationFrame t;
     scheduled := filter (fun h' => negb (Nat.eqb h' h)) (scheduled t);
     nextHandle := nextHandle t; expiries := expiries t |}.

(** The callback [tick(now)]. *)
Definition tick (now : Z) (t : Timer) : Timer :=
  let elapsed := now - start t in
  let nextRemaining := Z.max (durationMs t - elapsed) 0 in
  let t := setRemainingMs nextRemaining t in
  if nextRemaining =? 0 then onExpire now t
  else requestAnimationFrame t.

(** The cleanup the last effect run returned, if it returned one. *)
Definition cleanup (t : Timer) : Timer :=
  match animationFrame t with
  | Some h =>
      let t := cancelAnimationFrame h t in
      {| durationMs := durationMs t; isRunning := isRunning t;
         remainingMs := remainingMs t; start := start t;
         animationFrame := None; scheduled := scheduled t;
         nextHandle := nextHandle t; expiries := expiries t |}
  | None => t
  end.

(** The effect body, run when [performance.now()] reads [clock]. *)
Definition effect (clock : Z) (t : Timer) : Timer :=
  if negb (isRunning t) then setRemainingMs (durationMs t) t
  else
    requestAnimationFrame
      {| durationMs := durationMs t; isRunning := isRunning t;
         remainingMs := remainingMs t; start := clock;
         animationFrame := None; scheduled := scheduled t;
         nextHandle := nextHandle t; expiries := expiries t |}.

Inductive Event : Type :=
| Render (duration : Z) (running : bool) (onExpireChanged : bool) (clock : Z)
    (* the parent renders the component with these props *)
| Frame (now : Z)
    (* the browser runs the frame callbacks requested so far *)
| Unmount.

Definition render (duration : Z) (running onExpireChanged : bool) (clock : Z)
  (t : Timer) : Timer :=
  let changed :=
    negb (duration =? durationMs t) || negb (Bool.eqb running (isRunning t))
    || onExpireChanged in
  let t' :=
    {| durationMs := duration; isRunning := running;
       remainingMs := remainingMs t; start := start t;
       animationFrame := animationFrame t; scheduled := scheduled t;
       nextHandle := nextHandle t; expiries := expiries t |} in
  if changed then effect clock (cleanup t') else t'.

Definition frame (now : Z) (t : Timer) : Timer :=
  let callbacks := scheduled t in
  let t :=
    {| durationMs := durationMs t; isRunning := isRunning t;
       remainingMs := remainingMs t; start := start t;
       animationFrame := animationFrame t; scheduled := [];
       nextHandle := nextHandle t; expiries := expiries t |} in
  fold_left (fun t _ => tick now t) callbacks t.

Definition step (ev : Event) (t : Timer) : Timer :=
  match ev with
  | Render duration running onExpireChanged clock =>
      render duration running onExpireChanged clock t
  | Frame now => frame now t
  | Unmount => cleanup t
  end.

Definition run (evs : list Event) (t : Timer) : Timer :=
  fold_left (fun t ev => step ev t) evs t.

(** First render with [isRunning = false]: the effect only sets the
    remaining time. *)
Definition mount (duration : Z) : Timer :=
  effect 0
    {| durationMs := duration; isRunning := false; remainingMs := duration;
       start := 0; animationFrame := None; scheduled := []; nextHandle := 0;
       expiries := [] |}.

(** [arm]: [isRunning] turns true at time [clock]. *)
Definition arm (clock : Z) (t : Timer) : Timer :=
  step (Render (durationMs t) true false clock) t.

(** [disarm]: [isRunning] turns false. *)
Definition disarm (clock : Z) (t : Timer) : Timer :=
  step (Render (durationMs t) false false clock) t.

(** The timer is armed since clock time [t0], one frame request is pending
    and [onExpire] has not been called. *)
Definition ticking (D t0 : Z) (t : Timer) : Prop :=
  durationMs t = D /\ isRunning t = true /\ start t = t0 /\ expiries t = []
  /\ exists h, scheduled t = [h] /\ animationFrame t = Some h.

(** An event that takes the timer out of service. *)
Definition disarms (ev : Event) : Prop :=
  match ev with
  | Render _ false _ _ => True
  | Unmount => True
  | _ => False
  end.

End SessionTimer.

(* ================================================================== *)
(** ** [useAudioRecorder]: the capture hook

    [Sink] names an [onChunk] closure: [start] closes over the [onChunk] of
    the render it was created in, and so does the ["dataavailable"] listener
    it attaches.  A [Blob] is known by its size, the only thing the hook
    looks at. *)

Module AudioRecorder.

Record Blob : Type := { size : N }.

Inductive RecordingState : Type := inactive | recording.

Record MediaRecorder (Sink : Type) : Type := {
  state : RecordingState;
  onChunk : Sink
}.
Arguments state {Sink} _.
Arguments onChunk {Sink} _.

(** One call [onChunk(event.data, chunkSequenceRef.current)]. *)
Record ChunkCall (Sink : Type) : Type := {
  from : nat;          (* the recorder whose listener made the call *)
  to : Sink;
  data : Blob;
  sequence : nat
}.
Arguments from {Sink} _.
Arguments to {Sink} _.
Arguments data {Sink} _.
Arguments sequence {Sink} _.

Record Hook (Sink : Type) : Type := {
  recorders : list (MediaRecorder Sink);  (* every recorder made, by handle *)
  mediaRecorderRef : option nat;
  isRecording : bool;
  error : option string;
  chunkSequenceRef : nat;
  onChunkCalls : list (ChunkCall Sink);   (* oldest first *)
  consoleErrors : nat
}.
Arguments recorders {Sink} _.
Arguments mediaRecorderRef {Sink} _.
Arguments isRecording {Sink} _.
Arguments error {Sink} _.
Arguments chunkSequenceRef {Sink} _.
Arguments onChunkCalls {Sink} _.
Arguments consoleErrors {Sink} _.

(** What happens to the hook: its recorders' listeners run, [stop] is
    called, and [start] is called again; a [start] shows when its
    [getUserMedia] settles, with the [onChunk] it closed over. *)
Inductive Event (Sink : Type) : Type :=
| DataAvailable (rec : nat) (blob : Blob)
| OnChunkRejected
| Stop
| Stopped (rec : nat)
| GetUserMedia_resolved (sink : Sink) (constructor_throws : option Thrown)
| GetUserMedia_rejected (err : Thrown).
Arguments DataAvailable {Sink} rec blob.
Arguments OnChunkRejected {Sink}.
Arguments Stop {Sink}.
Arguments Stopped {Sink} rec.
Arguments GetUserMedia_resolved {Sink} sink constructor_throws.
Arguments GetUserMedia_rejected {Sink} err.

Section Hook.
Context {Sink : Type}.

Definition initial : Hook Sink :=
  {| recorders := []; mediaRecorderRef := None; isRecording := false;
     error := None; chunkSequenceRef := 0%nat; onChunkCalls := [];
     consoleErrors := 0%nat |}.

(** The [catch] of [start]. *)
Definition start_catch (err : Thrown) (h : Hook Sink) : Hook Sink :=
  {| recorders := recorders h; mediaRecorderRef := mediaRecorderRef h;
     isRecording := isRecording h;
     error := Some (message_or err "Unable to start audio recorder");
     chunkSequenceRef := chunkSequenceRef h; onChunkCalls := onChunkCalls h;
     consoleErrors := S (consoleErrors h) |}.

(** [start] once [getUserMedia] has answered with a stream.
    [constructor_throws] is what [new MediaRecorder(stream, { mimeType })]
    throws, if it throws. *)
Definition start_resolved (sink : Sink) (constructor_throws : option Thrown)
  (h : Hook Sink) : Hook Sink :=
  match constructor_throws with
  | Some err => start_catch err h
  | None =>
      {| recorders := recorders h ++ [{| state := recording; onChunk := sink |}];
         mediaRecorderRef := Some (List.length (recorders h));
         isRecording := true; error := None; chunkSequenceRef := 0%nat;
         onChunkCalls := onChunkCalls h; consoleErrors := consoleErrors h |}
  end.

(** [start] once [getUserMedia] has rejected. *)
Definition start_rejected (err : Thrown) (h : Hook Sink) : Hook Sink :=
  start_catch err h.

(** The ["dataavailable"] listener of recorder [rec]. *)
Definition dataavailable (rec : nat) (blob : Blob) (h : Hook Sink) : Hook Sink :=
  match nth_error (recorders h) rec with
  | None => h
  | Some r =>
      if (0 <? size blob)%N then
        let current := S (chunkSequenceRef h) in
        {| recorders := recorders h; mediaRecorderRef := mediaRecorderRef h;
           isRecording := isRecording h; error := error h;
           chunkSequenceRef := current;
           onChunkCalls :=
             onChunkCalls h
             ++ [{| from := rec; to := onChunk r; data := blob;
                    sequence := current |}];
           consoleErrors := consoleErrors h |}
      else h
  end.

(** The promise of one [onChunk] call rejects:
    [console.error("Failed to upload audio chunk", err)]. *)
Definition onChunk_rejected (h : Hook Sink) : Hook Sink :=
  {| recorders := recorders h; mediaRecorderRef := mediaRecorderRef h;
     isRecording := isRecording h; error := error h;
     chunkSequenceRef := chunkSequenceRef h; onChunkCalls := onChunkCalls h;
     consoleErrors := S (consoleErrors h) |}.

Definition set_inactive (rec : nat) (l : list (MediaRecorder Sink))
  : list (MediaRecorder Sink) :=
  firstn rec l
  ++ match nth_error l rec with
     | Some r => [{| state := inactive; onChunk := onChunk r |}]
     | None => []
     end
  ++ skipn (S rec) l.

(** [stop]: [recorder.stop()] unless there is none or it is inactive. *)
Definition stop (h : Hook Sink) : Hook Sink :=
  match mediaRecorderRef h with
  | None => h
  | Some rec =>
      match option_map state (nth_error (recorders h) rec) with
      | Some recording =>
          {| recorders := set_inactive rec (recorders h);
             mediaRecorderRef := mediaRecorderRef h;
             isRecording := isRecording h; error := error h;
             chunkSequenceRef := chunkSequenceRef h;
             onChunkCalls := onChunkCalls h;
             consoleErrors := consoleErrors h |}
      | _ => h
      end
  end.

(** The ["stop"] listener of recorder [rec]: the tracks are released and
    [setIsRecording(false)]. *)
Definition stopped (rec : nat) (h : Hook Sink) : Hook Sink :=
  match nth_error (recorders h) rec with
  | None => h
  | Some _ =>
      {| recorders := set_inactive rec (recorders h);
         mediaRecorderRef := mediaRecorderRef h;
         isRecording := false; error := error h;
         chunkSequenceRef := chunkSequenceRef h;
         onChunkCalls := onChunkCalls h; consoleErrors := consoleErrors h |}
  end.

Definition step (ev : Event Sink) (h : Hook Sink) : Hook Sink :=
  match ev with
  | DataAvailable rec blob => dataavailable rec blob h
  | OnChunkRejected => onChunk_rejected h
  | Stop => stop h
  | Stopped rec => stopped rec h
  | GetUserMedia_resolved sink constructor_throws =>
      start_resolved sink constructor_throws h
  | GetUserMedia_rejected err => start_rejected err h
  end.

Definition run (evs : list (Event Sink)) (h : Hook Sink) : Hook Sink :=
  fold_left (fun h ev => step ev h) evs h.

(** The chunks of a trace that reach the sink: those with data in them. *)
Definition delivered (evs : list (Event Sink)) : nat :=
  List.length
    (filter
       (fun ev =>
          match ev with
          | DataAvailable _ blob => (0 <? size blob)%N
          | _ => false
          end)
       evs).

(** Only recorder [rec] produces data in the trace. *)
Definition only_from (rec : nat) (evs : list (Event Sink)) : Prop :=
  Forall
    (fun ev =>
       match ev with
       | DataAvailable rec' _ => rec' = rec
       | _ => True
       end)
    evs.

(** No further [start] sets up a recorder in the trace: none is called, or
    its [getUserMedia] is refused, or the constructor throws. *)
Definition no_further_recorder (evs : list (Event Sink)) : Prop :=
  Forall
    (fun ev =>
       match ev with
       | GetUserMedia_resolved _ None => False
       | _ => True
       end)
    evs.

(** The sequence numbers handed over by the listener of recorder [rec]. *)
Definition numbers_of (rec : nat) (h : Hook Sink) : list nat :=
  map sequence (filter (fun c => Nat.eqb (from c) rec) (onChunkCalls h)).

End Hook.

End AudioRecorder.

(* ================================================================== *)
(** ** [HomePage]: the session orchestrator *)

Module HomePage.
Import Api.

Inductive SessionPhase : Type := idle | running | completed.

Definition phase_eqb (a b : SessionPhase) : bool :=
  match a, b with
  | idle, idle | running, running | completed, completed => true
  | _, _ => false
  end.

Definition sessionId_eqb (a b : option string) : bool :=
  match a, b with
  | None, None => true
  | Some x, Some y => (x =? y)%string
  | _, _ => false
  end.

(** The [EventSource] object behind [eventSourceRef]. *)
Record EventSource : Type := {
  url_sessionId : string;
  closed : bool
}.

(** Who calls [close()] on the event source. *)
Inductive Closer : Type :=
| in_handleSessionComplete
| in_effect_cleanup
| in_onerror.

(** What leaves the component: remote calls, browser calls, console. *)
Inductive Call : Type :=
| Call_startSession
| Call_completeSession (sessionId : string)
| Call_fetchPersistedSummary (sessionId : string)
| Call_uploadAudioChunk (sessionId : string) (sequence : nat)
| Call_getUserMedia
| Call_stopRecording
| Call_createPromptEventSource (sessionId : string)
| Call_eventSource_close (who : Closer)
| Call_sessionStorage_setItem (value : JSONText Cached)
| Call_console_error
| Call_console_warn.

(** An [async] function parked at an [await], with what it closed over. *)
Inductive Continuation : Type :=
| await_startSession (onChunk_sessionId : option string)
    (* [handleSessionStart] at [await startSession()]; its [startRecording]
       closes over the [handleAudioChunk] of the render it was made in *)
| await_getUserMedia (onChunk_sessionId : option string)
    (* [handleSessionStart] at [await startRecording()], itself at
       [await navigator.mediaDevices.getUserMedia] *)
| await_completeSession (sessionId : string)
| await_fetchPersistedSummary (sessionId : string).

(** What an awaited promise settles with. *)
Inductive Outcome : Type :=
| Resolved_SessionStartResponse (res : SessionStartResponse)
| Resolved_SessionSummary (summary : SessionSummary)
| Resolved_MediaStream (constructor_throws : option Thrown)
| Rejected (err : Thrown).

Record State : Type := {
  sessionPhase : SessionPhase;
  sessionId : option string;
  events : list PromptEvent;
  localSummary : option SessionSummary;
  persistedSummary : option SessionSummary;
  isCompleting : bool;
  isFetchingPersisted : bool;
  error : option string;
  eventSourceRef : option EventSource;
  completionGuard : bool;
  recorder : AudioRecorder.Hook (option string);
  latestJournalSummary : option (JSONText Cached);
      (* the slot ["latestJournalSummary"] of [sessionStorage] *)
  suspended : list Continuation;
  calls : list Call     (* oldest first *)
}.

Definition setSessionPhase (v : SessionPhase) (st : State) : State :=
  {| sessionPhase := v; sessionId := sessionId st; events := events st;
     localSummary := localSummary st;
     persistedSummary := persistedSummary st;
     isCompleting := isCompleting st;
     isFetchingPersisted := isFetchingPersisted st; error := error st;
     eventSourceRef := eventSourceRef st;
     completionGuard := completionGuard st; recorder := recorder st;
     latestJournalSummary := latestJournalSummary st;
     suspended := suspended st; calls := calls st |}.

Definition setSessionId (v : option string) (st : State) : State :=
  {| sessionPhase := sessionPhase st; sessionId := v; events := events st;
     localSummary := localSummary st;
     persistedSummary := persistedSummary st;
     isCompleting := isCompleting st;
     isFetchingPersisted := isFetchingPersisted st; error := error st;
     eventSourceRef := eventSourceRef st;
     completionGuard := completionGuard st; recorder := recorder st;
     latestJournalSummary := latestJournalSummary st;
     suspended := suspended st; calls := calls st |}.

Definition setEvents (v : list PromptEvent) (st : State) : State :=
  {| sessionPhase := sessionPhase st; sessionId := sessionId st; events := v;
     localSummary := localSummary st;
     persistedSummary := persistedSummary st;
     isCompleting := isCompleting st;
     isFetchingPersisted := isFetchingPersisted st; error := error st;
     eventSourceRef := eventSourceRef st;
     completionGuard := completionGuard st; recorder := recorder st;
     latestJournalSummary := latestJournalSummary st;
     suspended := suspended st; calls := calls st |}.

Definition setLocalSummary (v : option SessionSummary) (st : State) : State :=
  {| sessionPhase := sessionPhase st; sessionId := sessionId st;
     events := events st; localSummary := v;
     persistedSummary := persistedSummary st;
     isCompleting := isCompleting st;
     isFetchingPersisted := isFetchingPersisted st; error := error st;
     eventSourceRef := eventSourceRef st;
     completionGuard := completionGuard st; recorder := recorder st;
     latestJournalSummary := latestJournalSummary st;
     suspended := suspended st; calls := calls st |}.

Definition setPersistedSummary (v : option SessionSummary) (st : State) : State :=
  {| sessionPhase := sessionPhase st; sessionId := sessionId st;
     events := events st; localSummary := localSummary st;
     persistedSummary := v; isCompleting := isCompleting st;
     isFetchingPersisted := isFetchingPersisted st; error := error st;
     eventSourceRef := eventSourceRef st;
     completionGuard := completionGuard st; recorder := recorder st;
     latestJournalSummary := latestJournalSummary st;
     suspended := suspended st; calls := calls st |}.

Definition setIsCompleting (v : bool) (st : State) : State :=
  {| sessionPhase := sessionPhase st; sessionId := sessionId st;
     events := events st; localSummary := localSummary st;
     persistedSummary := persistedSummary st; isCompleting := v;
     isFetchingPersisted := isFetchingPersisted st; error := error st;
     eventSourceRef := eventSourceRef st;
     completionGuard := completionGuard st; recorder := recorder st;
     latestJournalSummary := latestJournalSummary st;
     suspended := suspended st; calls := calls st |}.

Definition setIsFetchingPersisted (v : bool) (st : State) : State :=
  {| sessionPhase := sessionPhase st; sessionId := sessionId st;
     events := events st; localSummary := localSummary st;
     persistedSummary := persistedSummary st;
     isCompleting := isCompleting st; isFetchingPersisted := v;
     error := error st; eventSourceRef := eventSourceRef st;
     completionGuard := completionGuard st; recorder := recorder st;
     latestJournalSummary := latestJournalSummary st;
     suspended := suspended st; calls := calls st |}.

Definition setError (v : option string) (st : State) : State :=
  {| sessionPhase := sessionPhase st; sessionId := sessionId st;
     events := events st; localSummary := localSummary st;
     persistedSummary := persistedSummary st;
     isCompleting := isCompleting st;
     isFetchingPersisted := isFetchingPersisted st; error := v;
     eventSourceRef := eventSourceRef st;
     completionGuard := completionGuard st; recorder := recorder st;
     latestJournalSummary := latestJournalSummary st;
     suspended := suspended st; calls := calls st |}.

Definition setEventSourceRef (v : option EventSource) (st : State) : State :=
  {| sessionPhase := sessionPhase st; sessionId := sessionId st;
     events := events st; localSummary := localSummary st;
     persistedSummary := persistedSummary st;
     isCompleting := isCompleting st;
     isFetchingPersisted := isFetchingPersisted st; error := error st;
     eventSourceRef := v; completionGuard := completionGuard st;
     recorder := recorder st;
     latestJournalSummary := latestJournalSummary st;
     suspended := suspended st; calls := calls st |}.

Definition setCompletionGuard (v : bool) (st : State) : State :=
  {| sessionPhase := sessionPhase st; sessionId := sessionId st;
     events := events st; localSummary := localSummary st;
     persistedSummary := persistedSummary st;
     isCompleting := isCompleting st;
     isFetchingPersisted := isFetchingPersisted st; error := error st;
     eventSourceRef := eventSourceRef st; completionGuard := v;
     recorder := recorder st;
     latestJournalSummary := latestJournalSummary st;
     suspended := suspended st; calls := calls st |}.

Definition setRecorder (v : AudioRecorder.Hook (option string)) (st : State) : State :=
  {| sessionPhase := sessionPhase st; sessionId := sessionId st;
     events := events st; localSummary := localSummary st;
     persistedSummary := persistedSummary st;
     isCompleting := isCompleting st;
     isFetchingPersisted := isFetchingPersisted st; error := error st;
     eventSourceRef := eventSourceRef st;
     completionGuard := completionGuard st; recorder := v;
     latestJournalSummary := latestJournalSummary st;
     suspended := suspended st; calls := calls st |}.

(** [sessionStorage.setItem("latestJournalSummary", v)]; the write is taken
    to succeed. *)
Definition sessionStorage_setItem (v : option (JSONText Cached)) (st : State) : State :=
  {| sessionPhase := sessionPhase st; sessionId := sessionId st;
     events := events st; localSummary := localSummary st;
     persistedSummary := persistedSummary st;
     isCompleting := isCompleting st;
     isFetchingPersisted := isFetchingPersisted st; error := error st;
     eventSourceRef := eventSourceRef st;
     completionGuard := completionGuard st; recorder := recorder st;
     latestJournalSummary := v; suspended := suspended st;
     calls := calls st |}.

Definition setSuspended (v : list Continuation) (st : State) : State :=
  {| sessionPhase := sessionPhase st; sessionId := sessionId st;
     events := events st; localSummary := localSummary st;
     persistedSummary := persistedSummary st;
     isCompleting := isCompleting st;
     isFetchingPersisted := isFetchingPersisted st; error := error st;
     eventSourceRef := eventSourceRef st;
     completionGuard := completionGuard st; recorder := recorder st;
     latestJournalSummary := latestJournalSummary st; suspended := v;
     calls := calls st |}.

Definition setCalls (v : list Call) (st : State) : State :=
  {| sessionPhase := sessionPhase st; sessionId := sessionId st;
     events := events st; localSummary := localSummary st;
     persistedSummary := persistedSummary st;
     isCompleting := isCompleting st;
     isFetchingPersisted := isFetchingPersisted st; error := error st;
     eventSourceRef := eventSourceRef st;
     completionGuard := completionGuard st; recorder := recorder st;
     latestJournalSummary := latestJournalSummary st;
     suspended := suspended st; calls := v |}.

Definition Cmd : Type := State -> State.

Definition skip : Cmd := fun st => st.

Notation "f ;; g" := (fun st : State => g (f st))
  (at level 100, right associativity).

Definition call (c : Call) : Cmd :=
  fun st => setCalls (calls st ++ [c]) st.

Definition suspend (k : Continuation) : Cmd :=
  fun st => setSuspended (suspended st ++ [k]) st.

(** The continuation at position [k] leaves the parked ones. *)
Definition unpark (k : nat) : Cmd :=
  fun st =>
    setSuspended (firstn k (suspended st) ++ skipn (S k) (suspended st)) st.

Definition appendEvent (incoming : PromptEvent) : Cmd :=
  fun st => setEvents (EventLog.appendEvent incoming (events st)) st.

(** [stopRecording()], the [stop] of the recorder hook. *)
Definition stopRecording : Cmd :=
  call Call_stopRecording ;;
  (fun st => setRecorder (AudioRecorder.stop (recorder st)) st).

(** [eventSourceRef.current?.close()] *)
Definition closeEventSource (who : Closer) : Cmd :=
  fun st =>
    match eventSourceRef st with
    | Some es =>
        (call (Call_eventSource_close who) ;;
         setEventSourceRef
           (Some {| url_sessionId := url_sessionId es; closed := true |})) st
    | None => st
    end.

Definition resetSessionState : Cmd :=
  setEvents [] ;;
  setLocalSummary None ;;
  setPersistedSummary None ;;
  setError None ;;
  setIsCompleting false ;;
  setIsFetchingPersisted false ;;
  setSessionId None ;;
  setCompletionGuard false.

(** [handleSessionStart] up to [await startSession()]. *)
Definition handleSessionStart : Cmd :=
  fun st =>
    (resetSessionState ;;
     call Call_startSession ;;
     suspend (await_startSession (sessionId st))) st.

(** [handleSessionComplete], as the closure that captured [sessionId], up to
    [await completeSession(sessionId)]. *)
Definition handleSessionComplete (sessionId : option string) : Cmd :=
  fun st =>
    match truthy sessionId, completionGuard st with
    | Some sid, false =>
        (setCompletionGuard true ;;
         setIsCompleting true ;;
         stopRecording ;;
         closeEventSource in_handleSessionComplete ;;
         setSessionPhase completed ;;
         call (Call_completeSession sid) ;;
         suspend (await_completeSession sid)) st
    | _, _ => st
    end.

(** The [catch] and [finally] blocks of [handleSessionComplete]. *)
Definition handleSessionComplete_catch (err : Thrown) : Cmd :=
  call Call_console_error ;;
  setError (Some (message_or err "Session completion failed")).

Definition handleSessionComplete_finally : Cmd :=
  setIsCompleting false ;;
  setIsFetchingPersisted false.

(** The rest of an [async] function when its awaited promise settles;
    [None] when the promise cannot settle that way. *)
Definition resume (k : Continuation) (o : Outcome) : option Cmd :=
  match k, o with
  | await_startSession onChunk, Resolved_SessionStartResponse res =>
      Some
        (setSessionId (Some (Api.sessionId res)) ;;
         setSessionPhase running ;;
         match initialPrompt res with
         | Some p => appendEvent p
         | None => skip
         end ;;
         call Call_getUserMedia ;;
         suspend (await_getUserMedia onChunk))
  | await_startSession _, Rejected err =>
      Some
        (call Call_console_error ;;
         setError (Some (message_or err "Unable to start session")) ;;
         setSessionPhase idle ;;
         setSessionId None)
  | await_getUserMedia onChunk, Resolved_MediaStream constructor_throws =>
      Some
        (fun st =>
           setRecorder
             (AudioRecorder.start_resolved onChunk constructor_throws
                (recorder st)) st)
  | await_getUserMedia _, Rejected err =>
      Some
        (fun st =>
           setRecorder (AudioRecorder.start_rejected err (recorder st)) st)
  | await_completeSession sid, Resolved_SessionSummary summary =>
      Some
        (setLocalSummary (Some summary) ;;
         call (Call_sessionStorage_setItem (JSON_stringify (Some summary))) ;;
         sessionStorage_setItem (Some (JSON_stringify (Some summary))) ;;
         setIsFetchingPersisted true ;;
         call (Call_fetchPersistedSummary sid) ;;
         suspend (await_fetchPersistedSummary sid))
  | await_completeSession _, Rejected err =>
      Some (handleSessionComplete_catch err ;; handleSessionComplete_finally)
  | await_fetchPersistedSummary _, Resolved_SessionSummary persisted =>
      Some (setPersistedSummary (Some persisted) ;;
            handleSessionComplete_finally)
  | await_fetchPersistedSummary _, Rejected err =>
      Some (handleSessionComplete_catch err ;; handleSessionComplete_finally)
  | _, _ => None
  end.

Definition settle (k : nat) (o : Outcome) : Cmd :=
  fun st =>
    match nth_error (suspended st) k with
    | None => st
    | Some kont =>
        match resume kont o with
        | Some rest => (unpark k ;; rest) st
        | None => st
        end
    end.

(** [eventSource.onmessage] *)
Definition onmessage (text : JSONText PromptEvent) : Cmd :=
  fun st =>
    match eventSourceRef st with
    | Some {| closed := false |} =>
        match JSON_parse text with
        | inr payload => appendEvent payload st
        | inl _ => call Call_console_error st
        end
    | _ => st
    end.

(** [eventSource.onerror] *)
Definition onerror : Cmd :=
  fun st =>
    match eventSourceRef st with
    | Some {| closed := false |} =>
        (call Call_console_warn ;; closeEventSource in_onerror) st
    | _ => st
    end.

(** The recorder's ["dataavailable"] listener followed by the
    [handleAudioChunk] it calls: that closure uploads under the [sessionId]
    it captured, and returns at once when that is falsy. *)
Definition ondataavailable (rec : nat) (blob : AudioRecorder.Blob) : Cmd :=
  fun st =>
    let before := recorder st in
    let after := AudioRecorder.dataavailable rec blob before in
    let st := setRecorder after st in
    match skipn (List.length (AudioRecorder.onChunkCalls before))
            (AudioRecorder.onChunkCalls after) with
    | c :: _ =>
        match truthy (AudioRecorder.to c) with
        | Some sid =>
            call (Call_uploadAudioChunk sid (AudioRecorder.sequence c)) st
        | None => st
        end
    | [] => st
    end.

(** The session the event-stream effect subscribes to, when its guard
    [sessionPhase !== "running" || !sessionId] lets it through. *)
Definition subscription (st : State) : option string :=
  match sessionPhase st with
  | running => truthy (sessionId st)
  | _ => None
  end.

(** The cleanup returned by the event-stream effect when it last ran, in the
    render of [before]. *)
Definition eventStream_cleanup (before : State) : Cmd :=
  match subscription before with
  | Some _ => closeEventSource in_effect_cleanup ;; setEventSourceRef None
  | None => skip
  end.

Definition eventStream_effect : Cmd :=
  fun st =>
    match subscription st with
    | Some sid =>
        (call (Call_createPromptEventSource sid) ;;
         setEventSourceRef
           (Some {| url_sessionId := sid; closed := false |})) st
    | None => st
    end.

(** Is there a non-empty text in the cache slot ([cached && ...])? *)
Definition cached_text (st : State) : option (JSONText Cached) :=
  match latestJournalSummary st with
  | Some (Unparsable EmptyString) => None
  | other => other
  end.

(** The rehydration effect (in the browser, where [window] is defined):
    what was parsed goes to [setLocalSummary] as it is. *)
Definition rehydration_effect : Cmd :=
  fun st =>
    match cached_text st, localSummary st with
    | Some cached, None =>
        match JSON_parse cached with
        | inr parsed => setLocalSummary parsed st
        | inl _ => call Call_console_error st
        end
    | _, _ => st
    end.

(** React commits the state the handler left and re-runs the effects whose
    dependencies differ from those of the previous render [before]. *)
Definition commit (before : State) : Cmd :=
  fun st =>
    let st :=
      if sessionId_eqb (sessionId before) (sessionId st)
         && phase_eqb (sessionPhase before) (sessionPhase st)
      then st
      else (eventStream_cleanup before ;; eventStream_effect) st in
    if summary_changed (localSummary before) (localSummary st)
    then rehydration_effect st
    else st.

Inductive Event : Type :=
| Click_Start
    (* the Start button, [disabled] while the phase is [running] *)
| Timer_onExpire
    (* [SessionTimer] calls the [onExpire] of the last render *)
| Invoke_handleSessionComplete (sessionId : option string)
    (* any closure of [handleSessionComplete], by what it captured *)
| Settle (k : nat) (o : Outcome)
    (* the promise awaited by the [k]-th parked continuation settles *)
| EventSource_onmessage (text : JSONText PromptEvent)
| EventSource_onerror
| Recorder_dataavailable (rec : nat) (blob : AudioRecorder.Blob)
| Recorder_onChunk_rejected
| Recorder_stopped (rec : nat).

Definition handle (ev : Event) : Cmd :=
  fun st =>
    match ev with
    | Click_Start =>
        match sessionPhase st with
        | running => st
        | _ => handleSessionStart st
        end
    | Timer_onExpire =>
        match sessionPhase st with
        | running => handleSessionComplete (sessionId st) st
        | _ => st
        end
    | Invoke_handleSessionComplete sid => handleSessionComplete sid st
    | Settle k o => settle k o st
    | EventSource_onmessage text => onmessage text st
    | EventSource_onerror => onerror st
    | Recorder_dataavailable rec blob => ondataavailable rec blob st
    | Recorder_onChunk_rejected =>
        setRecorder (AudioRecorder.onChunk_rejected (recorder st)) st
    | Recorder_stopped rec =>
        setRecorder (AudioRecorder.stopped rec (recorder st)) st
    end.

Definition step (ev : Event) (st : State) : State :=
  commit st (handle ev st).

Definition run (evs : list Event) (st : State) : State :=
  fold_left (fun st ev => step ev st) evs st.

(** The first render of a page load that finds [cache] in the slot. *)
Definition first_render (cache : option (JSONText Cached)) : State :=
  {| sessionPhase := idle; sessionId := None; events := [];
     localSummary := None; persistedSummary := None; isCompleting := false;
     isFetchingPersisted := false; error := None; eventSourceRef := None;
     completionGuard := false; recorder := AudioRecorder.initial;
     latestJournalSummary := cache; suspended := []; calls := [] |}.

(** The first render, then both effects. *)
Definition mount (cache : option (JSONText Cached)) : State :=
  (eventStream_effect ;; rehydration_effect) (first_render cache).

(** The guidance events an event of the page brings with it: the initial
    prompt of a start response, the payload of a stream message. *)
Definition deliveries (ev : Event) : list PromptEvent :=
  match ev with
  | Settle _ (Resolved_SessionStartResponse res) =>
      match initialPrompt res with
      | Some p => [p]
      | None => []
      end
  | EventSource_onmessage (Encodes payload) => [payload]
  | _ => []
  end.

(** [persistedSummary ?? localSummary] *)
Definition displayedSummary (st : State) : option SessionSummary :=
  match persistedSummary st with
  | Some persisted => Some persisted
  | None => localSummary st
  end.

(** Does the render of the page get through [SummaryCard]?  The card is
    rendered for a truthy [displayedSummary]. *)
Definition page_renders (st : State) : bool :=
  match displayedSummary st with
  | Some summary => SummaryCard.renders summary
  | None => true
  end.

(** The props handed to [SessionTimer]: [isRunning]. *)
Definition timer_isRunning (st : State) : bool :=
  phase_eqb (sessionPhase st) running.

(** How many of the calls made so far satisfy [p]. *)
Definition made (p : Call -> bool) (st : State) : nat :=
  List.length (filter p (calls st)).

Definition is_completeSession (c : Call) : bool :=
  match c with Call_completeSession _ => true | _ => false end.

Definition is_fetchPersistedSummary (c : Call) : bool :=
  match c with Call_fetchPersistedSummary _ => true | _ => false end.

Definition is_stopRecording (c : Call) : bool :=
  match c with Call_stopRecording => true | _ => false end.

Definition is_close_by_handler (c : Call) : bool :=
  match c with
  | Call_eventSource_close in_handleSessionComplete => true
  | _ => false
  end.

Definition is_remote (c : Call) : bool :=
  match c with
  | Call_startSession | Call_completeSession _ | Call_fetchPersistedSummary _
  | Call_uploadAudioChunk _ _ => true
  | _ => false
  end.

(** What the rehydration effect puts back when a reset has just emptied a
    local summary that was present. *)
Definition rehydrated_after_reset (st : State) : option SessionSummary :=
  match localSummary st, cached_text st with
  | Some _, Some (Encodes v) => v
  | _, _ => None
  end.

Definition console_after_reset (st : State) : list Call :=
  match localSummary st, cached_text st with
  | Some _, Some (Unparsable _) => [Call_console_error]
  | _, _ => []
  end.

(** A call of the completion sequence: stop capture, close the stream (by
    the handler), finalize, fetch the persisted summary. *)
Definition is_sequence_call (c : Call) : bool :=
  is_stopRecording c || is_close_by_handler c || is_completeSession c
  || is_fetchPersistedSummary c.



(** [{error ? <p>{error}</p> : null}]: the note the page shows, for an
    [error] that is not empty. *)
Definition errorNote (st : State) : option string := truthy (error st).




(** The calls an effect makes when React commits. *)
Definition by_effect (c : Call) : bool :=
  match c with
  | Call_createPromptEventSource _ | Call_console_error
  | Call_eventSource_close in_effect_cleanup => true
  | _ => false
  end.


(** A command that leaves the event log, the guard and the parked
    continuations alone and only makes calls that effects make. *)
Definition quiet (f : Cmd) : Prop :=
  forall st,
    events (f st) = events st
    /\ completionGuard (f st) = completionGuard st
    /\ suspended (f st) = suspended st
    /\ exists extra,
         calls (f st) = calls st ++ extra /\ forallb by_effect extra = true.


End HomePage.

(* ================================================================== *)
(** * One session, step by step *)

Module Scenario.
Import Api HomePage.

Definition e1 : PromptEvent :=
  {| id := "e1"; type := prompt; content := "What stayed with you today?";
     audioUrl := None; createdAt := ISODate 1700000060000 |}.

(** Created a minute before [e1], delivered after it. *)
Definition e2 : PromptEvent :=
  {| id := "e2"; type := response; content := "Take your time.";
     audioUrl := None; createdAt := ISODate 1700000000000 |}.

(** Three events for the log: one created late, one whose [createdAt] is no
    date, one created early. *)
Definition late : PromptEvent :=
  {| id := "a"; type := prompt; content := "What stayed with you today?";
     audioUrl := None; createdAt := ISODate 2000 |}.

Definition undated : PromptEvent :=
  {| id := "n"; type := response; content := "Take your time.";
     audioUrl := None; createdAt := InvalidDate "soon" |}.

Definition early : PromptEvent :=
  {| id := "b"; type := prompt; content := "Where were you?";
     audioUrl := None; createdAt := ISODate 1000 |}.

Definition s1 : SessionStartResponse :=
  {| Api.sessionId := "s1"; expiresAt := "2023-11-14T22:18:20.000Z";
     initialPrompt := Some e1 |}.

Definition s2 : SessionStartResponse :=
  {| Api.sessionId := "s2"; expiresAt := "2023-11-14T22:28:20.000Z";
     initialPrompt := None |}.

Definition local1 : SessionSummary :=
  {| summary := "You spoke about a walk by the river.";
     tips := ["Walk again tomorrow."%string];
     generatedAt := "2023-11-14T22:18:21.000Z" |}.

Definition persisted1 : SessionSummary :=
  {| summary := "You spoke about a walk by the river.";
     tips := ["Walk again tomorrow."%string];
     generatedAt := "2023-11-14T22:18:22.000Z" |}.

Definition denied : Thrown := ErrorObj "Permission denied".

Definition http500 : Thrown := ErrorObj "API request failed with status 500".

(** Start is clicked on a fresh page and the service opens session [s1]. *)
Definition started : State :=
  run [Click_Start; Settle 0 (Resolved_SessionStartResponse s1)] (mount None).

(** ... but the browser refuses the microphone. *)
Definition mic_denied : State := step (Settle 0 (Rejected denied)) started.

(** ... instead, the microphone is granted and recording begins. *)
Definition recording : State :=
  step (Settle 0 (Resolved_MediaStream None)) started.

(** The timer runs out; the finalize call is on its way. *)
Definition completing : State := step Timer_onExpire recording.

(** The finalize call answers; the fetch of the persisted copy is on its
    way. *)
Definition finalized : State :=
  step (Settle 0 (Resolved_SessionSummary local1)) completing.

(** The fetch fails. *)
Definition fetch_failed : State := step (Settle 0 (Rejected http500)) finalized.

(** The fetch succeeds instead: the session is over, both summaries are in. *)
Definition over : State :=
  step (Settle 0 (Resolved_SessionSummary persisted1)) finalized.

(** The user clicks Start again. *)
Definition restarted : State := step Click_Start over.

(** The service opens session [s2]. *)
Definition running_again : State :=
  step (Settle 0 (Resolved_SessionStartResponse s2)) restarted.

(** The page is reloaded after the finalize call had answered. *)
Definition reloaded : State := mount (latestJournalSummary finalized).

(** Chunks of one recording: two with data, an empty one between, an upload
    that fails, a stop and the last chunk the recorder flushes. *)
Definition chunks : list (AudioRecorder.Event (option string)) :=
  [AudioRecorder.DataAvailable 0 {| AudioRecorder.size := 4096 |};
   AudioRecorder.OnChunkRejected;
   AudioRecorder.DataAvailable 0 {| AudioRecorder.size := 0 |};
   AudioRecorder.DataAvailable 0 {| AudioRecorder.size := 4096 |};
   AudioRecorder.Stop;
   AudioRecorder.DataAvailable 0 {| AudioRecorder.size := 512 |};
   AudioRecorder.Stopped 0].


(** A second recording is set up while the first one goes on. *)
Definition restarted_chunks : list (AudioRecorder.Event (option string)) :=
  [AudioRecorder.DataAvailable 0 {| AudioRecorder.size := 4096 |};
   AudioRecorder.DataAvailable 0 {| AudioRecorder.size := 4096 |};
   AudioRecorder.GetUserMedia_resolved (Some "s1"%string) None;
   AudioRecorder.DataAvailable 0 {| AudioRecorder.size := 4096 |}].

(** Start is clicked twice before the service answers: both clicks go
    through, two sessions are opened and two recorders set up, and the
    first recorder keeps delivering. *)
Definition double_click : list HomePage.Event :=
  [Click_Start; Click_Start;
   Settle 0 (Resolved_SessionStartResponse s1);
   Settle 1 (Resolved_MediaStream None);
   Recorder_dataavailable 0 {| AudioRecorder.size := 4096 |};
   Recorder_dataavailable 0 {| AudioRecorder.size := 4096 |};
   Settle 0 (Resolved_SessionStartResponse s2);
   Settle 0 (Resolved_MediaStream None);
   Recorder_dataavailable 0 {| AudioRecorder.size := 4096 |}].

(** The text [{}] in the cache: it parses, to an object that is no
    summary. *)
Definition empty_object : SessionSummary := Miscast (Truthy_object []).

(** The text [{"summary": "...", "tips": "..."}]: the tips are one string,
    not a list. *)
Definition tips_as_text : SessionSummary :=
  Miscast
    (Truthy_object
       [("summary"%string, JSON_string "You spoke about a walk.");
        ("tips"%string, JSON_string "Walk again tomorrow.")]).

Definition local2 : SessionSummary :=
  {| summary := "You spoke about a long day.";
     tips := ["Sleep early."%string];
     generatedAt := "2023-11-14T22:28:21.000Z" |}.

(** Start is clicked while the finalize call of session [s1] is out; [s1]
    gets both its summaries while [s2] runs; then [s2] is completed and the
    fetch of its persisted summary fails. *)
Definition overlapping : State :=
  run [Click_Start;
       Settle 1 (Resolved_SessionStartResponse s2);
       Settle 0 (Resolved_SessionSummary local1);
       Settle 1 (Resolved_SessionSummary persisted1);
       Timer_onExpire;
       Settle 1 (Resolved_SessionSummary local2);
       Settle 1 (Rejected http500)] completing.

End Scenario.

(* ================================================================== *)
(** ** [SessionTimer]: what the component shows

    The remaining time is a number of milliseconds with a fractional part;
    the display is computed here on exact rationals. *)

From Stdlib Require QArith Qround Qminmax Lqa.
From Stdlib Require DecimalString DecimalNat DecimalZ DecimalPos DecimalFacts.

Module TimerDisplay.
Import Ascii QArith Qround Qminmax.
Local Open Scope string_scope.

(** [n.toString()] of an integer. *)
Definition toString (n : Z) : string :=
  DecimalString.NilZero.string_of_int (Z.to_int n).

Fixpoint zeros (n : nat) : string :=
  match n with
  | O => ""
  | S n' => String "0"%char (zeros n')
  end.

(** [s.padStart(targetLength, "0")] *)
Definition padStart (targetLength : nat) (s : string) : string :=
  zeros (targetLength - String.length s) ++ s.

(** [Math.ceil(remainingMs / 1000)] *)
Definition totalSeconds (remainingMs : Q) : Z :=
  Qceiling (remainingMs / 1000).

(** [Math.floor(totalSeconds / 60).toString().padStart(2, "0")] *)
Definition minutes (remainingMs : Q) : string :=
  padStart 2 (toString (totalSeconds remainingMs / 60)%Z).

(** [(totalSeconds % 60).toString().padStart(2, "0")]; [%] rounds towards
    zero. *)
Definition seconds (remainingMs : Q) : string :=
  padStart 2 (toString (Z.rem (totalSeconds remainingMs) 60)).

Definition formatted (remainingMs : Q) : string :=
  minutes remainingMs ++ ":" ++ seconds remainingMs.

(** [100 - Math.min(100, (remainingMs / durationMs) * 100)] *)
Definition percent (durationMs remainingMs : Q) : Q :=
  100 - Qmin 100 (remainingMs / durationMs * 100).

(** No character of the text is a colon. *)
Fixpoint colon_free (s : string) : Prop :=
  match s with
  | EmptyString => True
  | String c rest => c <> ":"%char /\ colon_free rest
  end.

End TimerDisplay.

(** At most one frame is requested, and it is the one the cleanup of the
    live effect would cancel. *)
Definition one_request (t : SessionTimer.Timer) : Prop :=
  SessionTimer.scheduled t = []
  \/ exists h, SessionTimer.scheduled t = [h]
               /\ SessionTimer.animationFrame t = Some h.

(** While the timer is not running nothing is requested and the remaining
    time shown is the full duration. *)
Definition at_rest (t : SessionTimer.Timer) : Prop :=
  SessionTimer.isRunning t = false ->
  SessionTimer.scheduled t = []
  /\ SessionTimer.remainingMs t = SessionTimer.durationMs t.

(** The timer counts down [D] from [t0], one frame is requested, and the
    calls of [onExpire] so far are [past]. *)
Definition counting (past : list Z) (D t0 : Z) (t : SessionTimer.Timer) : Prop :=
  SessionTimer.durationMs t = D /\ SessionTimer.start t = t0
  /\ SessionTimer.expiries t = past
  /\ exists h, SessionTimer.scheduled t = [h].

(* ================================================================== *)
(** ** [lib/api]: the helpers around [fetch] *)

Module Fetch.
Import Api.
Local Open Scope string_scope.

(** [`${n}`] and [String(n)] of a natural number. *)
Definition toString (n : nat) : string :=
  DecimalString.NilEmpty.string_of_uint (Nat.to_uint n).

(** What the helpers look at in a [Response]: its status and its body, the
    latter as [response.json()] will find it. *)
Record Response (T : Type) : Type := {
  status : nat;
  body : JSONText T
}.
Arguments status {T} _.
Arguments body {T} _.

(** [response.ok]: the status is one of 200..299. *)
Definition ok {T : Type} (resp : Response T) : bool :=
  (200 <=? status resp)%nat && (status resp <=? 299)%nat.

(** What [await fetch(...)] comes back with: a rejection (the request never
    got an answer) or a response. *)
Inductive Fetched (T : Type) : Type :=
| NoAnswer (err : Thrown)
| Answered (resp : Response T).
Arguments NoAnswer {T} err.
Arguments Answered {T} resp.

(** [apiFetch], from the answer of [fetch] on. *)
Definition apiFetch {T : Type} (fetched : Fetched T) : Thrown + T :=
  match fetched with
  | NoAnswer err => inl err
  | Answered resp =>
      if negb (ok resp)
      then inl (ErrorObj ("API request failed with status "
                          ++ toString (status resp)))
      else JSON_parse (body resp)
  end.

(** [startSession], [completeSession] and [fetchPersistedSummary] as the
    page awaits them. *)
Definition startSession (fetched : Fetched SessionStartResponse)
  : HomePage.Outcome :=
  match apiFetch fetched with
  | inr res => HomePage.Resolved_SessionStartResponse res
  | inl err => HomePage.Rejected err
  end.

Definition completeSession (fetched : Fetched SessionSummary)
  : HomePage.Outcome :=
  match apiFetch fetched with
  | inr summary => HomePage.Resolved_SessionSummary summary
  | inl err => HomePage.Rejected err
  end.

Definition fetchPersistedSummary (fetched : Fetched SessionSummary)
  : HomePage.Outcome :=
  match apiFetch fetched with
  | inr summary => HomePage.Resolved_SessionSummary summary
  | inl err => HomePage.Rejected err
  end.

(** The form [uploadAudioChunk] posts: the file name of the chunk and the
    ["sequence"] field. *)
Record FormData : Type := {
  chunk_filename : string;
  sequence_field : string
}.

Definition uploadAudioChunk_form (sequence : nat) : FormData :=
  {| chunk_filename := "audio-" ++ toString sequence ++ ".webm";
     sequence_field := toString sequence |}.

(** [uploadAudioChunk], from the answer of [fetch] on: the body is not
    read. *)
Definition uploadAudioChunk {T : Type} (fetched : Fetched T) : Thrown + unit :=
  match fetched with
  | NoAnswer err => inl err
  | Answered resp =>
      if negb (ok resp)
      then inl (ErrorObj ("Failed to upload audio chunk: "
                          ++ toString (status resp)))
      else inr tt
  end.

End Fetch.

(* ================================================================== *)
(** ** [HomePage]: what is derived from the state, and what the state keeps *)

Module PageView.
Import Api HomePage.
Local Open Scope string_scope.

(** [summaryStatusMessage] *)
Definition summaryStatusMessage (st : State) : option string :=
  match localSummary st with
  | None => None
  | Some _ =>
      match persistedSummary st, isFetchingPersisted st with
      | None, true => Some "Saving your reflections to the journal..."
      | Some _, _ => Some "This journal entry has been saved."
      | None, false =>
          Some "Temporary journal summary (waiting for saved copy)."
      end
  end.

Definition is_uploadAudioChunk (c : Call) : bool :=
  match c with Call_uploadAudioChunk _ _ => true | _ => false end.

Definition is_await_startSession (k : Continuation) : bool :=
  match k with await_startSession _ => true | _ => false end.

Definition is_await_fetchPersistedSummary (k : Continuation) : bool :=
  match k with await_fetchPersistedSummary _ => true | _ => false end.

(** A parked [handleSessionComplete]. *)
Definition is_completion (k : Continuation) : bool :=
  match k with
  | await_completeSession _ | await_fetchPersistedSummary _ => true
  | _ => false
  end.

(** The [sessionId] inside the [handleAudioChunk] a parked
    [handleSessionStart] will hand to the recorder. *)
Definition onChunk_of (k : Continuation) : option string :=
  match k with
  | await_startSession onChunk | await_getUserMedia onChunk => onChunk
  | _ => None
  end.

(** The event source the page refers to is the one of the running
    session. *)
Definition stream_matches (st : State) : Prop :=
  option_map url_sessionId (eventSourceRef st) = subscription st.

(** No recorder made so far, and none about to be made, uploads. *)
Definition sinks_empty (st : State) : Prop :=
  Forall (fun r => AudioRecorder.onChunk r = None)
    (AudioRecorder.recorders (recorder st))
  /\ Forall (fun k => onChunk_of k = None) (suspended st)
  /\ made is_uploadAudioChunk st = 0%nat.

(** No session has been started, and no start is under way. *)
Definition never_started (st : State) : Prop :=
  sessionId st = None
  /\ Forall (fun k => is_await_startSession k = false) (suspended st).

(** What the page renders in the summary column: the card with its status
    line, the placeholder, or nothing. *)
Inductive SummaryColumn : Type :=
| Column_card (summary : SessionSummary) (status : option string)
| Column_placeholder     (* "Your summary will appear here momentarily." *)
| Column_empty.

Definition summaryColumn (st : State) : SummaryColumn :=
  match displayedSummary st with
  | Some s => Column_card s (summaryStatusMessage st)
  | None =>
      if phase_eqb (sessionPhase st) completed && negb (isCompleting st)
      then Column_placeholder
      else Column_empty
  end.

(** The spinners are on only while a call is out. *)
Definition spinners_justified (st : State) : Prop :=
  (isFetchingPersisted st = true ->
   exists k, In k (suspended st) /\ is_await_fetchPersistedSummary k = true)
  /\ (isCompleting st = true ->
      exists k, In k (suspended st) /\ is_completion k = true).

(** A command that changes nothing but the event-source reference, the
    local summary and the calls made, and makes only calls of effects. *)
Definition effect_only (f : Cmd) : Prop :=
  forall st,
    exists ref ls extra,
      f st
      = setCalls (calls st ++ extra)
          (setLocalSummary ls (setEventSourceRef ref st))
      /\ forallb by_effect extra = true.

End PageView.

(* ================================================================== *)
(** ** [HistoryPage]: the journal history ([app/history/page.tsx])

    The page loads the list of past sessions once, and the summary of an
    entry whenever another entry is selected.  Both loads are [async]
    functions started by an effect; they are cut at their [await] like the
    handlers of [HomePage]. *)

Module HistoryPage.

(** [JournalEntryMeta] of [lib/api] *)
Record JournalEntryMeta : Type := {
  id : string;
  sessionStartedAt : DateString;
  summary : option string
}.

(** [(a, b) => new Date(b.sessionStartedAt).getTime()
               - new Date(a.sessionStartedAt).getTime()] *)
Definition bySessionStartedAt (a b : JournalEntryMeta) : option Z :=
  match Date_getTime (sessionStartedAt b), Date_getTime (sessionStartedAt a) with
  | Some tb, Some ta => Some (tb - ta)
  | _, _ => None
  end.

Inductive Call : Type :=
| Call_fetchJournalHistory
| Call_fetchJournalEntry (entryId : string)
| Call_console_error.

(** [loadHistory] and [loadSummary] parked at their [await]. *)
Inductive Continuation : Type :=
| await_fetchJournalHistory
| await_fetchJournalEntry (entryId : string).

Inductive Outcome : Type :=
| Resolved_history (history : list JournalEntryMeta)
| Resolved_summary (summary : Api.SessionSummary)
| Rejected (err : Thrown).

Record State : Type := {
  entries : list JournalEntryMeta;
  selectedEntryId : option string;
  selectedSummary : option Api.SessionSummary;
  isLoadingEntries : bool;
  isLoadingSummary : bool;
  error : option string;
  suspended : list Continuation;
  calls : list Call     (* oldest first *)
}.

Definition Cmd : Type := State -> State.

(** [loadHistory] up to [await fetchJournalHistory()]. *)
Definition loadHistory : Cmd :=
  fun st =>
    {| entries := entries st; selectedEntryId := selectedEntryId st;
       selectedSummary := selectedSummary st;
       isLoadingEntries := true;
       isLoadingSummary := isLoadingSummary st; error := error st;
       suspended := suspended st ++ [await_fetchJournalHistory];
       calls := calls st ++ [Call_fetchJournalHistory] |}.

(** [loadSummary] up to [await fetchJournalEntry(selectedEntryId)], or to
    its [return] when nothing is selected. *)
Definition loadSummary : Cmd :=
  fun st =>
    match truthy (selectedEntryId st) with
    | None =>
        {| entries := entries st; selectedEntryId := selectedEntryId st;
           selectedSummary := None;
           isLoadingEntries := isLoadingEntries st;
           isLoadingSummary := isLoadingSummary st; error := error st;
           suspended := suspended st; calls := calls st |}
    | Some entryId =>
        {| entries := entries st; selectedEntryId := selectedEntryId st;
           selectedSummary := selectedSummary st;
           isLoadingEntries := isLoadingEntries st;
           isLoadingSummary := true; error := error st;
           suspended := suspended st ++ [await_fetchJournalEntry entryId];
           calls := calls st ++ [Call_fetchJournalEntry entryId] |}
    end.

(** The rest of a load when its awaited promise settles: the remainder of
    the [try], or the [catch], then the [finally]. *)
Definition resume (k : Continuation) (o : Outcome) : option Cmd :=
  match k, o with
  | await_fetchJournalHistory, Resolved_history history =>
      Some (fun st =>
        {| entries := Array_sort bySessionStartedAt history;
           selectedEntryId := selectedEntryId st;
           selectedSummary := selectedSummary st;
           isLoadingEntries := false;
           isLoadingSummary := isLoadingSummary st; error := error st;
           suspended := suspended st; calls := calls st |})
  | await_fetchJournalHistory, Rejected err =>
      Some (fun st =>
        {| entries := entries st; selectedEntryId := selectedEntryId st;
           selectedSummary := selectedSummary st;
           isLoadingEntries := false;
           isLoadingSummary := isLoadingSummary st;
           error := Some (message_or err "Unable to load journal history");
           suspended := suspended st;
           calls := calls st ++ [Call_console_error] |})
  | await_fetchJournalEntry _, Resolved_summary summary =>
      Some (fun st =>
        {| entries := entries st; selectedEntryId := selectedEntryId st;
           selectedSummary := Some summary;
           isLoadingEntries := isLoadingEntries st;
           isLoadingSummary := false; error := error st;
           suspended := suspended st; calls := calls st |})
  | await_fetchJournalEntry _, Rejected err =>
      Some (fun st =>
        {| entries := entries st; selectedEntryId := selectedEntryId st;
           selectedSummary := selectedSummary st;
           isLoadingEntries := isLoadingEntries st;
           isLoadingSummary := false;
           error := Some (message_or err "Unable to load journal entry");
           suspended := suspended st;
           calls := calls st ++ [Call_console_error] |})
  | _, _ => None
  end.

(** The continuation at position [k] leaves the parked ones. *)
Definition unpark (k : nat) : Cmd :=
  fun st =>
    {| entries := entries st; selectedEntryId := selectedEntryId st;
       selectedSummary := selectedSummary st;
       isLoadingEntries := isLoadingEntries st;
       isLoadingSummary := isLoadingSummary st; error := error st;
       suspended := firstn k (suspended st) ++ skipn (S k) (suspended st);
       calls := calls st |}.

Definition settle (k : nat) (o : Outcome) : Cmd :=
  fun st =>
    match nth_error (suspended st) k with
    | None => st
    | Some kont =>
        match resume kont o with
        | Some rest => rest (unpark k st)
        | None => st
        end
    end.

(** The button of the [i]-th entry: [setSelectedEntryId(entry.id)].  The
    buttons are rendered when the list is not loading. *)
Definition onClick (i : nat) : Cmd :=
  fun st =>
    if isLoadingEntries st then st
    else
      match nth_error (entries st) i with
      | None => st
      | Some entry =>
          {| entries := entries st; selectedEntryId := Some (id entry);
             selectedSummary := selectedSummary st;
             isLoadingEntries := isLoadingEntries st;
             isLoadingSummary := isLoadingSummary st; error := error st;
             suspended := suspended st; calls := calls st |}
      end.

Definition entryId_eqb (a b : option string) : bool :=
  match a, b with
  | None, None => true
  | Some x, Some y => (x =? y)%string
  | _, _ => false
  end.

(** React commits the state and re-runs the effect with dependency
    [selectedEntryId] when that differs from the previous render's. *)
Definition commit (before : State) : Cmd :=
  fun st =>
    if entryId_eqb (selectedEntryId before) (selectedEntryId st)
    then st
    else loadSummary st.

Inductive Event : Type :=
| Click_entry (i : nat)
| Settle (k : nat) (o : Outcome).

Definition handle (ev : Event) : Cmd :=
  match ev with
  | Click_entry i => onClick i
  | Settle k o => settle k o
  end.

Definition step (ev : Event) (st : State) : State :=
  commit st (handle ev st).

Definition run (evs : list Event) (st : State) : State :=
  fold_left (fun st ev => step ev st) evs st.

Definition first_render : State :=
  {| entries := []; selectedEntryId := None; selectedSummary := None;
     isLoadingEntries := false; isLoadingSummary := false; error := None;
     suspended := []; calls := [] |}.

(** The first render, then both effects. *)
Definition mount : State := loadSummary (loadHistory first_render).

(** [entries.find((entry) => entry.id === selectedEntryId) ?? null] *)
Definition activeEntry (st : State) : option JournalEntryMeta :=
  match selectedEntryId st with
  | None => None
  | Some selected =>
      find (fun entry => (id entry =? selected)%string) (entries st)
  end.

(** What the page renders beside the list: the loading note, the card of
    the summary titled with the start of the active entry, or the hint to
    select an entry. *)
Inductive Detail : Type :=
| Detail_loading
| Detail_card (summary : Api.SessionSummary) (title_date : DateString)
| Detail_hint.

Definition detail (st : State) : Detail :=
  if isLoadingSummary st then Detail_loading
  else
    match selectedSummary st, activeEntry st with
    | Some summary, Some entry => Detail_card summary (sessionStartedAt entry)
    | _, _ => Detail_hint
    end.

(** The entry carries a start time: its [sessionStartedAt] is a date. *)
Definition dated (e : JournalEntryMeta) : Prop :=
  Date_getTime (sessionStartedAt e) <> None.

(** [a] started no earlier than [b]. *)
Definition started_ge (a b : JournalEntryMeta) : Prop :=
  match Date_getTime (sessionStartedAt a), Date_getTime (sessionStartedAt b) with
  | Some ta, Some tb => tb <= ta
  | _, _ => False
  end.

Definition is_await_fetchJournalHistory (k : Continuation) : bool :=
  match k with await_fetchJournalHistory => true | _ => false end.

Definition is_await_fetchJournalEntry (k : Continuation) : bool :=
  match k with await_fetchJournalEntry _ => true | _ => false end.

(** What holds of the page in every state it reaches. *)
Definition coherent (st : State) : Prop :=
  (List.length (filter is_await_fetchJournalHistory (suspended st)) <= 1)%nat
  /\ (In await_fetchJournalHistory (suspended st) ->
      entries st = [] /\ selectedEntryId st = None)
  /\ (forall selected, selectedEntryId st = Some selected ->
        In selected (map id (entries st)))
  /\ (selectedSummary st <> None -> selectedEntryId st <> None)
  /\ (forall entryId, In (await_fetchJournalEntry entryId) (suspended st) ->
        selectedEntryId st <> None).

End HistoryPage.

(* ================================================================== *)
(** * The history page, step by step *)

Module HistoryScenario.
Import HistoryPage.

Definition monday : JournalEntryMeta :=
  {| id := "j1"; sessionStartedAt := ISODate 1699900000000;
     summary := Some "A walk by the river."%string |}.

Definition tuesday : JournalEntryMeta :=
  {| id := "j2"; sessionStartedAt := ISODate 1700000000000;
     summary := None |}.

Definition of_monday : Api.SessionSummary :=
  Api.Shaped
    {| Api.summary := "You spoke about a walk by the river.";
       Api.tips := ["Walk again tomorrow."%string];
       Api.generatedAt := "2023-11-13T18:30:00.000Z" |}.

Definition of_tuesday : Api.SessionSummary :=
  Api.Shaped
    {| Api.summary := "You spoke about a long day.";
       Api.tips := ["Sleep early."%string];
       Api.generatedAt := "2023-11-14T22:18:21.000Z" |}.

(** The history arrives, oldest entry first. *)
Definition listed : State :=
  step (Settle 0 (Resolved_history [monday; tuesday])) mount.

(** The history request fails instead. *)
Definition unlisted : State :=
  step (Settle 0 (Rejected (ErrorObj "API request failed with status 503")))
    mount.

End HistoryScenario.

(* ================================================================== *)
(** * Properties *)

(** Run a handler segment on a state whose fields are known. *)
Ltac open_handlers :=
  lazy beta iota zeta delta
    [HomePage.handle HomePage.settle
     HomePage.resume HomePage.unpark HomePage.handleSessionStart
     HomePage.handleSessionComplete HomePage.resetSessionState
     HomePage.handleSessionComplete_catch
     HomePage.handleSessionComplete_finally HomePage.call HomePage.suspend
     HomePage.skip HomePage.appendEvent HomePage.stopRecording
     HomePage.closeEventSource HomePage.onmessage HomePage.onerror
     HomePage.ondataavailable
     HomePage.setSessionPhase HomePage.setSessionId HomePage.setEvents
     HomePage.setLocalSummary HomePage.setPersistedSummary
     HomePage.setIsCompleting HomePage.setIsFetchingPersisted
     HomePage.setError HomePage.setEventSourceRef HomePage.setCompletionGuard
     HomePage.setRecorder HomePage.sessionStorage_setItem
     HomePage.setSuspended HomePage.setCalls
     HomePage.sessionPhase HomePage.sessionId HomePage.events
     HomePage.localSummary HomePage.persistedSummary HomePage.isCompleting
     HomePage.isFetchingPersisted HomePage.error HomePage.eventSourceRef
     HomePage.completionGuard HomePage.recorder HomePage.latestJournalSummary
     HomePage.suspended HomePage.calls HomePage.url_sessionId HomePage.closed
     JS.truthy JS.JSON_parse JS.JSON_stringify].

(** Run a whole step, effects included, when the dependencies of the effects
    are known. *)
Ltac open_step :=
  lazy beta iota zeta delta
    [HomePage.step HomePage.commit HomePage.eventStream_cleanup
     HomePage.eventStream_effect HomePage.subscription
     HomePage.rehydration_effect HomePage.cached_text
     HomePage.sessionId_eqb HomePage.phase_eqb Api.summary_changed andb
     HomePage.handle HomePage.settle
     HomePage.resume HomePage.unpark HomePage.handleSessionStart
     HomePage.handleSessionComplete HomePage.resetSessionState
     HomePage.handleSessionComplete_catch
     HomePage.handleSessionComplete_finally HomePage.call HomePage.suspend
     HomePage.skip HomePage.appendEvent HomePage.stopRecording
     HomePage.closeEventSource HomePage.onmessage HomePage.onerror
     HomePage.ondataavailable
     HomePage.setSessionPhase HomePage.setSessionId HomePage.setEvents
     HomePage.setLocalSummary HomePage.setPersistedSummary
     HomePage.setIsCompleting HomePage.setIsFetchingPersisted
     HomePage.setError HomePage.setEventSourceRef HomePage.setCompletionGuard
     HomePage.setRecorder HomePage.sessionStorage_setItem
     HomePage.setSuspended HomePage.setCalls
     HomePage.sessionPhase HomePage.sessionId HomePage.events
     HomePage.localSummary HomePage.persistedSummary HomePage.isCompleting
     HomePage.isFetchingPersisted HomePage.error HomePage.eventSourceRef
     HomePage.completionGuard HomePage.recorder HomePage.latestJournalSummary
     HomePage.suspended HomePage.calls HomePage.url_sessionId HomePage.closed
     JS.truthy JS.JSON_parse JS.JSON_stringify].

(** ** The event log: one entry per id, oldest first *)

Section ArraySortFacts.
Context {A : Type} (comparefn : A -> A -> option Z).

Lemma insert_Permutation (x : A) (l : list A) :
  Permutation (insert comparefn x l) (x :: l).
Proof.
  induction l as [|y rest IH]; simpl.
  - apply Permutation_refl.
  - destruct (0 <? SortCompare comparefn x y).
    + apply perm_trans with (y :: x :: rest).
      * now apply perm_skip.
      * apply perm_swap.
    + apply Permutation_refl.
Qed.

Lemma Array_sort_Permutation (l : list A) :
  Permutation (Array_sort comparefn l) l.
Proof.
  induction l as [|x rest IH]; simpl.
  - apply perm_nil.
  - apply perm_trans with (x :: Array_sort comparefn rest).
    + apply insert_Permutation.
    + now apply perm_skip.
Qed.

End ArraySortFacts.

Section EventLogFacts.
Import Api EventLog.

Lemma createdAt_le_trans (a b c : PromptEvent) :
  createdAt_le a b -> createdAt_le b c -> createdAt_le a c.
Proof.
  unfold createdAt_le.
  destruct (Date_getTime (createdAt a)), (Date_getTime (createdAt b)),
    (Date_getTime (createdAt c)); try tauto; lia.
Qed.

(** With two dated events the comparator decides who was created first. *)
Lemma byCreatedAt_spec (x y : PromptEvent) :
  timestamped x -> timestamped y ->
  if 0 <? SortCompare byCreatedAt x y
  then createdAt_le y x
  else createdAt_le x y.
Proof.
  unfold timestamped, SortCompare, byCreatedAt, createdAt_le.
  destruct (Date_getTime (createdAt x)) as [tx|]; [|congruence].
  destruct (Date_getTime (createdAt y)) as [ty|]; [|congruence].
  intros _ _. destruct (Z.ltb_spec 0 (tx - ty)); lia.
Qed.

Lemma insert_sorted (x : PromptEvent) (l : list PromptEvent) :
  timestamped x -> Forall timestamped l ->
  StronglySorted createdAt_le l ->
  StronglySorted createdAt_le (insert byCreatedAt x l).
Proof.
  intros Hx Hl Hs.
  induction Hs as [|y rest Hrest IH Hy]; simpl.
  - constructor; constructor.
  - inversion Hl as [|? ? Hty Htrest]; subst.
    pose proof (byCreatedAt_spec x y Hx Hty) as Hcmp.
    destruct (0 <? SortCompare byCreatedAt x y).
    + constructor; [now apply IH|].
      apply (Permutation_Forall
               (Permutation_sym (insert_Permutation byCreatedAt x rest))).
      now constructor.
    + constructor; [now constructor|].
      constructor; [exact Hcmp|].
      eapply Forall_impl; [|exact Hy].
      intros z Hz. exact (createdAt_le_trans x y z Hcmp Hz).
Qed.

Lemma Array_sort_sorted (l : list PromptEvent) :
  Forall timestamped l ->
  StronglySorted createdAt_le (Array_sort byCreatedAt l).
Proof.
  induction 1 as [|x rest Hx Hrest IH]; simpl.
  - constructor.
  - apply insert_sorted; trivial.
    apply (Permutation_Forall
             (Permutation_sym (Array_sort_Permutation byCreatedAt rest))).
    exact Hrest.
Qed.

Lemma known_id (incoming : PromptEvent) (prev : list PromptEvent) :
  existsb (fun event => (id event =? id incoming)%string) prev = true
  <-> In (id incoming) (ids prev).
Proof.
  unfold ids. rewrite existsb_exists, in_map_iff.
  split; intros [e [H1 H2]]; exists e.
  - apply String.eqb_eq in H2. auto.
  - split; [exact H2|]. apply String.eqb_eq. exact H1.
Qed.

(** A delivery whose id is in the log changes nothing. *)
Lemma appendEvent_duplicate (incoming : PromptEvent) (prev : list PromptEvent) :
  In (id incoming) (ids prev) -> appendEvent incoming prev = prev.
Proof.
  intros H. apply known_id in H. unfold appendEvent. now rewrite H.
Qed.

(** A delivery whose id is new puts the event in, and nothing goes out. *)
Lemma appendEvent_fresh (incoming : PromptEvent) (prev : list PromptEvent) :
  ~ In (id incoming) (ids prev) ->
  Permutation (appendEvent incoming prev) (incoming :: prev).
Proof.
  intros H. unfold appendEvent.
  destruct (existsb _ prev) eqn:E.
  - apply known_id in E. contradiction.
  - apply perm_trans with (prev ++ [incoming]).
    + apply Array_sort_Permutation.
    + apply Permutation_sym, Permutation_cons_append.
Qed.

Lemma appendEvent_NoDup (incoming : PromptEvent) (prev : list PromptEvent) :
  NoDup (ids prev) -> NoDup (ids (appendEvent incoming prev)).
Proof.
  intros Hnd.
  destruct (in_dec string_dec (id incoming) (ids prev)) as [Hin|Hout].
  - now rewrite appendEvent_duplicate.
  - apply (Permutation_NoDup
             (Permutation_sym
                (Permutation_map id (appendEvent_fresh incoming prev Hout)))).
    simpl. now constructor.
Qed.

Lemma appendEvent_timestamped (incoming : PromptEvent) (prev : list PromptEvent) :
  timestamped incoming -> Forall timestamped prev ->
  Forall timestamped (appendEvent incoming prev).
Proof.
  intros Hi Hp.
  destruct (in_dec string_dec (id incoming) (ids prev)) as [Hin|Hout].
  - now rewrite appendEvent_duplicate.
  - apply (Permutation_Forall
             (Permutation_sym (appendEvent_fresh incoming prev Hout))).
    now constructor.
Qed.

Lemma appendEvent_sorted (incoming : PromptEvent) (prev : list PromptEvent) :
  timestamped incoming -> Forall timestamped prev ->
  StronglySorted createdAt_le prev ->
  StronglySorted createdAt_le (appendEvent incoming prev).
Proof.
  intros Hi Hp Hs. unfold appendEvent.
  destruct (existsb _ prev); [exact Hs|].
  apply Array_sort_sorted, Forall_app. split; [exact Hp|]. now constructor.
Qed.

Lemma appendEvent_keeps (incoming : PromptEvent) (prev : list PromptEvent) :
  In (id incoming) (ids (appendEvent incoming prev))
  /\ incl (ids prev) (ids (appendEvent incoming prev)).
Proof.
  destruct (in_dec string_dec (id incoming) (ids prev)) as [Hin|Hout].
  - rewrite appendEvent_duplicate by exact Hin. split; [exact Hin|apply incl_refl].
  - pose proof (Permutation_map id (appendEvent_fresh incoming prev Hout)) as P.
    split.
    + apply (Permutation_in _ (Permutation_sym P)). now left.
    + intros i Hi. apply (Permutation_in _ (Permutation_sym P)). now right.
Qed.

(** What holds of the log after any run of deliveries. *)
Lemma admitAll_invariant (arrivals : list PromptEvent) :
  Forall timestamped arrivals ->
  NoDup (ids (admitAll arrivals))
  /\ Forall timestamped (admitAll arrivals)
  /\ StronglySorted createdAt_le (admitAll arrivals)
  /\ incl (map id arrivals) (ids (admitAll arrivals)).
Proof.
  unfold admitAll.
  induction arrivals as [|incoming rest IH] using rev_ind; intros Hall.
  - simpl. split; [constructor|]. split; [constructor|].
    split; [constructor|]. apply incl_refl.
  - apply Forall_app in Hall as [Hrest Hlast].
    inversion Hlast as [|? ? Hi _]; subst.
    destruct (IH Hrest) as (Hnd & Hts & Hs & Hin).
    rewrite fold_left_app. simpl.
    split; [|split; [|split]].
    + now apply appendEvent_NoDup.
    + now apply appendEvent_timestamped.
    + now apply appendEvent_sorted.
    + rewrite map_app. simpl. apply incl_app.
      * eapply incl_tran; [exact Hin|].
        exact (proj2 (appendEvent_keeps incoming _)).
      * intros i [<-|[]]. exact (proj1 (appendEvent_keeps incoming _)).
Qed.

(** What holds of the log after any run of deliveries, dated or not. *)
Lemma admitAll_unique (arrivals : list PromptEvent) :
  NoDup (ids (admitAll arrivals))
  /\ incl (map id arrivals) (ids (admitAll arrivals)).
Proof.
  unfold admitAll.
  induction arrivals as [|incoming rest IH] using rev_ind.
  - simpl. split; [constructor|apply incl_refl].
  - destruct IH as (Hnd & Hin).
    rewrite fold_left_app. simpl. split.
    + now apply appendEvent_NoDup.
    + rewrite map_app. simpl. apply incl_app.
      * eapply incl_tran; [exact Hin|].
        exact (proj2 (appendEvent_keeps incoming _)).
      * intros i [<-|[]]. exact (proj1 (appendEvent_keeps incoming _)).
Qed.

(** C2, as the code has it.  Whatever the order of arrival and however
    often an event is delivered again, after each admission the log holds
    every admitted id exactly once, and a delivery whose id it already holds
    leaves it as it is.  The log is in ascending order of creation time
    after each admission as long as every event admitted so far carries a
    creation time that parses to a date: the comparator answers [NaN] for an
    event whose [createdAt] does not parse, and the sort then leaves events
    where they are. *)
Theorem event_log_unique_and_ordered :
  forall (arrivals : list PromptEvent) (n : nat),
    let log := admitAll (firstn n arrivals) in
    NoDup (ids log)
    /\ incl (map id (firstn n arrivals)) (ids log)
    /\ (forall incoming,
          In (id incoming) (ids log) -> appendEvent incoming log = log)
    /\ (Forall timestamped (firstn n arrivals) ->
        StronglySorted createdAt_le log).
Proof.
  intros arrivals n log.
  destruct (admitAll_unique (firstn n arrivals)) as (Hnd & Hin).
  split; [exact Hnd|]. split; [exact Hin|]. split.
  - intros incoming. apply appendEvent_duplicate.
  - intros Hn. now destruct (admitAll_invariant _ Hn) as (_ & _ & Hs & _).
Qed.

End EventLogFacts.

(** ** The countdown timer *)

Section SessionTimerFacts.
Import SessionTimer.

Lemma arm_ticking (D t0 : Z) : ticking D t0 (arm t0 (mount D)).
Proof.
  unfold ticking, arm, mount, step, render, effect, cleanup. simpl.
  rewrite Z.eqb_refl. simpl.
  repeat split. exists 0%nat. split; reflexivity.
Qed.

Lemma frame_early (D t0 now : Z) (t : Timer) :
  ticking D t0 t -> now - t0 < D -> ticking D t0 (frame now t).
Proof.
  intros (HD & Hrun & Hst & Hex & h & Hsch & Haf) Hlt.
  destruct t as [d r rem st af sch nh ex]; simpl in *; subst.
  unfold ticking, frame, tick; simpl.
  match goal with
  | |- context [?a =? 0] => destruct (Z.eqb_spec a 0) as [E|E]; [lia|]
  end.
  simpl. repeat split. exists nh. split; reflexivity.
Qed.

Lemma frame_due (D t0 now : Z) (t : Timer) :
  ticking D t0 t -> D <= now - t0 ->
  expiries (frame now t) = [now] /\ scheduled (frame now t) = []
  /\ remainingMs (frame now t) = 0.
Proof.
  intros (HD & Hrun & Hst & Hex & h & Hsch & Haf) Hge.
  destruct t as [d r rem st af sch nh ex]; simpl in *; subst.
  unfold frame, tick; simpl.
  match goal with
  | |- context [?a =? 0] => destruct (Z.eqb_spec a 0) as [E|E]; [|lia]
  end.
  simpl. rewrite E. repeat split.
Qed.

Lemma frames_early (D t0 : Z) (early : list Z) (t : Timer) :
  ticking D t0 t -> Forall (fun now => now - t0 < D) early ->
  ticking D t0 (run (map Frame early) t).
Proof.
  intros Ht Hall. revert t Ht.
  induction Hall as [|now rest Hnow _ IH]; intros t Ht; simpl.
  - exact Ht.
  - apply IH. now apply frame_early.
Qed.

(** With nothing requested, frames pass without effect. *)
Lemma frames_idle (later : list Z) (t : Timer) :
  scheduled t = [] -> run (map Frame later) t = t.
Proof.
  intros Hs. induction later as [|now rest IH]; simpl; [reflexivity|].
  assert (E : frame now t = t).
  { destruct t; simpl in *; subst. reflexivity. }
  rewrite E. exact IH.
Qed.

Lemma disarm_silent (D t0 : Z) (ev : SessionTimer.Event) (t : Timer) :
  ticking D t0 t -> disarms ev ->
  scheduled (step ev t) = [] /\ expiries (step ev t) = [].
Proof.
  intros (HD & Hrun & Hst & Hex & h & Hsch & Haf) Hoff.
  destruct t as [d r rem st af sch nh ex]; simpl in *; subst.
  destruct ev as [d' [|] b clock | now | ]; simpl in Hoff; try contradiction.
  - unfold step, render, cleanup, effect; simpl.
    rewrite !orb_true_r; simpl. rewrite Nat.eqb_refl. simpl. split; reflexivity.
  - unfold step, cleanup; simpl. rewrite Nat.eqb_refl. simpl. split; reflexivity.
Qed.

(** A render that passes the props of the render before it runs no effect:
    the parent may re-render as often as it likes. *)
Lemma rerender_same_props (clock : Z) (t : Timer) :
  step (Render (durationMs t) (isRunning t) false clock) t = t.
Proof.
  destruct t as [d r rem st af sch nh ex]. unfold step, render. simpl.
  rewrite Z.eqb_refl, Bool.eqb_reflx. reflexivity.
Qed.

(** C8. A timer armed for [D] at time [t0]:
    - taken out of service before a frame has seen the remaining time at
      zero, it never calls [onExpire], whatever frames the browser still
      runs;
    - left alone, it calls [onExpire] exactly once, in the first frame whose
      elapsed time is at least [D], and requests no frame after that;
    - until such a frame comes it has not called [onExpire] and keeps one
      frame requested. *)
Theorem countdown_fires_once_unless_disarmed :
  forall (D t0 : Z),
    let armed := arm t0 (mount D) in
    (forall (early later : list Z) (off : SessionTimer.Event),
        Forall (fun now => now - t0 < D) early ->
        disarms off ->
        expiries
          (run (map Frame later) (step off (run (map Frame early) armed))) = [])
    /\ (forall (early later : list Z) (now : Z),
          Forall (fun n => n - t0 < D) early ->
          D <= now - t0 ->
          let t := run (map Frame (early ++ now :: later)) armed in
          expiries t = [now] /\ scheduled t = [] /\ remainingMs t = 0)
    /\ (forall (early : list Z),
          Forall (fun n => n - t0 < D) early ->
          let t := run (map Frame early) armed in
          expiries t = [] /\ List.length (scheduled t) = 1%nat).
Proof.
  intros D t0 armed.
  pose proof (arm_ticking D t0) as Harmed. fold armed in Harmed.
  split; [|split].
  - intros early later off Hearly Hoff.
    pose proof (frames_early D t0 early armed Harmed Hearly) as Ht.
    destruct (disarm_silent D t0 off _ Ht Hoff) as [Hs He].
    rewrite frames_idle by exact Hs. exact He.
  - intros early later now Hearly Hdue t. subst t.
    rewrite map_app. unfold run. rewrite fold_left_app. simpl.
    pose proof (frames_early D t0 early armed Harmed Hearly) as Ht.
    destruct (frame_due D t0 now _ Ht Hdue) as (He & Hs & Hr).
    fold (run (map Frame early) armed).
    fold (run (map Frame later) (frame now (run (map Frame early) armed))).
    rewrite frames_idle by exact Hs. auto.
  - intros early Hearly t. subst t.
    destruct (frames_early D t0 early armed Harmed Hearly)
      as (_ & _ & _ & Hex & h & Hsch & _).
    rewrite Hsch. auto.
Qed.

End SessionTimerFacts.

(** ** The capture hook: sequence numbers *)

Section AudioRecorderFacts.
Import AudioRecorder.
Context {Sink : Type}.

Lemma set_inactive_cons (r : MediaRecorder Sink) (l : list (MediaRecorder Sink))
  (k : nat) :
  set_inactive (S k) (r :: l) = r :: set_inactive k l.
Proof. reflexivity. Qed.

(** Stopping a recorder does not change which sink any listener calls. *)
Lemma set_inactive_onChunk (l : list (MediaRecorder Sink)) (k rec : nat) :
  option_map onChunk (nth_error (set_inactive k l) rec)
  = option_map onChunk (nth_error l rec).
Proof.
  revert k rec. induction l as [|r l IH]; intros k rec.
  - destruct k, rec; reflexivity.
  - destruct k as [|k].
    + destruct rec; reflexivity.
    + rewrite set_inactive_cons. destruct rec as [|rec]; simpl; [reflexivity|].
      apply IH.
Qed.

(** [start] adds a recorder behind the ones that are there. *)
Lemma start_resolved_onChunk (sink : Sink) (constructor_throws : option Thrown)
  (h : Hook Sink) (rec : nat) (known : Sink) :
  option_map onChunk (nth_error (recorders h) rec) = Some known ->
  option_map onChunk
    (nth_error (recorders (start_resolved sink constructor_throws h)) rec)
  = Some known.
Proof.
  intros H. destruct constructor_throws; simpl; [exact H|].
  destruct (nth_error (recorders h) rec) as [r|] eqn:E; [|discriminate].
  rewrite nth_error_app1 by (apply nth_error_Some; congruence).
  now rewrite E.
Qed.

(** Every event leaves the sinks of the listeners that are there alone. *)
Lemma step_onChunk (ev : AudioRecorder.Event Sink) (h : Hook Sink) (rec : nat)
  (known : Sink) :
  option_map onChunk (nth_error (recorders h) rec) = Some known ->
  option_map onChunk (nth_error (recorders (step ev h)) rec) = Some known.
Proof.
  intros H. destruct ev as [rec' blob| | |rec'|sink c|err]; simpl.
  - unfold dataavailable.
    destruct (nth_error (recorders h) rec'); [|exact H].
    destruct (0 <? size blob)%N; exact H.
  - exact H.
  - unfold stop. destruct (mediaRecorderRef h) as [k|]; [|exact H].
    destruct (option_map state (nth_error (recorders h) k)) as [[|]|];
      try exact H.
    simpl. now rewrite set_inactive_onChunk.
  - unfold stopped. destruct (nth_error (recorders h) rec'); [|exact H].
    simpl. now rewrite set_inactive_onChunk.
  - now apply start_resolved_onChunk.
  - exact H.
Qed.

(** One chunk with data: the counter goes up by one and the sink is called
    with the new value.  One empty chunk: nothing happens. *)
Lemma dataavailable_spec (rec : nat) (blob : Blob) (h : Hook Sink)
  (r : MediaRecorder Sink) :
  nth_error (recorders h) rec = Some r ->
  if (0 <? size blob)%N
  then chunkSequenceRef (dataavailable rec blob h) = S (chunkSequenceRef h)
       /\ onChunkCalls (dataavailable rec blob h)
          = onChunkCalls h
            ++ [{| from := rec; to := onChunk r; data := blob;
                   sequence := S (chunkSequenceRef h) |}]
  else dataavailable rec blob h = h.
Proof.
  intros Hr. unfold dataavailable. rewrite Hr.
  destruct (0 <? size blob)%N; simpl; auto.
Qed.

Lemma run_sequence (evs : list (AudioRecorder.Event Sink)) :
  forall (h : Hook Sink) (rec : nat) (sink : Sink),
    option_map onChunk (nth_error (recorders h) rec) = Some sink ->
    only_from rec evs ->
    no_further_recorder evs ->
    exists new,
      onChunkCalls (run evs h) = onChunkCalls h ++ new
      /\ map sequence new = seq (S (chunkSequenceRef h)) (delivered evs)
      /\ Forall (fun c => from c = rec /\ to c = sink) new
      /\ chunkSequenceRef (run evs h)
         = (chunkSequenceRef h + delivered evs)%nat.
Proof.
  induction evs as [|ev evs IH]; intros h rec sink Hsink Honly Hnone.
  - exists []. simpl. rewrite app_nil_r, Nat.add_0_r. auto.
  - inversion Honly as [|? ? Hev Hrest]; subst.
    inversion Hnone as [|? ? Hev' Hrest']; subst.
    pose proof (step_onChunk ev h rec sink Hsink) as Hsink'.
    destruct (IH (step ev h) rec sink Hsink' Hrest Hrest')
      as (new & Hcalls & Hseq & Hfrom & Hcount).
    change (run (ev :: evs) h) with (run evs (step ev h)).
    destruct ev as [rec' blob| | |rec'|sink' [thrown|]|err].
    + simpl in Hev. subst rec'.
      destruct (nth_error (recorders h) rec) as [r|] eqn:Hr; [|discriminate].
      pose proof (dataavailable_spec rec blob h r Hr) as Hd.
      unfold delivered in *. simpl in *.
      destruct (0 <? size blob)%N.
      * destruct Hd as [Hc Hl]. rewrite Hc, Hl in *.
        eexists. split; [rewrite Hcalls, <- app_assoc; reflexivity|].
        simpl. split; [now rewrite Hseq|]. split.
        -- constructor; [|exact Hfrom]. simpl. split; [reflexivity|].
           injection Hsink as ->. reflexivity.
        -- rewrite Hcount. simpl. lia.
      * rewrite Hd in *. exists new. auto.
    + exists new. auto.
    + exists new. unfold delivered in *. simpl in *.
      assert (E : onChunkCalls (stop h) = onChunkCalls h
                  /\ chunkSequenceRef (stop h) = chunkSequenceRef h).
      { unfold stop. destruct (mediaRecorderRef h); [|auto].
        destruct (option_map state (nth_error (recorders h) n)) as [[|]|];
          auto. }
      destruct E as [E1 E2]. rewrite E1, E2 in *. auto.
    + exists new. unfold delivered in *. simpl in *.
      assert (E : onChunkCalls (stopped rec' h) = onChunkCalls h
                  /\ chunkSequenceRef (stopped rec' h) = chunkSequenceRef h).
      { unfold stopped. destruct (nth_error (recorders h) rec'); auto. }
      destruct E as [E1 E2]. rewrite E1, E2 in *. auto.
    + exists new. auto.
    + contradiction.
    + exists new. auto.
Qed.

(** C7, as the code has it.  From the moment [start] has set up a recorder,
    as long as no further [start] sets up another one and that recorder is
    the only one producing data, the sequence numbers handed to the sink are
    1, 2, 3, ... in this order, one per chunk that has data: [start] leaves
    the counter at 0, each such chunk raises it by one in the listener
    before the sink is called, and neither empty chunks, nor rejected
    uploads, nor [stop], nor a [start] that fails touch it.  The counter is
    one for the whole hook: every [start] that sets up a recorder puts it
    back to 0, whatever the recorders before are doing. *)
Theorem chunk_sequence_is_1_2_3 :
  forall (sink : Sink) (h : Hook Sink)
         (evs : list (AudioRecorder.Event Sink)),
    let rec := List.length (recorders h) in
    let started := start_resolved sink None h in
    only_from rec evs ->
    no_further_recorder evs ->
    chunkSequenceRef started = 0%nat
    /\ mediaRecorderRef started = Some rec
    /\ (exists new,
          onChunkCalls (run evs started) = onChunkCalls h ++ new
          /\ map sequence new = seq 1 (delivered evs)
          /\ Forall (fun c => from c = rec /\ to c = sink) new)
    /\ chunkSequenceRef (run evs started) = delivered evs
    /\ (forall other,
          chunkSequenceRef (start_resolved other None (run evs started))
          = 0%nat
          /\ recorders (start_resolved other None (run evs started))
             = recorders (run evs started)
               ++ [{| state := recording; onChunk := other |}]).
Proof.
  intros sink h evs rec started Honly Hnone.
  assert (Hsink :
            option_map onChunk (nth_error (recorders started) rec) = Some sink).
  { unfold started, start_resolved, rec. simpl.
    rewrite nth_error_app2, Nat.sub_diag by apply Nat.le_refl. reflexivity. }
  destruct (run_sequence evs started rec sink Hsink Honly Hnone)
    as (new & Hcalls & Hseq & Hfrom & Hcount).
  split; [reflexivity|]. split; [reflexivity|]. split.
  - exists new. auto.
  - split; [exact Hcount|]. intros other. split; reflexivity.
Qed.

End AudioRecorderFacts.

(** ** The orchestrator *)

Section HomePageFacts.
Import Api HomePage.

Lemma sessionId_eqb_refl (a : option string) : sessionId_eqb a a = true.
Proof. destruct a; simpl; [apply String.eqb_refl|reflexivity]. Qed.

Lemma phase_eqb_refl (a : SessionPhase) : phase_eqb a a = true.
Proof. destruct a; reflexivity. Qed.

Lemma JSON_eqb_refl : forall value : JSON, JSON_eqb value value = true.
Proof.
  fix IH 1. intros [ |b|n|s|elements|members]; simpl.
  - reflexivity.
  - apply Bool.eqb_reflx.
  - apply Z.eqb_refl.
  - apply String.eqb_refl.
  - induction elements as [|x elements IHl]; [reflexivity|].
    rewrite (IH x). exact IHl.
  - induction members as [|[k x] members IHl]; [reflexivity|].
    rewrite String.eqb_refl, (IH x). exact IHl.
Qed.

Lemma SessionSummary_eqb_refl (x : SessionSummary) :
  SessionSummary_eqb x x = true.
Proof.
  destruct x as [x|v]; simpl.
  - rewrite !String.eqb_refl.
    destruct (list_eq_dec string_dec (tips x) (tips x)); [reflexivity|].
    contradiction.
  - destruct v as [ |sign m|c r|elements|members]; simpl.
    + reflexivity.
    + now rewrite Bool.eqb_reflx, Pos.eqb_refl.
    + now rewrite Ascii.eqb_refl, String.eqb_refl.
    + exact (JSON_eqb_refl (JSON_array elements)).
    + exact (JSON_eqb_refl (JSON_object members)).
Qed.

Lemma summary_changed_refl (a : option SessionSummary) :
  summary_changed a a = false.
Proof.
  destruct a as [x|]; simpl; [|reflexivity].
  now rewrite SessionSummary_eqb_refl.
Qed.

(** A render that changed no dependency runs no effect. *)
Lemma commit_same_deps (before st : State) :
  sessionId st = sessionId before ->
  sessionPhase st = sessionPhase before ->
  localSummary st = localSummary before ->
  commit before st = st.
Proof.
  intros H1 H2 H3. unfold commit.
  rewrite H1, H2, sessionId_eqb_refl, phase_eqb_refl. simpl.
  rewrite H3, summary_changed_refl. reflexivity.
Qed.

Lemma commit_unchanged (st : State) : commit st st = st.
Proof. now apply commit_same_deps. Qed.

(** Taking the last parked continuation out again. *)
Lemma unpark_last {A : Type} (l : list A) (x : A) :
  nth_error (l ++ [x]) (List.length l) = Some x
  /\ firstn (List.length l) (l ++ [x]) ++ skipn (S (List.length l)) (l ++ [x])
     = l.
Proof.
  split.
  - rewrite nth_error_app2, Nat.sub_diag by apply Nat.le_refl. reflexivity.
  - rewrite skipn_all2 by (rewrite length_app; simpl; lia).
    rewrite firstn_app, firstn_all, Nat.sub_diag. simpl.
    now rewrite !app_nil_r.
Qed.

(** C10. [handleSessionComplete] called while no session identifier is
    recorded does nothing at all: the guard is not taken, no call leaves the
    page, and phase, log, summaries and error are what they were.  This holds
    for the closure that captured [null], for the event that invokes it, and
    for the timer's [onExpire] in any render whose [sessionId] is [null]. *)
Theorem complete_without_session_is_noop :
  forall (st : State),
    handleSessionComplete None st = st
    /\ step (Invoke_handleSessionComplete None) st = st
    /\ (sessionId st = None -> step Timer_onExpire st = st).
Proof.
  intros st. split; [reflexivity|]. split.
  - unfold step. simpl. apply commit_unchanged.
  - intros Hsid. unfold step. simpl. rewrite Hsid.
    destruct (sessionPhase st); apply commit_unchanged.
Qed.

(** C9, as the code has it.  The rehydration effect takes what is cached as
    local summary only if there is none in memory: a local summary that is
    present stays, with the rest of the state; and whenever the effect
    changes the local summary, there was none and the new one is the cached
    value.  A cached text that [JSON.parse] rejects is dropped with a console
    message and the state is otherwise as before.  But a cached text that
    parses is adopted as it is, whatever it encodes: nothing checks its
    shape, so a value that [SummaryCard] cannot render becomes the local
    summary like any other; only a falsy value leaves the page without
    one. *)
Theorem rehydration_never_overwrites :
  forall (st : State),
    (forall present, localSummary st = Some present ->
                     rehydration_effect st = st)
    /\ (forall parsed, localSummary st = None ->
                       latestJournalSummary st = Some (Encodes parsed) ->
                       rehydration_effect st = setLocalSummary parsed st)
    /\ (forall raw, localSummary st = None ->
                    latestJournalSummary st = Some (Unparsable raw) ->
                    rehydration_effect st
                    = if (raw =? "")%string then st
                      else call Call_console_error st)
    /\ (latestJournalSummary st = None -> rehydration_effect st = st)
    /\ (localSummary (rehydration_effect st) <> localSummary st ->
        localSummary st = None
        /\ exists v, latestJournalSummary st = Some (Encodes (Some v))
                     /\ localSummary (rehydration_effect st) = Some v)
    /\ (forall v, localSummary st = None ->
                  latestJournalSummary st = Some (Encodes (Some v)) ->
                  localSummary (rehydration_effect st) = Some v
                  /\ calls (rehydration_effect st) = calls st
                  /\ (persistedSummary st = None ->
                      page_renders (rehydration_effect st)
                      = SummaryCard.renders v)).
Proof.
  intros st. unfold rehydration_effect, cached_text.
  split; [|split; [|split; [|split; [|split]]]].
  - intros present H. rewrite H.
    destruct (latestJournalSummary st) as [[v|[|c raw]]|]; reflexivity.
  - intros v H1 H2. rewrite H1, H2. reflexivity.
  - intros raw H1 H2. rewrite H1, H2. destruct raw; reflexivity.
  - intros H. rewrite H. reflexivity.
  - destruct (latestJournalSummary st) as [[[v|]|[|c raw]]|] eqn:Hc;
      destruct (localSummary st) as [present|] eqn:Hl; simpl;
      rewrite ?Hl; try congruence.
    intros _. split; [reflexivity|]. exists v. auto.
  - intros v H1 H2. rewrite H1, H2. cbn [JSON_parse].
    unfold page_renders, displayedSummary.
    destruct st; simpl in *. repeat split. intros ->. reflexivity.
Qed.

End HomePageFacts.

Section SessionStartFacts.
Import Api HomePage.

(** A render in which session and phase are what they were runs at most the
    rehydration effect. *)
Lemma commit_same_session (before st : State) :
  sessionId st = sessionId before ->
  sessionPhase st = sessionPhase before ->
  commit before st
  = if summary_changed (localSummary before) (localSummary st)
    then rehydration_effect st
    else st.
Proof.
  intros H1 H2. unfold commit.
  rewrite H1, H2, sessionId_eqb_refl, phase_eqb_refl. reflexivity.
Qed.

Lemma rehydration_present (st : State) (present : SessionSummary) :
  localSummary st = Some present -> rehydration_effect st = st.
Proof.
  intros H. unfold rehydration_effect. rewrite H.
  now destruct (cached_text st).
Qed.

(** The state one click on Start leaves behind, field by field. *)
Lemma click_start_state (st : State) :
  sessionPhase st <> running ->
  step Click_Start st
  = {| sessionPhase := sessionPhase st; sessionId := None; events := [];
       localSummary := rehydrated_after_reset st; persistedSummary := None;
       isCompleting := false; isFetchingPersisted := false; error := None;
       eventSourceRef := eventSourceRef st; completionGuard := false;
       recorder := recorder st;
       latestJournalSummary := latestJournalSummary st;
       suspended := suspended st ++ [await_startSession (sessionId st)];
       calls := calls st ++ Call_startSession :: console_after_reset st |}.
Proof.
  intros Hphase.
  destruct st as [ph sid evs ls ps ic ifp er esr g rc cache susp cs].
  simpl in Hphase.
  unfold rehydrated_after_reset, console_after_reset.
  destruct ph; try congruence; destruct sid as [sid|];
    destruct ls as [ls|]; destruct cache as [[v|[|c raw]]|];
    open_step; rewrite <- ?(app_assoc cs); reflexivity.
Qed.

(** The state left when the session-start call fails while the page is not
    in a running session. *)
Lemma start_rejected_state (st : State) (k : nat) (onChunk : option string)
  (err : Thrown) :
  sessionPhase st <> running ->
  nth_error (suspended st) k = Some (await_startSession onChunk) ->
  step (Settle k (Rejected err)) st
  = {| sessionPhase := idle; sessionId := None; events := events st;
       localSummary := localSummary st;
       persistedSummary := persistedSummary st;
       isCompleting := isCompleting st;
       isFetchingPersisted := isFetchingPersisted st;
       error := Some (message_or err "Unable to start session");
       eventSourceRef := eventSourceRef st;
       completionGuard := completionGuard st; recorder := recorder st;
       latestJournalSummary := latestJournalSummary st;
       suspended := firstn k (suspended st) ++ skipn (S k) (suspended st);
       calls := calls st ++ [Call_console_error] |}.
Proof.
  intros Hphase Hk.
  destruct st as [ph id evs ls ps ic ifp er esr g rc cache susp cs].
  simpl in Hphase, Hk. unfold step, handle, settle. simpl suspended.
  rewrite Hk.
  destruct ph; try congruence; destruct id as [id|]; open_step;
    fold (summary_changed ls ls); rewrite summary_changed_refl; reflexivity.
Qed.

(** C5. When the remote session-start call fails, the transition is
    abandoned as a whole: the phase is [idle], the session identifier is
    cleared and the failure's message is in the error state; in no state the
    page passes through is the timer running; and apart from the start call
    itself only console messages leave the page, so the microphone is never
    asked for, no recorder is made and no event stream is opened. *)
Theorem failed_session_start_aborts :
  forall (st : State) (err : Thrown),
    sessionPhase st <> running ->
    let clicked := step Click_Start st in
    let failed :=
      step (Settle (List.length (suspended st)) (Rejected err)) clicked in
    timer_isRunning clicked = false
    /\ timer_isRunning failed = false
    /\ sessionPhase failed = idle
    /\ sessionId failed = None
    /\ error failed = Some (message_or err "Unable to start session")
    /\ calls failed
       = calls st
         ++ Call_startSession
            :: console_after_reset st ++ [Call_console_error]
    /\ recorder failed = recorder st
    /\ eventSourceRef failed = eventSourceRef st
    /\ suspended failed = suspended st.
Proof.
  intros st err Hphase clicked failed.
  pose proof (click_start_state st Hphase) as Hclicked. fold clicked in Hclicked.
  destruct (unpark_last (suspended st) (await_startSession (sessionId st)))
    as [Hnth Hrest].
  assert (Hphase' : sessionPhase clicked <> running)
    by (rewrite Hclicked; exact Hphase).
  assert (Hk : nth_error (suspended clicked) (List.length (suspended st))
               = Some (await_startSession (sessionId st)))
    by (rewrite Hclicked; exact Hnth).
  pose proof (start_rejected_state clicked _ _ err Hphase' Hk) as Hfailed.
  fold failed in Hfailed.
  split.
  { unfold timer_isRunning. rewrite Hclicked. simpl.
    destruct (sessionPhase st); simpl; congruence. }
  rewrite Hfailed. unfold timer_isRunning.
  cbn [sessionPhase sessionId error calls recorder eventSourceRef suspended
       phase_eqb].
  rewrite Hclicked.
  cbn [sessionPhase sessionId error calls recorder eventSourceRef suspended].
  rewrite Hrest, <- app_assoc. repeat split.
Qed.

(** Whatever was in memory, a click on Start brings back the summary the cache
    holds as soon as the reset has emptied the local one. *)
Lemma reset_rehydrates (st : State) (old cached : SessionSummary) :
  sessionPhase st <> running ->
  localSummary st = Some old ->
  latestJournalSummary st = Some (Encodes (Some cached)) ->
  localSummary (step Click_Start st) = Some cached
  /\ displayedSummary (step Click_Start st) = Some cached.
Proof.
  intros Hphase Hold Hcache. rewrite (click_start_state st Hphase).
  unfold displayedSummary, rehydrated_after_reset, cached_text. simpl.
  rewrite Hold, Hcache. split; reflexivity.
Qed.

(** When the microphone is refused, only the recorder hook learns of it:
    phase, session identifier and the page's own error stay as they are. *)
Lemma getUserMedia_rejected_state (st : State) (k : nat)
  (onChunk : option string) (err : Thrown) :
  nth_error (suspended st) k = Some (await_getUserMedia onChunk) ->
  step (Settle k (Rejected err)) st
  = setRecorder (AudioRecorder.start_rejected err (recorder st)) (unpark k st).
Proof.
  intros Hk. unfold step, handle, settle. rewrite Hk. cbn [resume].
  apply commit_same_deps; reflexivity.
Qed.

End SessionStartFacts.

Section SessionCompleteFacts.
Import Api HomePage.

(** The state left when the finalize call answers with a summary. *)
Lemma finalize_resolved_state (st : State) (k : nat) (sid : string)
  (s : SessionSummary) :
  nth_error (suspended st) k = Some (await_completeSession sid) ->
  step (Settle k (Resolved_SessionSummary s)) st
  = {| sessionPhase := sessionPhase st; sessionId := sessionId st;
       events := events st; localSummary := Some s;
       persistedSummary := persistedSummary st;
       isCompleting := isCompleting st; isFetchingPersisted := true;
       error := error st; eventSourceRef := eventSourceRef st;
       completionGuard := completionGuard st; recorder := recorder st;
       latestJournalSummary := Some (Encodes (Some s));
       suspended :=
         (firstn k (suspended st) ++ skipn (S k) (suspended st))
         ++ [await_fetchPersistedSummary sid];
       calls :=
         calls st
         ++ [Call_sessionStorage_setItem (Encodes (Some s));
             Call_fetchPersistedSummary sid] |}.
Proof.
  intros Hk.
  destruct st as [ph id evs ls ps ic ifp er esr g rc cache susp cs].
  simpl in Hk. unfold step, handle, settle. simpl suspended. rewrite Hk.
  rewrite commit_same_session by reflexivity.
  open_handlers. rewrite <- (app_assoc cs).
  destruct (summary_changed ls (Some s)); [|reflexivity].
  now rewrite (rehydration_present _ s).
Qed.

(** The state left when the fetch of the persisted summary fails. *)
Lemma fetch_rejected_state (st : State) (k : nat) (sid : string) (err : Thrown) :
  nth_error (suspended st) k = Some (await_fetchPersistedSummary sid) ->
  step (Settle k (Rejected err)) st
  = {| sessionPhase := sessionPhase st; sessionId := sessionId st;
       events := events st; localSummary := localSummary st;
       persistedSummary := persistedSummary st;
       isCompleting := false; isFetchingPersisted := false;
       error := Some (message_or err "Session completion failed");
       eventSourceRef := eventSourceRef st;
       completionGuard := completionGuard st; recorder := recorder st;
       latestJournalSummary := latestJournalSummary st;
       suspended := firstn k (suspended st) ++ skipn (S k) (suspended st);
       calls := calls st ++ [Call_console_error] |}.
Proof.
  intros Hk.
  destruct st as [ph id evs ls ps ic ifp er esr g rc cache susp cs].
  simpl in Hk. unfold step, handle, settle. simpl suspended. rewrite Hk.
  rewrite commit_same_deps by reflexivity.
  open_handlers. reflexivity.
Qed.

(** C4, as the code has it.  When the fetch of the persisted summary fails
    after the finalize call has succeeded, the local summary stays in place
    and no second fetch is made (only a console message leaves the page and
    nothing stays parked for it).  It is the displayed summary unless the
    page still holds a persisted summary (of an earlier session, when Start
    was clicked while that session's completion was under way): that one
    stays displayed, as [persistedSummary ?? localSummary] has it.  And the
    failure is not silent: it goes through the same [catch] as a failed
    finalize, so the error state holds the failure's message, which the page
    shows unless it is empty. *)
Theorem persisted_fetch_failure_keeps_local_and_reports :
  forall (st : State) (k : nat) (sid : string) (s : SessionSummary)
         (err : Thrown),
    nth_error (suspended st) k = Some (await_completeSession sid) ->
    let finalized := step (Settle k (Resolved_SessionSummary s)) st in
    let last := pred (List.length (suspended finalized)) in
    let failed := step (Settle last (Rejected err)) finalized in
    localSummary finalized = Some s
    /\ latestJournalSummary finalized = Some (JSON_stringify (Some s))
    /\ localSummary failed = Some s
    /\ persistedSummary failed = persistedSummary st
    /\ displayedSummary failed
       = match persistedSummary st with
         | Some earlier => Some earlier
         | None => Some s
         end
    /\ calls failed
       = calls st
         ++ [Call_sessionStorage_setItem (JSON_stringify (Some s));
             Call_fetchPersistedSummary sid; Call_console_error]
    /\ suspended failed = firstn k (suspended st) ++ skipn (S k) (suspended st)
    /\ error failed = Some (message_or err "Session completion failed")
    /\ errorNote failed
       = truthy (Some (message_or err "Session completion failed"))
    /\ (err = NonError ->
        errorNote failed = Some "Session completion failed"%string)
    /\ sessionPhase failed = sessionPhase st
    /\ isCompleting failed = false
    /\ isFetchingPersisted failed = false.
Proof.
  intros st k sid s err Hk finalized last failed.
  pose proof (finalize_resolved_state st k sid s Hk) as Hfin.
  fold finalized in Hfin.
  set (rest := firstn k (suspended st) ++ skipn (S k) (suspended st)) in *.
  assert (Hlast : last = List.length rest).
  { unfold last. rewrite Hfin. simpl. rewrite length_app. simpl. lia. }
  assert (Hnth : nth_error (suspended finalized) last
                 = Some (await_fetchPersistedSummary sid)).
  { rewrite Hlast, Hfin. simpl. apply unpark_last. }
  pose proof (fetch_rejected_state finalized last sid err Hnth) as Hfail.
  fold failed in Hfail.
  assert (Hrest : suspended failed = rest).
  { rewrite Hfail. simpl. rewrite Hlast, Hfin. simpl. apply unpark_last. }
  assert (Herr : error failed
                 = Some (message_or err "Session completion failed")).
  { rewrite Hfail. reflexivity. }
  split; [now rewrite Hfin|].
  split; [now rewrite Hfin|].
  split; [rewrite Hfail; simpl; now rewrite Hfin|].
  split; [rewrite Hfail; simpl; now rewrite Hfin|].
  split.
  { unfold displayedSummary. rewrite Hfail. simpl. rewrite Hfin. simpl.
    now destruct (persistedSummary st). }
  split.
  { rewrite Hfail. simpl. rewrite Hfin. simpl. now rewrite <- app_assoc. }
  split; [exact Hrest|].
  split; [exact Herr|].
  split; [unfold errorNote; now rewrite Herr|].
  split; [intros ->; unfold errorNote; now rewrite Herr|].
  rewrite Hfail. simpl. rewrite Hfin. simpl. auto.
Qed.

End SessionCompleteFacts.

(** ** Completion happens once per session instance *)

Section CompletionGuardFacts.
Import Api HomePage.

Lemma quiet_skip : quiet skip.
Proof.
  intros st. repeat (split; [reflexivity|]).
  exists []. now rewrite app_nil_r.
Qed.

Lemma quiet_seq (f g : Cmd) : quiet f -> quiet g -> quiet (f ;; g).
Proof.
  intros Hf Hg st.
  destruct (Hf st) as (Hf0 & Hf1 & Hf2 & xf & Hf3 & Hf4).
  destruct (Hg (f st)) as (Hg0 & Hg1 & Hg2 & xg & Hg3 & Hg4).
  split; [congruence|]. split; [congruence|]. split; [congruence|].
  exists (xf ++ xg). split.
  - now rewrite Hg3, Hf3, app_assoc.
  - rewrite forallb_app, Hf4, Hg4. reflexivity.
Qed.

Lemma quiet_call (c : Call) : by_effect c = true -> quiet (call c).
Proof.
  intros Hc st. repeat (split; [reflexivity|]).
  exists [c]. simpl. now rewrite Hc.
Qed.

Lemma quiet_setEventSourceRef (v : option EventSource) :
  quiet (setEventSourceRef v).
Proof.
  intros st. repeat (split; [reflexivity|]).
  exists []. now rewrite app_nil_r.
Qed.

Lemma quiet_setLocalSummary (v : option SessionSummary) :
  quiet (setLocalSummary v).
Proof.
  intros st. repeat (split; [reflexivity|]).
  exists []. now rewrite app_nil_r.
Qed.

Lemma quiet_eventStream_cleanup (before : State) :
  quiet (eventStream_cleanup before).
Proof.
  unfold eventStream_cleanup.
  destruct (subscription before); [|apply quiet_skip].
  apply quiet_seq; [|apply quiet_setEventSourceRef].
  intros st. unfold closeEventSource.
  destruct (eventSourceRef st); [|apply quiet_skip].
  apply (quiet_seq _ _
           (quiet_call (Call_eventSource_close in_effect_cleanup) eq_refl)
           (quiet_setEventSourceRef _)).
Qed.

Lemma quiet_eventStream_effect : quiet eventStream_effect.
Proof.
  intros st. unfold eventStream_effect.
  destruct (subscription st) as [sid|]; [|apply quiet_skip].
  apply (quiet_seq _ _
           (quiet_call (Call_createPromptEventSource sid) eq_refl)
           (quiet_setEventSourceRef _)).
Qed.

Lemma quiet_rehydration_effect : quiet rehydration_effect.
Proof.
  intros st. unfold rehydration_effect.
  destruct (cached_text st) as [cached|]; [|apply quiet_skip].
  destruct (localSummary st); [apply quiet_skip|].
  destruct (JSON_parse cached).
  - apply (quiet_call Call_console_error eq_refl).
  - apply quiet_setLocalSummary.
Qed.

(** React's commit is quiet, whatever the render before it was. *)
Lemma quiet_commit (before : State) : quiet (commit before).
Proof.
  assert (Hstream :
            quiet (fun st =>
                     if sessionId_eqb (sessionId before) (sessionId st)
                        && phase_eqb (sessionPhase before) (sessionPhase st)
                     then st
                     else (eventStream_cleanup before ;; eventStream_effect) st)).
  { intros s. destruct (_ && _); [apply quiet_skip|].
    apply (quiet_seq _ _ (quiet_eventStream_cleanup before)
             quiet_eventStream_effect). }
  assert (Hrehydrate :
            quiet (fun st =>
                     if summary_changed (localSummary before) (localSummary st)
                     then rehydration_effect st
                     else st)).
  { intros s. destruct (summary_changed _ _); [|apply quiet_skip].
    apply quiet_rehydration_effect. }
  exact (quiet_seq _ _ Hstream Hrehydrate).
Qed.


Lemma commit_events (before st : State) :
  events (commit before st) = events st.
Proof. exact (proj1 (quiet_commit before st)). Qed.




(** Taking a continuation out of the parked ones. *)
Lemma filter_unpark {A : Type} (p : A -> bool) (l : list A) (k : nat) (x : A) :
  nth_error l k = Some x ->
  List.length (filter p l)
  = (List.length (filter p (firstn k l ++ skipn (S k) l))
     + if p x then 1 else 0)%nat.
Proof.
  intros H. rewrite <- (firstn_skipn_middle k l H) at 1.
  rewrite !filter_app, !length_app. simpl.
  destruct (p x); simpl; lia.
Qed.











End CompletionGuardFacts.

Section PageLogFacts.
Import Api HomePage.

(** A step leaves the log alone, empties it, or admits one of the events it
    brings. *)
Lemma step_events (ev : HomePage.Event) (st : State) :
  events (step ev st) = events st
  \/ events (step ev st) = []
  \/ exists e, In e (deliveries ev)
               /\ events (step ev st) = EventLog.appendEvent e (events st).
Proof.
  unfold step. rewrite commit_events.
  destruct st as [ph id evs ls ps ic ifp er esr g rc cache susp cs].
  destruct ev as [| |sid|k o|text| |rec blob| |rec]; unfold handle.
  - destruct ph; [right; left|left|right; left]; reflexivity.
  - cbn [sessionPhase]. destruct ph; try (left; reflexivity).
    unfold handleSessionComplete. cbn [completionGuard sessionId].
    destruct (truthy id), g; try (left; reflexivity).
    open_handlers. destruct esr; left; reflexivity.
  - unfold handleSessionComplete. cbn [completionGuard].
    destruct (truthy sid), g; try (left; reflexivity).
    open_handlers. destruct esr; left; reflexivity.
  - unfold settle. cbn [suspended].
    destruct (nth_error susp k) as [kont|]; [|left; reflexivity].
    destruct kont, o; cbn [resume]; try (left; reflexivity).
    cbn [deliveries]. destruct (initialPrompt res) as [p|].
    + right; right. exists p. split; [now left|reflexivity].
    + left; reflexivity.
  - unfold onmessage. cbn [eventSourceRef].
    destruct esr as [[u [|]]|]; try (left; reflexivity).
    destruct text as [payload|raw]; cbn [JSON_parse].
    + right; right. exists payload. split; [now left|reflexivity].
    + left; reflexivity.
  - unfold onerror. cbn [eventSourceRef].
    destruct esr as [[u [|]]|]; left; reflexivity.
  - unfold ondataavailable. cbv zeta. cbn [recorder].
    destruct (skipn _ _) as [|c l]; [left; reflexivity|].
    destruct (truthy (AudioRecorder.to c)); left; reflexivity.
  - left; reflexivity.
  - left; reflexivity.
Qed.

(** On the page, the log is at any time what [appendEvent] has made of the
    events admitted since the last reset. *)
Lemma page_log_admitted (evs : list HomePage.Event) :
  forall (st : State) (arrivals : list PromptEvent),
    events st = EventLog.admitAll arrivals ->
    Forall EventLog.timestamped arrivals ->
    Forall (fun ev => Forall EventLog.timestamped (deliveries ev)) evs ->
    exists arrivals',
      events (run evs st) = EventLog.admitAll arrivals'
      /\ Forall EventLog.timestamped arrivals'.
Proof.
  induction evs as [|ev evs IH]; intros st arrivals Hst Harr Hevs; simpl.
  - exists arrivals. auto.
  - inversion Hevs as [|? ? Hev Hrest]; subst.
    destruct (step_events ev st) as [E|[E|(e & He & E)]].
    + apply (IH _ arrivals); [congruence|assumption|assumption].
    + apply (IH _ []); [exact E|constructor|assumption].
    + apply (IH _ (arrivals ++ [e])); [| |assumption].
      * rewrite E, Hst. unfold EventLog.admitAll.
        rewrite fold_left_app. reflexivity.
      * apply Forall_app. split; [assumption|].
        constructor; [|constructor].
        eapply Forall_forall; [exact Hev|exact He].
Qed.

(** So the invariant of the log holds in every state the page reaches. *)
Lemma page_log_unique_and_ordered (evs : list HomePage.Event)
  (cache : option (JSONText Cached)) :
  Forall (fun ev => Forall EventLog.timestamped (deliveries ev)) evs ->
  NoDup (EventLog.ids (events (run evs (mount cache))))
  /\ StronglySorted EventLog.createdAt_le (events (run evs (mount cache))).
Proof.
  intros Hevs.
  assert (H0 : events (mount cache) = EventLog.admitAll []).
  { unfold mount. destruct (quiet_seq _ _ quiet_eventStream_effect
                              quiet_rehydration_effect (first_render cache))
      as (E & _). rewrite E. reflexivity. }
  destruct (page_log_admitted evs (mount cache) [] H0 (Forall_nil _) Hevs)
    as (arrivals & E & Harr).
  rewrite E.
  destruct (admitAll_invariant arrivals Harr) as (Hnd & _ & Hs & _).
  split; assumption.
Qed.

End PageLogFacts.


(* ================================================================== *)
(** * One session, step by step *)

Section ScenarioFacts.
Import Api HomePage Scenario.

(** The scenario of the event log: the initial prompt, an older event that
    arrives later, and the initial prompt delivered again. *)
Example log_scenario :
  events started = [e1]
  /\ EventLog.admitAll [e1; e2] = [e2; e1]
  /\ EventLog.admitAll [e1; e2; e1] = [e2; e1]
  /\ events (run [EventSource_onmessage (Encodes e2);
                  EventSource_onmessage (Encodes e1);
                  EventSource_onmessage (Unparsable "{")] recording)
     = [e2; e1].
Proof. vm_compute. repeat split. Qed.

(** The scenario of a completion: the local summary shows at once, the
    persisted one replaces it when it arrives. *)
Example summary_scenario :
  displayedSummary completing = None
  /\ sessionPhase completing = completed
  /\ displayedSummary finalized = Some local1
  /\ displayedSummary over = Some persisted1
  /\ localSummary reloaded = Some local1
  /\ calls reloaded = [].
Proof. vm_compute. repeat split. Qed.

(** The recorder calls the [handleAudioChunk] that [start] closed over, the
    one of the render in which Start was clicked: in the first session of a
    page that closure holds no session identifier and returns before
    uploading, though the chunk got its sequence number. *)
Example chunk_of_first_session :
  AudioRecorder.onChunkCalls
    (recorder
       (step (Recorder_dataavailable 0 {| AudioRecorder.size := 4096 |})
          recording))
  = [{| AudioRecorder.from := 0; AudioRecorder.to := None;
        AudioRecorder.data := {| AudioRecorder.size := 4096 |};
        AudioRecorder.sequence := 1 |}]
  /\ calls
       (step (Recorder_dataavailable 0 {| AudioRecorder.size := 4096 |})
          recording)
     = calls recording.
Proof. vm_compute. split; reflexivity. Qed.

(** C3, where the code departs from it.  The service has opened session
    [s1] and the browser then refuses the microphone: the recorder hook
    swallows the failure into its own [error], [handleSessionStart] never
    sees it, and the page stays in a running session with the timer on and
    the event stream open, though nothing is being recorded. *)
Theorem mic_failure_leaves_session_running :
  sessionPhase mic_denied = running
  /\ sessionId mic_denied = Some "s1"%string
  /\ timer_isRunning mic_denied = true
  /\ eventSourceRef mic_denied
     = Some {| url_sessionId := "s1"; closed := false |}
  /\ error mic_denied = None
  /\ AudioRecorder.error (recorder mic_denied) = Some "Permission denied"%string
  /\ AudioRecorder.isRecording (recorder mic_denied) = false
  /\ AudioRecorder.mediaRecorderRef (recorder mic_denied) = None
  /\ suspended mic_denied = [].
Proof. vm_compute. repeat split. Qed.

(** C6, where the code departs from it.  A session is over with both
    summaries in; Start is clicked again.  The reset empties the log, both
    summaries and the error, but emptying the local summary re-runs the
    rehydration effect, which finds the previous session's summary still in
    the cache and puts it back: it is the displayed summary before the new
    session has produced anything, and still is once that session runs. *)
Theorem prior_summary_returns_after_reset :
  localSummary over = Some local1
  /\ events restarted = []
  /\ persistedSummary restarted = None
  /\ error restarted = None
  /\ calls restarted = calls over ++ [Call_startSession]
  /\ localSummary restarted = Some local1
  /\ displayedSummary restarted = Some local1
  /\ sessionPhase running_again = running
  /\ sessionId running_again = Some "s2"%string
  /\ displayedSummary running_again = Some local1.
Proof. vm_compute. repeat split. Qed.

(** C2 as stated fails for a sequence that holds an event whose [createdAt]
    is no date: [late], [undated], [early] arrive in this order, on the
    stream of the running session as well as in the log taken alone, and the
    log keeps them in this order, the event created at 2000 ahead of the one
    created at 1000 (on the page, whose log holds the initial prompt [e1],
    also ahead of [e1]). *)
Lemma undated_event_breaks_the_order :
  EventLog.admitAll [late; undated; early] = [late; undated; early]
  /\ events
       (run [EventSource_onmessage (Encodes late);
             EventSource_onmessage (Encodes undated);
             EventSource_onmessage (Encodes early)] recording)
     = [late; e1; undated; early]
  /\ Date_getTime (createdAt late) = Some 2000
  /\ Date_getTime (createdAt early) = Some 1000
  /\ ~ EventLog.createdAt_le late early
  /\ ~ StronglySorted EventLog.createdAt_le
         (EventLog.admitAll [late; undated; early]).
Proof.
  split; [reflexivity|]. split; [vm_compute; reflexivity|].
  split; [reflexivity|]. split; [reflexivity|].
  split.
  - unfold EventLog.createdAt_le. simpl. lia.
  - intros H. inversion H as [|? ? _ Hall]; subst.
    inversion Hall as [|? ? Hn _]; subst.
    exact Hn.
Qed.

(** C7 as stated fails when [start] is called again while a recording goes
    on: the counter is one for the whole hook and the second [start] puts
    it back to 0, so the numbers the first recorder hands over are 1, 2 and
    1 again.  The page gets there when Start is clicked twice before the
    service answers. *)
Lemma second_start_repeats_sequence_numbers :
  AudioRecorder.only_from 0 restarted_chunks
  /\ AudioRecorder.numbers_of 0
       (AudioRecorder.run restarted_chunks
          (AudioRecorder.start_resolved (Some "s1"%string) None
             AudioRecorder.initial))
     = [1; 2; 1]%nat
  /\ AudioRecorder.numbers_of 0 (recorder (run double_click (mount None)))
     = [1; 2; 1]%nat
  /\ ~ NoDup
         (AudioRecorder.numbers_of 0
            (recorder (run double_click (mount None)))).
Proof.
  split; [unfold AudioRecorder.only_from, restarted_chunks;
          repeat constructor|].
  split; [reflexivity|]. split; [vm_compute; reflexivity|].
  vm_compute. intros H. inversion H as [|? ? Hin _]; subst.
  apply Hin. right. now left.
Qed.

(** C9 as stated fails for a cached text that parses to something that is
    no summary: [{}] is not discarded but adopted as the local summary
    without a word on the console, it is the displayed summary, and
    [SummaryCard] cannot render it ([summary.tips] is [undefined]).  The
    same holds of an object whose tips are a string. *)
Lemma malformed_cache_is_adopted :
  localSummary (mount (Some (Encodes (Some empty_object))))
  = Some empty_object
  /\ displayedSummary (mount (Some (Encodes (Some empty_object))))
     = Some empty_object
  /\ calls (mount (Some (Encodes (Some empty_object)))) = []
  /\ SummaryCard.renders empty_object = false
  /\ page_renders (mount (Some (Encodes (Some empty_object)))) = false
  /\ localSummary (mount (Some (Encodes (Some tips_as_text))))
     = Some tips_as_text
  /\ page_renders (mount (Some (Encodes (Some tips_as_text)))) = false.
Proof. vm_compute. repeat split. Qed.

(** The state C4 leaves out: the fetch for [s2] fails while the page still
    holds the persisted summary of [s1], and that one is displayed, not the
    local summary of [s2]. *)
Example stale_persisted_summary_stays_displayed :
  localSummary overlapping = Some local2
  /\ persistedSummary overlapping = Some persisted1
  /\ displayedSummary overlapping = Some persisted1
  /\ sessionId overlapping = Some "s2"%string
  /\ error overlapping = Some "API request failed with status 500"%string.
Proof. vm_compute. repeat split. Qed.

(** C4 as stated fails: after a finalize call that succeeded, a failed fetch
    of the persisted summary leaves the local summary displayed and is not
    tried again, but it is not silent: the error state, empty before, now
    holds the failure's message. *)
Lemma persisted_fetch_failure_is_not_silent :
  error finalized = None
  /\ displayedSummary fetch_failed = Some local1
  /\ made is_fetchPersistedSummary fetch_failed = 1%nat
  /\ error fetch_failed = Some "API request failed with status 500"%string
  /\ ~ (displayedSummary fetch_failed = Some local1
        /\ made is_fetchPersistedSummary fetch_failed = 1%nat
        /\ error fetch_failed = None).
Proof.
  vm_compute. repeat split. intros (_ & _ & H). discriminate H.
Qed.

End ScenarioFacts.

(* ================================================================== *)
(** * The theorems at work on the scenario *)

Section Witnesses.
Import Api HomePage Scenario.

(** C2 on the three deliveries [e1], [e2], [e1]. *)
Lemma event_log_unique_and_ordered_witness :
  Forall EventLog.timestamped (firstn 3 [e1; e2; e1])
  /\ NoDup (EventLog.ids (EventLog.admitAll (firstn 3 [e1; e2; e1])))
  /\ StronglySorted EventLog.createdAt_le
       (EventLog.admitAll (firstn 3 [e1; e2; e1])).
Proof.
  assert (H : Forall EventLog.timestamped (firstn 3 [e1; e2; e1]))
    by (repeat constructor; discriminate).
  split; [exact H|].
  destruct (event_log_unique_and_ordered [e1; e2; e1] 3) as (Hnd & _ & _ & Hs).
  split; [exact Hnd|exact (Hs H)].
Defined.

(** C8 on a five-minute countdown armed at time 0. *)
Lemma countdown_fires_once_unless_disarmed_witness :
  SessionTimer.expiries
    (SessionTimer.run (map SessionTimer.Frame [300016; 300033])
       (SessionTimer.step SessionTimer.Unmount
          (SessionTimer.run (map SessionTimer.Frame [16; 299990])
             (SessionTimer.arm 0 (SessionTimer.mount 300000)))))
  = []
  /\ SessionTimer.expiries
       (SessionTimer.run
          (map SessionTimer.Frame ([16; 299990] ++ 300007 :: [300024]))
          (SessionTimer.arm 0 (SessionTimer.mount 300000)))
     = [300007]
  /\ SessionTimer.scheduled
       (SessionTimer.run
          (map SessionTimer.Frame ([16; 299990] ++ 300007 :: [300024]))
          (SessionTimer.arm 0 (SessionTimer.mount 300000)))
     = [].
Proof.
  destruct (countdown_fires_once_unless_disarmed 300000 0) as (Hoff & Hdue & _).
  assert (Hearly : Forall (fun now => now - 0 < 300000) [16; 299990])
    by (repeat constructor; lia).
  split.
  - exact (Hoff [16; 299990] [300016; 300033] SessionTimer.Unmount Hearly I).
  - assert (Hnow : 300000 <= 300007 - 0) by lia.
    destruct (Hdue [16; 299990] [300024] 300007 Hearly Hnow) as (H1 & H2 & _).
    split; [exact H1|exact H2].
Defined.

(** C7 on the chunks of one recording. *)
Lemma chunk_sequence_is_1_2_3_witness :
  AudioRecorder.only_from 0 chunks
  /\ AudioRecorder.no_further_recorder chunks
  /\ map AudioRecorder.sequence
       (AudioRecorder.onChunkCalls
          (AudioRecorder.run chunks
             (AudioRecorder.start_resolved (Some "s1"%string) None
                AudioRecorder.initial)))
     = [1; 2; 3]%nat.
Proof.
  assert (H : AudioRecorder.only_from 0 chunks)
    by (unfold AudioRecorder.only_from, chunks; repeat constructor).
  assert (N : AudioRecorder.no_further_recorder chunks)
    by (unfold AudioRecorder.no_further_recorder, chunks; repeat constructor).
  split; [exact H|]. split; [exact N|].
  destruct (chunk_sequence_is_1_2_3 (Some "s1"%string) AudioRecorder.initial
              chunks H N) as (_ & _ & (new & Hcalls & Hseq & _) & _).
  rewrite Hcalls. exact Hseq.
Defined.

(** C10 on a page on which no session was ever started. *)
Lemma complete_without_session_is_noop_witness :
  sessionId (mount None) = None
  /\ step Timer_onExpire (mount None) = mount None.
Proof.
  split; [reflexivity|].
  destruct (complete_without_session_is_noop (mount None)) as (_ & _ & H).
  exact (H eq_refl).
Defined.

(** C9 on a finished session, on a reload that finds a summary in the cache
    and on a reload that finds a broken text there. *)
Lemma rehydration_never_overwrites_witness :
  rehydration_effect over = over
  /\ localSummary (rehydration_effect (first_render (Some (Encodes (Some local1)))))
     = Some local1
  /\ localSummary
       (rehydration_effect (first_render (Some (Unparsable "{"%string))))
     = None.
Proof.
  split; [|split].
  - destruct (rehydration_never_overwrites over) as (H & _).
    exact (H local1 eq_refl).
  - destruct (rehydration_never_overwrites
                (first_render (Some (Encodes (Some local1))))) as (_ & H & _).
    rewrite (H (Some local1) eq_refl eq_refl). reflexivity.
  - destruct (rehydration_never_overwrites
                (first_render (Some (Unparsable "{"%string))))
      as (_ & _ & H & _).
    rewrite (H "{"%string eq_refl eq_refl). reflexivity.
Defined.

(** C5 on a fresh page whose start call is answered with status 500. *)
Lemma failed_session_start_aborts_witness :
  sessionPhase (mount None) <> running
  /\ sessionPhase
       (step (Settle 0 (Rejected http500)) (step Click_Start (mount None)))
     = idle
  /\ calls
       (step (Settle 0 (Rejected http500)) (step Click_Start (mount None)))
     = [Call_startSession; Call_console_error].
Proof.
  assert (H : sessionPhase (mount None) <> running) by discriminate.
  split; [exact H|].
  destruct (failed_session_start_aborts (mount None) http500 H)
    as (_ & _ & Hphase & _ & _ & Hcalls & _).
  split; [exact Hphase|exact Hcalls].
Defined.

(** C4 as amended, on the scenario's failed fetch. *)
Lemma persisted_fetch_failure_keeps_local_and_reports_witness :
  nth_error (suspended completing) 0 = Some (await_completeSession "s1")
  /\ displayedSummary fetch_failed = Some local1
  /\ error fetch_failed = Some "API request failed with status 500"%string
  /\ errorNote fetch_failed
     = Some "API request failed with status 500"%string.
Proof.
  assert (H1 : nth_error (suspended completing) 0
               = Some (await_completeSession "s1")) by reflexivity.
  split; [exact H1|].
  destruct (persisted_fetch_failure_keeps_local_and_reports
              completing 0 "s1" local1 http500 H1)
    as (_ & _ & _ & _ & Hd & _ & _ & He & Hn & _).
  split; [exact Hd|]. split; [exact He|exact Hn].
Defined.

End Witnesses.

(* ================================================================== *)
(** * Further properties of the code *)

(** ** The countdown timer, under any sequence of renders and frames *)

Section TimerMoreFacts.
Import SessionTimer.

Lemma one_request_requestAnimationFrame (t : Timer) :
  scheduled t = [] -> one_request (requestAnimationFrame t).
Proof.
  intros H. right. exists (nextHandle t). simpl. rewrite H. auto.
Qed.

Lemma one_request_cleanup (t : Timer) :
  one_request t -> scheduled (cleanup t) = [].
Proof.
  intros [H|(h & Hs & Ha)]; unfold cleanup.
  - destruct (animationFrame t); simpl; rewrite ?H; reflexivity.
  - rewrite Ha. simpl. rewrite Hs. simpl. now rewrite Nat.eqb_refl.
Qed.

Lemma one_request_effect (clock : Z) (t : Timer) :
  scheduled t = [] -> one_request (effect clock t).
Proof.
  intros H. unfold effect. destruct (isRunning t); simpl.
  - right. exists (nextHandle t). simpl. rewrite H. auto.
  - left. exact H.
Qed.

Lemma one_request_step (ev : SessionTimer.Event) (t : Timer) :
  one_request t ->
  one_request (step ev t)
  /\ (List.length (expiries (step ev t)) <= S (List.length (expiries t)))%nat.
Proof.
  intros H. destruct ev as [d r c clock|now|]; simpl.
  - unfold render.
    destruct (negb (d =? durationMs t) || negb (Bool.eqb r (isRunning t)) || c).
    + split.
      * apply one_request_effect.
        apply one_request_cleanup.
        destruct H as [H|(h & Hs & Ha)]; [left|right; exists h]; simpl; auto.
      * assert (E : forall x, expiries (effect clock (cleanup x)) = expiries x).
        { intros [d0 r0 rem st af sch nh ex]. unfold effect, cleanup.
          destruct af, r0; reflexivity. }
        rewrite E. simpl. lia.
    + split; [|simpl; lia].
      destruct H as [H|(h & Hs & Ha)]; [left|right; exists h]; simpl; auto.
  - unfold frame. destruct H as [H|(h & Hs & Ha)].
    + rewrite H. simpl. split; [left; reflexivity|lia].
    + rewrite Hs. simpl. unfold tick. simpl.
      destruct (Z.max (durationMs t - (now - start t)) 0 =? 0); simpl.
      * split; [left; reflexivity|]. rewrite length_app. simpl. lia.
      * split; [right; exists (nextHandle t); auto|lia].
  - split.
    + left. now apply one_request_cleanup.
    + unfold cleanup. destruct (animationFrame t); simpl; lia.
Qed.

(** X1. Whatever the parent renders (new duration, new [onExpire], running
    or not), whenever the browser runs a frame and whether or not the
    component is unmounted in between, at most one frame request is pending,
    and no single event makes the component call [onExpire] more than
    once. *)
Theorem timer_never_double_scheduled :
  forall (D : Z) (evs : list SessionTimer.Event) (ev : SessionTimer.Event),
    let t := run evs (mount D) in
    (List.length (scheduled t) <= 1)%nat
    /\ (List.length (expiries (step ev t)) <= S (List.length (expiries t)))%nat.
Proof.
  intros D evs ev t.
  assert (H : one_request t).
  { subst t. assert (H0 : one_request (mount D)) by (left; reflexivity).
    revert H0. generalize (mount D). induction evs as [|e evs IH]; intros t0 H0.
    - exact H0.
    - simpl. apply IH. now apply one_request_step. }
  split.
  - destruct H as [H|(h & Hs & _)]; [rewrite H|rewrite Hs]; simpl; lia.
  - now apply one_request_step.
Qed.

Lemma at_rest_step (ev : SessionTimer.Event) (t : Timer) :
  one_request t -> at_rest t -> at_rest (step ev t).
Proof.
  intros Hone Hrest. destruct ev as [d r c clock|now|].
  - unfold step, render.
    destruct (negb (d =? durationMs t) || negb (Bool.eqb r (isRunning t)) || c)
      eqn:Hchanged.
    + intros Hr.
      assert (Hs : scheduled
                     (cleanup
                        {| durationMs := d; isRunning := r;
                           remainingMs := remainingMs t; start := start t;
                           animationFrame := animationFrame t;
                           scheduled := scheduled t;
                           nextHandle := nextHandle t;
                           expiries := expiries t |}) = []).
      { apply one_request_cleanup.
        destruct Hone as [H|(h & Hs & Ha)]; [left|right; exists h]; simpl; auto. }
      revert Hr Hs. unfold effect, cleanup. simpl.
      destruct (animationFrame t), r; simpl; intros; try discriminate; auto.
    + apply orb_false_iff in Hchanged as [Hchanged _].
      apply orb_false_iff in Hchanged as [Hd Hr].
      apply negb_false_iff in Hd, Hr.
      apply Z.eqb_eq in Hd. apply Bool.eqb_prop in Hr. subst d r.
      intros Hrun. simpl in *. exact (Hrest Hrun).
  - unfold step. intros Hr.
    assert (Hkeep : forall (x : list nat) (y : Timer),
               isRunning (fold_left (fun t _ => tick now t) x y)
               = isRunning y).
    { intros x. induction x as [|a x IH]; intros y; simpl; [reflexivity|].
      rewrite IH. unfold tick.
      destruct (Z.max (durationMs y - (now - start y)) 0 =? 0); reflexivity. }
    unfold frame in *. rewrite Hkeep in Hr. simpl in Hr.
    destruct (Hrest Hr) as [Hs Hrem]. rewrite Hs. simpl. auto.
  - unfold step. intros Hr.
    assert (Hrun : isRunning t = false).
    { revert Hr. unfold cleanup. now destruct (animationFrame t). }
    destruct (Hrest Hrun) as [Hs Hrem].
    unfold cleanup. destruct (animationFrame t); simpl; rewrite ?Hs; auto.
Qed.

Lemma counting_frame_early (past : list Z) (D t0 now : Z) (t : Timer) :
  counting past D t0 t -> now - t0 < D -> counting past D t0 (frame now t).
Proof.
  intros (HD & Hst & Hex & h & Hs) Hlt.
  destruct t as [d r rem st af sch nh ex]; simpl in *; subst.
  unfold counting, frame, tick; simpl.
  match goal with
  | |- context [?a =? 0] => destruct (Z.eqb_spec a 0) as [E|E]; [lia|]
  end.
  simpl. repeat split. exists nh. reflexivity.
Qed.

Lemma counting_frame_due (past : list Z) (D t0 now : Z) (t : Timer) :
  counting past D t0 t -> D <= now - t0 ->
  expiries (frame now t) = past ++ [now] /\ scheduled (frame now t) = [].
Proof.
  intros (HD & Hst & Hex & h & Hs) Hge.
  destruct t as [d r rem st af sch nh ex]; simpl in *; subst.
  unfold frame, tick; simpl.
  match goal with
  | |- context [?a =? 0] => destruct (Z.eqb_spec a 0) as [E|E]; [|lia]
  end.
  simpl. split; reflexivity.
Qed.

Lemma timer_invariant (D : Z) (evs : list SessionTimer.Event) :
  one_request (run evs (mount D)) /\ at_rest (run evs (mount D)).
Proof.
  assert (H0 : one_request (mount D) /\ at_rest (mount D)).
  { split; [left; reflexivity|]. intros _. split; reflexivity. }
  revert H0. generalize (mount D).
  induction evs as [|e evs IH]; intros t0 [H1 H2]; [now split|].
  simpl. apply IH. split.
  - now apply one_request_step.
  - now apply at_rest_step.
Qed.

(** X2. Whatever happened to the timer before (disarmed half-way, expired,
    re-rendered), while it is not running it shows the full duration, and
    arming it again counts the full duration down from the moment of arming:
    [onExpire] is called once more, in the first frame whose time since that
    moment is at least the duration. *)
Theorem rearming_restarts_the_countdown :
  forall (D : Z) (evs : list SessionTimer.Event) (clock : Z),
    let t := run evs (mount D) in
    isRunning t = false ->
    remainingMs t = durationMs t
    /\ forall (early later : list Z) (now : Z),
         Forall (fun n => n - clock < durationMs t) early ->
         durationMs t <= now - clock ->
         expiries (run (map Frame (early ++ now :: later)) (arm clock t))
         = expiries t ++ [now].
Proof.
  intros D evs clock t Hrun.
  destruct (timer_invariant D evs) as [_ Hrest]. fold t in Hrest. destruct (Hrest Hrun) as [Hs Hrem].
  split; [exact Hrem|].
  intros early later now Hearly Hdue.
  assert (Harm : counting (expiries t) (durationMs t) clock (arm clock t)).
  { destruct t as [d r rem st af sch nh ex]. simpl in *. subst.
    unfold counting, arm, step, render, cleanup, effect. simpl.
    rewrite Z.eqb_refl. simpl. destruct af; simpl; repeat split;
      eexists; reflexivity. }
  assert (Hrunearly :
            counting (expiries t) (durationMs t) clock
              (run (map Frame early) (arm clock t))).
  { revert Harm. generalize (arm clock t).
    induction Hearly as [|n rest Hn _ IH]; intros x Hx; [exact Hx|].
    simpl. apply IH. now apply counting_frame_early. }
  rewrite map_app. unfold run at 1. rewrite fold_left_app. simpl.
  fold (run (map Frame early) (arm clock t)).
  destruct (counting_frame_due _ _ _ now _ Hrunearly Hdue) as [He Hsch].
  fold (run (map Frame later)
          (frame now (run (map Frame early) (arm clock t)))).
  rewrite frames_idle by exact Hsch. exact He.
Qed.

End TimerMoreFacts.

(** ** What the timer shows *)

Section TimerDisplayFacts.
Import Ascii QArith Qround Qminmax Lqa TimerDisplay.
Import Decimal DecimalString.
Local Open Scope string_scope.

Lemma nzhead_no_leading_zero (d d' : uint) : nzhead d <> D0 d'.
Proof. induction d; simpl; try discriminate. exact IHd. Qed.

Lemma unorm_leading_zero (d d' : uint) : unorm d = D0 d' -> d' = Nil.
Proof.
  unfold unorm. destruct (nzhead d) eqn:E; try discriminate.
  - intros [= <-]. reflexivity.
  - intros H. exfalso. apply (nzhead_no_leading_zero d d'). congruence.
Qed.

Lemma Pos_to_uint_normal (p : positive) :
  unorm (Pos.to_uint p) = Pos.to_uint p.
Proof.
  rewrite <- (DecimalPos.Unsigned.to_of (Pos.to_uint p)).
  now rewrite DecimalPos.Unsigned.of_to.
Qed.

Lemma string_of_uint_leading_zero (d : uint) (rest : string) :
  NilEmpty.string_of_uint d = String "0" rest ->
  exists d', d = D0 d' /\ NilEmpty.string_of_uint d' = rest.
Proof.
  destruct d; simpl; try discriminate.
  intros [= <-]. eauto.
Qed.

Lemma string_of_uint_empty (d : uint) :
  NilEmpty.string_of_uint d = "" -> d = Nil.
Proof. destruct d; simpl; try discriminate. reflexivity. Qed.

Lemma string_of_uint_colon_free (d : uint) :
  colon_free (NilEmpty.string_of_uint d).
Proof. induction d; simpl; auto; split; auto; discriminate. Qed.

(** The decimal text of a natural number, as a case analysis. *)
Lemma toString_cases (n : Z) :
  (0 <= n)%Z ->
  toString n = "0"
  \/ exists p, n = Zpos p
               /\ toString n = NilEmpty.string_of_uint (Pos.to_uint p).
Proof.
  intros Hn. destruct n as [|p|p]; [now left| |lia].
  right. exists p. split; [reflexivity|].
  unfold toString. simpl. unfold NilZero.string_of_uint.
  pose proof (DecimalPos.Unsigned.to_uint_nonnil p).
  now destruct (Pos.to_uint p).
Qed.

(** It has no leading zero, ... *)
Lemma toString_leading_zero (n : Z) (rest : string) :
  (0 <= n)%Z -> toString n = String "0" rest -> rest = "".
Proof.
  intros Hn H. destruct (toString_cases n Hn) as [E|(p & -> & E)].
  - rewrite E in H. now injection H as <-.
  - rewrite E in H.
    destruct (string_of_uint_leading_zero _ _ H) as (d' & Hd & Hrest).
    pose proof (Pos_to_uint_normal p) as Hnorm. rewrite Hd in Hnorm.
    apply unorm_leading_zero in Hnorm. subst d'. now subst rest.
Qed.

(** ... is not empty, has no colon in it, ... *)
Lemma toString_nonempty (n : Z) : (0 <= n)%Z -> toString n <> "".
Proof.
  intros Hn H. destruct (toString_cases n Hn) as [E|(p & -> & E)].
  - rewrite E in H. discriminate.
  - rewrite E in H. apply string_of_uint_empty in H.
    exact (DecimalPos.Unsigned.to_uint_nonnil p H).
Qed.

Lemma toString_colon_free (n : Z) : (0 <= n)%Z -> colon_free (toString n).
Proof.
  intros Hn. destruct (toString_cases n Hn) as [E|(p & -> & E)]; rewrite E.
  - simpl. split; [discriminate|exact I].
  - apply string_of_uint_colon_free.
Qed.

(** ... and tells the number. *)
Lemma toString_inj (a b : Z) : toString a = toString b -> a = b.
Proof.
  unfold toString. intros H.
  assert (Hnn : forall n, Z.to_int n <> Pos Nil /\ Z.to_int n <> Neg Nil).
  { intros [|p|p]; simpl; split; try discriminate;
      intros [= E]; exact (DecimalPos.Unsigned.to_uint_nonnil p E). }
  apply (f_equal NilZero.int_of_string) in H.
  rewrite !NilZero.isi in H by apply Hnn.
  injection H as H. now apply DecimalZ.to_int_inj.
Qed.

(** Two digits at least, and still telling the number. *)
Lemma padStart_toString_inj (a b : Z) :
  (0 <= a)%Z -> (0 <= b)%Z ->
  padStart 2 (toString a) = padStart 2 (toString b) -> a = b.
Proof.
  intros Ha Hb H. apply toString_inj.
  pose proof (toString_nonempty a Ha) as Na.
  pose proof (toString_nonempty b Hb) as Nb.
  pose proof (toString_leading_zero a) as Za.
  pose proof (toString_leading_zero b) as Zb.
  destruct (toString a) as [|a1 [|a2 sa]]; [congruence| |];
    destruct (toString b) as [|b1 [|b2 sb]]; try congruence;
    unfold padStart in H; simpl in H; try congruence.
  - injection H as <- <- <-. specialize (Zb _ Hb eq_refl). discriminate.
  - injection H as -> -> ->. specialize (Za _ Ha eq_refl). discriminate.
Qed.

Lemma padStart_colon_free (s : string) :
  colon_free s -> colon_free (padStart 2 s).
Proof.
  intros H. unfold padStart.
  induction (2 - String.length s)%nat as [|n IH]; simpl; [exact H|].
  split; [discriminate|exact IH].
Qed.

(** A text is cut at its first colon in one way only. *)
Lemma cut_at_colon (x x' y y' : string) :
  colon_free x -> colon_free x' ->
  x ++ ":" ++ y = x' ++ ":" ++ y' -> x = x' /\ y = y'.
Proof.
  revert x'. induction x as [|c x IH]; intros [|c' x'] Hx Hx' H; simpl in *.
  - injection H as ->. auto.
  - injection H as <- _. now destruct Hx'.
  - injection H as -> _. now destruct Hx.
  - injection H as -> H. destruct Hx as [_ Hx], Hx' as [_ Hx'].
    destruct (IH x' Hx Hx' H) as [-> ->]. auto.
Qed.

Lemma totalSeconds_nonneg (r : Q) : 0 <= r -> (0 <= totalSeconds r)%Z.
Proof.
  intros Hr. unfold totalSeconds.
  change 0%Z with (Qceiling 0). apply Qceiling_resp_le.
  apply Qle_shift_div_l; [reflexivity|]. now rewrite Qmult_0_l.
Qed.

Lemma totalSeconds_bounds (r : Q) :
  (inject_Z (totalSeconds r) - 1) * 1000 < r
  /\ r <= inject_Z (totalSeconds r) * 1000.
Proof.
  unfold totalSeconds.
  pose proof (Qceiling_lt (r / 1000)) as Hlt.
  pose proof (Qle_ceiling (r / 1000)) as Hle.
  assert (E : r == r / 1000 * 1000) by (field).
  unfold Z.sub in Hlt. rewrite inject_Z_plus, inject_Z_opp in Hlt.
  change (inject_Z 1) with 1 in Hlt.
  split; lra.
Qed.

(** X3. For a remaining time that is not negative, the seconds shown are
    the remaining time rounded up to whole seconds; two remaining times show
    the same text exactly when they round to the same number of seconds; and
    the text is ["00:00"] exactly when no time remains. *)
Theorem clock_text_tells_the_seconds :
  forall (r r' : Q),
    0 <= r -> 0 <= r' ->
    ((inject_Z (totalSeconds r) - 1) * 1000 < r
     /\ r <= inject_Z (totalSeconds r) * 1000)
    /\ (formatted r = formatted r' <-> totalSeconds r = totalSeconds r')
    /\ (formatted r = "00:00" <-> r == 0).
Proof.
  intros r r' Hr Hr'.
  assert (Hfaithful : forall a b, 0 <= a -> 0 <= b ->
            formatted a = formatted b -> totalSeconds a = totalSeconds b).
  { intros a b Ha Hb H.
    pose proof (totalSeconds_nonneg a Ha) as Hta.
    pose proof (totalSeconds_nonneg b Hb) as Htb.
    unfold formatted, minutes, seconds in H.
    apply cut_at_colon in H.
    - destruct H as [Hm Hs].
      apply padStart_toString_inj in Hm;
        [|apply Z.div_pos; lia|apply Z.div_pos; lia].
      apply padStart_toString_inj in Hs;
        [|apply Z.rem_nonneg; lia|apply Z.rem_nonneg; lia].
      rewrite !Z.rem_mod_nonneg in Hs by lia.
      rewrite (Z.div_mod (totalSeconds a) 60),
        (Z.div_mod (totalSeconds b) 60) by lia.
      now rewrite Hm, Hs.
    - apply padStart_colon_free, toString_colon_free, Z.div_pos; lia.
    - apply padStart_colon_free, toString_colon_free, Z.div_pos; lia. }
  split; [apply totalSeconds_bounds|]. split.
  - split; [now apply Hfaithful|].
    intros H. unfold formatted, minutes, seconds. now rewrite H.
  - pose proof (totalSeconds_bounds r) as [Hlo Hhi].
    split.
    + intros H. change "00:00" with (formatted 0) in H.
      apply Hfaithful in H; [|exact Hr|apply Qle_refl].
      change (totalSeconds 0) with 0%Z in H. rewrite H in Hhi.
      change (inject_Z 0) with 0 in Hhi. lra.
    + intros H.
      assert (E : totalSeconds r = 0%Z).
      { unfold totalSeconds. rewrite H. reflexivity. }
      unfold formatted, minutes, seconds. rewrite E. reflexivity.
Qed.

(** X4. For a positive duration and a remaining time that is not negative,
    the share of the ring that is drawn lies between 0 and 100; it is 0 as
    long as the whole duration remains, 100 exactly when nothing remains,
    and never shrinks as the remaining time goes down. *)
Theorem ring_percent_in_range :
  forall (durationMs r r' : Q),
    0 < durationMs -> 0 <= r -> r <= r' ->
    0 <= percent durationMs r <= 100
    /\ (durationMs <= r -> percent durationMs r == 0)
    /\ (percent durationMs r == 100 <-> r == 0)
    /\ percent durationMs r' <= percent durationMs r.
Proof.
  intros d r r' Hd Hr Hrr'.
  assert (Hshare : forall x, 0 <= x -> 0 <= x / d * 100).
  { intros x Hx. apply Qmult_le_0_compat; [|discriminate].
    apply Qle_shift_div_l; [exact Hd|]. now rewrite Qmult_0_l. }
  assert (Hmono : r / d * 100 <= r' / d * 100).
  { apply Qmult_le_compat_r; [|discriminate].
    apply Qmult_le_compat_r; [exact Hrr'|].
    apply Qinv_le_0_compat. now apply Qlt_le_weak. }
  pose proof (Hshare r Hr) as H0.
  unfold percent.
  destruct (Q.min_spec 100 (r / d * 100)) as [[Hc ->]|[Hc ->]];
    destruct (Q.min_spec 100 (r' / d * 100)) as [[Hc' ->]|[Hc' ->]].
  all: repeat split; try lra.
  all: try (intros Hfull;
            assert (1 <= r / d)
              by (apply Qle_shift_div_l; [exact Hd|]; now rewrite Qmult_1_l);
            lra).
  all: try (intros H100; exfalso; lra).
  all: try (intros Hzero; rewrite Hzero in *;
            assert (E0 : 0 / d * 100 == 0) by (field; lra); lra).
  all: try (intros H100;
            assert (Hq : r / d * 100 == 0) by lra;
            assert (Er : r == r / d * 100 * (d / 100)) by (field; lra);
            rewrite Hq in Er; lra).
Qed.

End TimerDisplayFacts.

(** ** The capture hook: stopping *)

Section AudioRecorderMoreFacts.
Import AudioRecorder.
Context {Sink : Type}.

Lemma set_inactive_state (l : list (MediaRecorder Sink)) (rec : nat)
  (r : MediaRecorder Sink) :
  nth_error l rec = Some r ->
  option_map state (nth_error (set_inactive rec l) rec) = Some inactive.
Proof.
  revert rec. induction l as [|x l IH]; intros [|rec] H; simpl in H;
    try discriminate.
  - reflexivity.
  - rewrite set_inactive_cons. simpl. now apply IH.
Qed.

Lemma stop_when_inactive (h : Hook Sink) (rec : nat) :
  mediaRecorderRef h = Some rec ->
  option_map state (nth_error (recorders h) rec) <> Some recording ->
  stop h = h.
Proof.
  intros Hk Hs. unfold stop. rewrite Hk.
  destruct (option_map state (nth_error (recorders h) rec)) as [[|]|];
    congruence.
Qed.

Lemma stop_leaves_inactive (h : Hook Sink) (rec : nat) :
  mediaRecorderRef (stop h) = Some rec ->
  option_map state (nth_error (recorders (stop h)) rec) <> Some recording.
Proof.
  destruct h as [recs ref isR err seq calls ce].
  unfold stop. simpl. destruct ref as [k|]; [|discriminate].
  destruct (nth_error recs k) as [r|] eqn:Hr; simpl.
  - destruct (state r) eqn:Hs; simpl; intros [= <-].
    + rewrite Hr. simpl. rewrite Hs. discriminate.
    + rewrite (set_inactive_state _ _ _ Hr). discriminate.
  - intros [= <-]. rewrite Hr. discriminate.
Qed.

(** X5. [stop] is safe to call at any time: with no recorder, or with one
    that is already inactive, it changes nothing; calling it twice is the
    same as calling it once; after it the recorder the hook refers to is not
    recording; and it never touches the chunk counter, the calls made to the
    sink, the recording flag or the error. *)
Theorem stop_is_idempotent :
  forall (h : Hook Sink),
    stop (stop h) = stop h
    /\ (mediaRecorderRef h = None -> stop h = h)
    /\ (forall rec,
          mediaRecorderRef h = Some rec ->
          option_map state (nth_error (recorders h) rec) <> Some recording ->
          stop h = h)
    /\ (forall rec,
          mediaRecorderRef (stop h) = Some rec ->
          option_map state (nth_error (recorders (stop h)) rec)
          <> Some recording)
    /\ chunkSequenceRef (stop h) = chunkSequenceRef h
    /\ onChunkCalls (stop h) = onChunkCalls h
    /\ isRecording (stop h) = isRecording h
    /\ error (stop h) = error h.
Proof.
  intros h.
  split.
  { case_eq (mediaRecorderRef (stop h)).
    - intros rec Hk.
      exact (stop_when_inactive (stop h) rec Hk (stop_leaves_inactive h rec Hk)).
    - intros Hk. unfold stop at 1. now rewrite Hk. }
  split; [intros H; unfold stop; now rewrite H|].
  split; [apply stop_when_inactive|].
  split; [apply stop_leaves_inactive|].
  destruct h as [recs ref isR err seq calls ce]. unfold stop. simpl.
  destruct ref as [k|]; [|repeat split].
  destruct (option_map state (nth_error recs k)) as [[|]|]; repeat split.
Qed.

End AudioRecorderMoreFacts.

(** ** The session, from Start to the finalize call *)

Section SessionLifeFacts.
Import Api HomePage PageView.

Lemma phase_eqb_false (a b : SessionPhase) : a <> b -> phase_eqb a b = false.
Proof. destruct a, b; simpl; congruence. Qed.

(** The commit of a render that enters a session from outside one: only the
    event-stream effect has something to do. *)
Lemma commit_session_begins (before st : State) :
  subscription before = None ->
  sessionPhase before <> sessionPhase st ->
  localSummary st = localSummary before ->
  commit before st = eventStream_effect st.
Proof.
  intros Hsub Hphase Hls. unfold commit.
  rewrite (phase_eqb_false _ _ Hphase), Bool.andb_false_r.
  unfold eventStream_cleanup. rewrite Hsub.
  assert (E : localSummary (eventStream_effect st) = localSummary st).
  { unfold eventStream_effect. now destruct (subscription st). }
  cbv beta. unfold skip. rewrite E, Hls, summary_changed_refl. reflexivity.
Qed.

(** The commit of a render that leaves the running session: only the
    cleanup of the event-stream effect has something to do. *)
Lemma commit_session_ends (before st : State) (sid : string) :
  subscription before = Some sid ->
  sessionPhase before <> sessionPhase st ->
  subscription st = None ->
  localSummary st = localSummary before ->
  commit before st
  = setEventSourceRef None (closeEventSource in_effect_cleanup st).
Proof.
  intros Hsub Hphase Hnone Hls. unfold commit.
  rewrite (phase_eqb_false _ _ Hphase), Bool.andb_false_r.
  unfold eventStream_cleanup. rewrite Hsub.
  assert (Hsub' : subscription
                    (setEventSourceRef None
                       (closeEventSource in_effect_cleanup st)) = None).
  { unfold subscription, closeEventSource in *.
    destruct (eventSourceRef st); exact Hnone. }
  assert (E : localSummary
                (setEventSourceRef None
                   (closeEventSource in_effect_cleanup st))
              = localSummary st).
  { unfold closeEventSource. now destruct (eventSourceRef st). }
  cbv beta. unfold eventStream_effect. rewrite Hsub'.
  rewrite E, Hls, summary_changed_refl. reflexivity.
Qed.

(** The state left when the session-start call answers, on a page that is
    not in a running session. *)
Lemma start_resolved_state (st : State) (k : nat) (onChunk : option string)
  (res : SessionStartResponse) :
  sessionPhase st <> running ->
  nth_error (suspended st) k = Some (await_startSession onChunk) ->
  step (Settle k (Resolved_SessionStartResponse res)) st
  = {| sessionPhase := running;
       sessionId := Some (Api.sessionId res);
       events :=
         match initialPrompt res with
         | Some p => EventLog.appendEvent p (events st)
         | None => events st
         end;
       localSummary := localSummary st;
       persistedSummary := persistedSummary st;
       isCompleting := isCompleting st;
       isFetchingPersisted := isFetchingPersisted st;
       error := error st;
       eventSourceRef :=
         match truthy (Some (Api.sessionId res)) with
         | Some sid => Some {| url_sessionId := sid; closed := false |}
         | None => eventSourceRef st
         end;
       completionGuard := completionGuard st; recorder := recorder st;
       latestJournalSummary := latestJournalSummary st;
       suspended :=
         (firstn k (suspended st) ++ skipn (S k) (suspended st))
         ++ [await_getUserMedia onChunk];
       calls :=
         calls st
         ++ Call_getUserMedia
            :: match truthy (Some (Api.sessionId res)) with
               | Some sid => [Call_createPromptEventSource sid]
               | None => []
               end |}.
Proof.
  intros Hphase Hk.
  assert (Hsub : subscription st = None).
  { unfold subscription. destruct (sessionPhase st); congruence. }
  unfold step, handle, settle. rewrite Hk.
  destruct st as [ph id evs ls ps ic ifp er esr g rc cache susp cs].
  destruct res as [rid rexp [p|]]; simpl in Hphase;
    cbn [resume initialPrompt Api.sessionId];
    (rewrite commit_session_begins;
     [|exact Hsub|open_handlers; congruence|reflexivity]);
    destruct rid as [|c rid];
    unfold eventStream_effect, subscription; open_handlers;
    rewrite <- ?(app_assoc cs); reflexivity.
Qed.

(** The state left when the timer runs out on a running session whose guard
    is free. *)
Lemma expire_state (st : State) (sid : string) (es : EventSource) :
  sessionPhase st = running ->
  sessionId st = Some sid -> sid <> ""%string ->
  completionGuard st = false ->
  eventSourceRef st = Some es ->
  step Timer_onExpire st
  = {| sessionPhase := completed; sessionId := sessionId st;
       events := events st; localSummary := localSummary st;
       persistedSummary := persistedSummary st;
       isCompleting := true;
       isFetchingPersisted := isFetchingPersisted st;
       error := error st; eventSourceRef := None;
       completionGuard := true;
       recorder := AudioRecorder.stop (recorder st);
       latestJournalSummary := latestJournalSummary st;
       suspended := suspended st ++ [await_completeSession sid];
       calls :=
         calls st
         ++ [Call_stopRecording;
             Call_eventSource_close in_handleSessionComplete;
             Call_completeSession sid;
             Call_eventSource_close in_effect_cleanup] |}.
Proof.
  intros Hphase Hsid Hne Hguard Hes.
  destruct st as [ph id evs ls ps ic ifp er esr g rc cache susp cs].
  simpl in *. subst.
  destruct sid as [|c sid]; [congruence|].
  unfold step. cbn [handle sessionPhase sessionId].
  rewrite (commit_session_ends _ _ (String c sid));
    [|reflexivity|open_handlers; discriminate|reflexivity|reflexivity].
  unfold closeEventSource. open_handlers.
  rewrite <- !(app_assoc cs). reflexivity.
Qed.

(** X13. From any state in which Start can be clicked, whatever the session
    before left behind (guard taken, summaries, error): the click, the
    answer of the service with a session identifier and the timer running
    out take the page through [running], with the event stream of the new
    session open and the log holding just the initial prompt, to
    [completed], with the guard taken, the stream closed and exactly one
    finalize call made, for the new session. *)
Theorem session_runs_from_start_to_finalize :
  forall (st : State) (res : SessionStartResponse),
    sessionPhase st <> running ->
    Api.sessionId res <> ""%string ->
    let sid := Api.sessionId res in
    let clicked := step Click_Start st in
    let started :=
      step (Settle (List.length (suspended st))
              (Resolved_SessionStartResponse res)) clicked in
    let expired := step Timer_onExpire started in
    (sessionPhase started = running
     /\ sessionId started = Some sid
     /\ timer_isRunning started = true
     /\ eventSourceRef started
        = Some {| url_sessionId := sid; closed := false |}
     /\ events started
        = match initialPrompt res with Some p => [p] | None => [] end)
    /\ (sessionPhase expired = completed
        /\ completionGuard expired = true
        /\ eventSourceRef expired = None
        /\ calls expired
           = calls clicked
             ++ [Call_getUserMedia; Call_createPromptEventSource sid;
                 Call_stopRecording;
                 Call_eventSource_close in_handleSessionComplete;
                 Call_completeSession sid;
                 Call_eventSource_close in_effect_cleanup]
        /\ suspended expired
           = suspended st
             ++ [await_getUserMedia (sessionId st);
                 await_completeSession sid]).
Proof.
  intros st res Hphase Hsid sid clicked started expired.
  pose proof (click_start_state st Hphase) as Hclicked.
  fold clicked in Hclicked.
  destruct (unpark_last (suspended st) (await_startSession (sessionId st)))
    as [Hnth Hrest].
  assert (Hphase' : sessionPhase clicked <> running)
    by (rewrite Hclicked; exact Hphase).
  assert (Hk : nth_error (suspended clicked) (List.length (suspended st))
               = Some (await_startSession (sessionId st)))
    by (rewrite Hclicked; exact Hnth).
  pose proof (start_resolved_state clicked _ _ res Hphase' Hk) as Hstarted.
  fold started in Hstarted.
  assert (Htruthy : truthy (Some sid) = Some sid).
  { subst sid. destruct (Api.sessionId res); [congruence|reflexivity]. }
  fold sid in Hstarted. rewrite Htruthy in Hstarted.
  assert (Hsusp : suspended started
                  = suspended st ++ [await_getUserMedia (sessionId st)]).
  { rewrite Hstarted. cbn [suspended]. rewrite Hclicked. cbn [suspended].
    now rewrite Hrest. }
  assert (Hevents : events started
                    = match initialPrompt res with
                      | Some p => [p]
                      | None => []
                      end).
  { rewrite Hstarted. cbn [events]. rewrite Hclicked. cbn [events].
    now destruct (initialPrompt res). }
  assert (Hguard : completionGuard started = false).
  { rewrite Hstarted. cbn [completionGuard]. now rewrite Hclicked. }
  assert (H1 : sessionPhase started = running) by (now rewrite Hstarted).
  assert (H2 : sessionId started = Some sid) by (now rewrite Hstarted).
  assert (H3 : eventSourceRef started
               = Some {| url_sessionId := sid; closed := false |})
    by (now rewrite Hstarted).
  pose proof (expire_state started sid _ H1 H2 Hsid Hguard H3) as Hexpired.
  fold expired in Hexpired.
  split.
  - split; [exact H1|]. split; [exact H2|]. split.
    + unfold timer_isRunning. now rewrite H1.
    + split; [exact H3|exact Hevents].
  - rewrite Hexpired.
    cbn [sessionPhase completionGuard eventSourceRef calls suspended].
    split; [reflexivity|]. split; [reflexivity|]. split; [reflexivity|].
    split.
    + rewrite Hstarted. cbn [calls]. rewrite <- app_assoc. reflexivity.
    + rewrite Hsusp, <- app_assoc. reflexivity.
Qed.

End SessionLifeFacts.

(** ** The remote calls *)

Section FetchFacts.
Import Api HomePage Fetch.
Local Open Scope string_scope.

Lemma append_inv_head (s a b : string) : s ++ a = s ++ b -> a = b.
Proof. induction s as [|c s IH]; simpl; [auto|]. intros [= H]. auto. Qed.

Lemma list_ascii_of_append (a b : string) :
  list_ascii_of_string (a ++ b)
  = (list_ascii_of_string a ++ list_ascii_of_string b)%list.
Proof. induction a as [|c a IH]; simpl; [reflexivity|]. now rewrite IH. Qed.

Lemma append_inv_tail (a b s : string) : a ++ s = b ++ s -> a = b.
Proof.
  intros H. apply (f_equal list_ascii_of_string) in H.
  rewrite !list_ascii_of_append in H. apply app_inv_tail in H.
  apply (f_equal string_of_list_ascii) in H.
  now rewrite !string_of_list_ascii_of_string in H.
Qed.

(** The decimal text tells the number. *)
Lemma toString_nat_inj (a b : nat) : toString a = toString b -> a = b.
Proof.
  unfold toString. intros H.
  apply (f_equal DecimalString.NilEmpty.uint_of_string) in H.
  rewrite !DecimalString.NilEmpty.usu in H. injection H as H.
  now apply DecimalNat.Unsigned.to_uint_inj.
Qed.

(** X6. What the user is told when a session cannot be started.  From any
    state in which Start can be clicked, the click followed by the answer of
    [POST /sessions]:
    - a response whose status is outside 200..299 leaves the page idle, with
      no session identifier, and the error text ends in that very status,
      whatever the body holds;
    - a request that got no answer leaves the page idle with the message of
      the failure, or the fallback text when what was thrown is no [Error];
    - a 2xx response whose body does not parse leaves the page idle with
      some error text;
    - a 2xx response with a start response in its body puts the page in a
      running session with the identifier it names.
    Two different failing statuses never give the same error text. *)
Theorem start_answer_decides_phase_and_message :
  forall (st : State) (fetched : Fetched SessionStartResponse),
    sessionPhase st <> running ->
    let after :=
      step (Settle (List.length (suspended st)) (startSession fetched))
        (step Click_Start st) in
    match fetched with
    | NoAnswer err =>
        sessionPhase after = idle /\ sessionId after = None
        /\ error after = Some (message_or err "Unable to start session")
    | Answered resp =>
        if ok resp then
          match body resp with
          | Encodes res =>
              sessionPhase after = running
              /\ sessionId after = Some (Api.sessionId res)
              /\ error after = None
          | Unparsable _ =>
              sessionPhase after = idle /\ sessionId after = None
              /\ exists text, error after = Some text
          end
        else
          sessionPhase after = idle /\ sessionId after = None
          /\ error after
             = Some ("API request failed with status "
                     ++ toString (status resp))
          /\ forall resp' : Response SessionStartResponse,
               "API request failed with status " ++ toString (status resp')
               = "API request failed with status " ++ toString (status resp)
               -> status resp' = status resp
    end.
Proof.
  intros st fetched Hphase after.
  pose proof (click_start_state st Hphase) as Hclicked.
  destruct (unpark_last (suspended st) (await_startSession (sessionId st)))
    as [Hnth Hrest].
  assert (Hphase' : sessionPhase (step Click_Start st) <> running)
    by (rewrite Hclicked; exact Hphase).
  assert (Hk : nth_error (suspended (step Click_Start st))
                 (List.length (suspended st))
               = Some (await_startSession (sessionId st)))
    by (rewrite Hclicked; exact Hnth).
  assert (Hfail : forall err,
             startSession fetched = Rejected err ->
             sessionPhase after = idle /\ sessionId after = None
             /\ error after = Some (message_or err "Unable to start session")).
  { intros err E. subst after. rewrite E.
    rewrite (start_rejected_state _ _ _ err Hphase' Hk). auto. }
  destruct fetched as [err|resp].
  - apply Hfail. reflexivity.
  - destruct (ok resp) eqn:Hok.
    + destruct (body resp) as [res|raw] eqn:Hbody.
      * subst after. unfold startSession, apiFetch. rewrite Hok, Hbody.
        cbn [negb JSON_parse].
        rewrite (start_resolved_state _ _ _ res Hphase' Hk).
        cbn [sessionPhase sessionId error]. rewrite Hclicked. auto.
      * destruct (Hfail (ErrorObj "Unexpected token in JSON")) as (H1 & H2 & H3).
        { unfold startSession, apiFetch. now rewrite Hok, Hbody. }
        split; [exact H1|]. split; [exact H2|]. eexists. exact H3.
    + destruct (Hfail (ErrorObj ("API request failed with status "
                                 ++ toString (status resp))))
        as (H1 & H2 & H3).
      { unfold startSession, apiFetch. now rewrite Hok. }
      split; [exact H1|]. split; [exact H2|]. split; [exact H3|].
      intros resp' E. apply append_inv_head in E.
      now apply toString_nat_inj.
Qed.

(** X7. The chunks of one recording go out under names of their own: from
    the moment [start] has set up a recorder, as long as no further [start]
    sets up another recorder (which would put the shared counter back to 0)
    and that recorder is the only one producing data, the forms built for
    the chunks handed to the sink have pairwise different file names and
    pairwise different ["sequence"] fields. *)
Theorem chunk_forms_are_distinct :
  forall (Sink : Type) (sink : Sink) (h : AudioRecorder.Hook Sink)
         (evs : list (AudioRecorder.Event Sink)),
    AudioRecorder.only_from (List.length (AudioRecorder.recorders h)) evs ->
    AudioRecorder.no_further_recorder evs ->
    let handed :=
      skipn (List.length (AudioRecorder.onChunkCalls h))
        (AudioRecorder.onChunkCalls
           (AudioRecorder.run evs (AudioRecorder.start_resolved sink None h))) in
    NoDup (map (fun c => chunk_filename
                           (uploadAudioChunk_form (AudioRecorder.sequence c)))
             handed)
    /\ NoDup (map (fun c => sequence_field
                              (uploadAudioChunk_form (AudioRecorder.sequence c)))
                handed).
Proof.
  intros Sink sink h evs Honly Hnone handed.
  set (started := AudioRecorder.start_resolved sink None h) in *.
  assert (Hsink :
            option_map AudioRecorder.onChunk
              (nth_error (AudioRecorder.recorders started)
                 (List.length (AudioRecorder.recorders h))) = Some sink).
  { unfold started, AudioRecorder.start_resolved. simpl.
    rewrite nth_error_app2, Nat.sub_diag by apply Nat.le_refl. reflexivity. }
  destruct (run_sequence evs started _ sink Hsink Honly Hnone)
    as (new & Hcalls & Hseq & _ & _).
  assert (Hhanded : handed = new).
  { subst handed. rewrite Hcalls. unfold started. simpl.
    rewrite skipn_app, skipn_all, Nat.sub_diag. reflexivity. }
  rewrite Hhanded.
  assert (Hnd : NoDup (map AudioRecorder.sequence new))
    by (rewrite Hseq; apply seq_NoDup).
  split.
  - rewrite <- (map_map AudioRecorder.sequence
                  (fun n => chunk_filename (uploadAudioChunk_form n))).
    apply Finite.Injective_map_NoDup; [|exact Hnd].
    intros a b E. simpl in E.
    apply (append_inv_head "audio-") in E. apply append_inv_tail in E.
    now apply toString_nat_inj.
  - rewrite <- (map_map AudioRecorder.sequence
                  (fun n => sequence_field (uploadAudioChunk_form n))).
    apply Finite.Injective_map_NoDup; [|exact Hnd].
    intros a b E. now apply toString_nat_inj.
Qed.

End FetchFacts.

(** ** What React's commit leaves alone *)

Section CommitFrameFacts.
Import Api HomePage PageView.

Lemma effect_only_skip : effect_only skip.
Proof.
  intros st. exists (eventSourceRef st), (localSummary st), [].
  destruct st. unfold skip. simpl. rewrite app_nil_r. auto.
Qed.

Lemma effect_only_seq (f g : Cmd) :
  effect_only f -> effect_only g -> effect_only (f ;; g).
Proof.
  intros Hf Hg st.
  destruct (Hf st) as (r1 & l1 & e1 & E1 & B1).
  destruct (Hg (f st)) as (r2 & l2 & e2 & E2 & B2).
  exists r2, l2, (e1 ++ e2). split.
  - rewrite E2, E1. destruct st. simpl. now rewrite app_assoc.
  - now rewrite forallb_app, B1, B2.
Qed.

Lemma effect_only_call (c : Call) : by_effect c = true -> effect_only (call c).
Proof.
  intros Hc st. exists (eventSourceRef st), (localSummary st), [c].
  destruct st. simpl. now rewrite Hc.
Qed.

Lemma effect_only_setEventSourceRef (v : option EventSource) :
  effect_only (setEventSourceRef v).
Proof.
  intros st. exists v, (localSummary st), [].
  destruct st. simpl. rewrite app_nil_r. auto.
Qed.

Lemma effect_only_setLocalSummary (v : option SessionSummary) :
  effect_only (setLocalSummary v).
Proof.
  intros st. exists (eventSourceRef st), v, [].
  destruct st. simpl. rewrite app_nil_r. auto.
Qed.

Lemma effect_only_eventStream_cleanup (before : State) :
  effect_only (eventStream_cleanup before).
Proof.
  unfold eventStream_cleanup.
  destruct (subscription before); [|apply effect_only_skip].
  apply effect_only_seq; [|apply effect_only_setEventSourceRef].
  intros st. unfold closeEventSource.
  destruct (eventSourceRef st); [|apply effect_only_skip].
  apply (effect_only_seq _ _
           (effect_only_call (Call_eventSource_close in_effect_cleanup)
              eq_refl)
           (effect_only_setEventSourceRef _)).
Qed.

Lemma effect_only_eventStream_effect : effect_only eventStream_effect.
Proof.
  intros st. unfold eventStream_effect.
  destruct (subscription st) as [sid|]; [|apply effect_only_skip].
  apply (effect_only_seq _ _
           (effect_only_call (Call_createPromptEventSource sid) eq_refl)
           (effect_only_setEventSourceRef _)).
Qed.

Lemma effect_only_rehydration_effect : effect_only rehydration_effect.
Proof.
  intros st. unfold rehydration_effect.
  destruct (cached_text st) as [cached|]; [|apply effect_only_skip].
  destruct (localSummary st); [apply effect_only_skip|].
  destruct (JSON_parse cached).
  - apply (effect_only_call Call_console_error eq_refl).
  - apply effect_only_setLocalSummary.
Qed.

(** React's commit changes the event-source reference, the local summary
    and the calls made, and nothing else. *)
Lemma effect_only_commit (before : State) : effect_only (commit before).
Proof.
  assert (Hstream :
            effect_only
              (fun st =>
                 if sessionId_eqb (sessionId before) (sessionId st)
                    && phase_eqb (sessionPhase before) (sessionPhase st)
                 then st
                 else (eventStream_cleanup before ;; eventStream_effect) st)).
  { intros s. destruct (_ && _); [apply effect_only_skip|].
    apply (effect_only_seq _ _ (effect_only_eventStream_cleanup before)
             effect_only_eventStream_effect). }
  assert (Hrehydrate :
            effect_only
              (fun st =>
                 if summary_changed (localSummary before) (localSummary st)
                 then rehydration_effect st
                 else st)).
  { intros s. destruct (summary_changed _ _); [|apply effect_only_skip].
    apply effect_only_rehydration_effect. }
  exact (effect_only_seq _ _ Hstream Hrehydrate).
Qed.

Lemma by_effect_no_upload (extra : list Call) :
  forallb by_effect extra = true -> filter is_uploadAudioChunk extra = [].
Proof.
  induction extra as [|c extra IH]; simpl; [reflexivity|].
  intros H. apply andb_true_iff in H as [Hc Hrest].
  destruct c; simpl in *; try discriminate; auto.
Qed.

(** The fields a commit never writes. *)
Lemma commit_keeps (before st : State) :
  sessionPhase (commit before st) = sessionPhase st
  /\ sessionId (commit before st) = sessionId st
  /\ suspended (commit before st) = suspended st
  /\ recorder (commit before st) = recorder st
  /\ isCompleting (commit before st) = isCompleting st
  /\ isFetchingPersisted (commit before st) = isFetchingPersisted st
  /\ persistedSummary (commit before st) = persistedSummary st
  /\ error (commit before st) = error st
  /\ events (commit before st) = events st
  /\ made is_uploadAudioChunk (commit before st) = made is_uploadAudioChunk st.
Proof.
  destruct (effect_only_commit before st) as (ref & ls & extra & E & B).
  rewrite E. destruct st. unfold made. simpl.
  rewrite filter_app, (by_effect_no_upload extra B), app_nil_r.
  repeat split.
Qed.

Lemma sessionId_eqb_eq (a b : option string) :
  sessionId_eqb a b = true -> a = b.
Proof.
  destruct a, b; simpl; try discriminate; [|reflexivity].
  intros H. apply String.eqb_eq in H. now subst.
Qed.

Lemma phase_eqb_eq (a b : SessionPhase) : phase_eqb a b = true -> a = b.
Proof. destruct a, b; simpl; congruence. Qed.

End CommitFrameFacts.

(** ** The event stream follows the session *)

Section EventStreamFacts.
Import Api HomePage PageView.

(** No handler puts another event source behind the reference: it can only
    close the one that is there. *)
Lemma handle_keeps_url (ev : HomePage.Event) (st : State) :
  option_map url_sessionId (eventSourceRef (handle ev st))
  = option_map url_sessionId (eventSourceRef st).
Proof.
  destruct st as [ph id evs ls ps ic ifp er esr g rc cache susp cs].
  destruct ev as [| |sid|k o|text| |rec blob| |rec]; unfold handle.
  - destruct ph; reflexivity.
  - cbn [sessionPhase]. destruct ph; try reflexivity.
    unfold handleSessionComplete. cbn [completionGuard sessionId].
    destruct (truthy id), g; try reflexivity.
    open_handlers. destruct esr; reflexivity.
  - unfold handleSessionComplete. cbn [completionGuard].
    destruct (truthy sid), g; try reflexivity.
    open_handlers. destruct esr; reflexivity.
  - unfold settle. cbn [suspended].
    destruct (nth_error susp k) as [kont|]; [|reflexivity].
    destruct kont, o; cbn [resume]; try reflexivity.
    destruct (initialPrompt res); reflexivity.
  - unfold onmessage. cbn [eventSourceRef].
    destruct esr as [[u [|]]|]; try reflexivity.
    destruct text; reflexivity.
  - unfold onerror. cbn [eventSourceRef].
    destruct esr as [[u [|]]|]; reflexivity.
  - unfold ondataavailable. cbv zeta. cbn [recorder].
    destruct (skipn _ _) as [|c l]; [reflexivity|].
    destruct (truthy (AudioRecorder.to c)); reflexivity.
  - reflexivity.
  - reflexivity.
Qed.

Lemma cleanup_drops_the_source (before st : State) :
  option_map url_sessionId (eventSourceRef st) = subscription before ->
  eventSourceRef (eventStream_cleanup before st) = None
  /\ subscription (eventStream_cleanup before st) = subscription st.
Proof.
  intros H. unfold eventStream_cleanup.
  destruct (subscription before) as [sid|].
  - unfold closeEventSource. destruct (eventSourceRef st); split; reflexivity.
  - unfold skip. split; [|reflexivity].
    destruct (eventSourceRef st); [discriminate|reflexivity].
Qed.

Lemma effect_opens_the_source (st : State) :
  eventSourceRef st = None -> stream_matches (eventStream_effect st).
Proof.
  intros H. unfold stream_matches, eventStream_effect.
  destruct (subscription st) as [sid|] eqn:Hsub.
  - cbn [eventSourceRef setEventSourceRef option_map url_sessionId].
    unfold subscription in *. simpl. now rewrite Hsub.
  - now rewrite H, Hsub.
Qed.

Lemma rehydration_keeps_stream (st : State) :
  stream_matches st -> stream_matches (rehydration_effect st).
Proof.
  unfold rehydration_effect.
  destruct (cached_text st) as [cached|]; [|auto].
  destruct (localSummary st); [auto|].
  destruct (JSON_parse cached); auto.
Qed.

Lemma commit_restores_stream (before st : State) :
  stream_matches before ->
  option_map url_sessionId (eventSourceRef st)
  = option_map url_sessionId (eventSourceRef before) ->
  stream_matches (commit before st).
Proof.
  intros Hbefore Hurl. unfold commit.
  assert (Hstream :
            stream_matches
              (if sessionId_eqb (sessionId before) (sessionId st)
                  && phase_eqb (sessionPhase before) (sessionPhase st)
               then st
               else (eventStream_cleanup before ;; eventStream_effect) st)).
  { destruct (_ && _) eqn:Hdeps.
    - apply andb_true_iff in Hdeps as [Hid Hph].
      apply sessionId_eqb_eq in Hid. apply phase_eqb_eq in Hph.
      unfold stream_matches in *. rewrite Hurl, Hbefore.
      unfold subscription. now rewrite Hid, Hph.
    - apply effect_opens_the_source.
      apply cleanup_drops_the_source. now rewrite Hurl. }
  cbv zeta. destruct (summary_changed _ _); [|exact Hstream].
  now apply rehydration_keeps_stream.
Qed.

Lemma stream_matches_run (evs : list HomePage.Event) (st : State) :
  stream_matches st -> stream_matches (run evs st).
Proof.
  revert st. induction evs as [|ev evs IH]; intros st H; [exact H|].
  simpl. apply IH. unfold step.
  apply commit_restores_stream; [exact H|apply handle_keeps_url].
Qed.

(** X8. In every state the page reaches, the event source it refers to is
    the one of the running session: if there is one, the phase is [running]
    and its URL carries the current session identifier; while a session with
    an identifier is running there is one; and outside a running session
    there is none, so no message is admitted to the log then. *)
Theorem event_stream_follows_the_session :
  forall (evs : list HomePage.Event) (cache : option (JSONText Cached)),
    let st := run evs (mount cache) in
    (forall es,
        eventSourceRef st = Some es ->
        sessionPhase st = running
        /\ sessionId st = Some (url_sessionId es)
        /\ url_sessionId es <> ""%string)
    /\ (forall sid,
          sessionPhase st = running -> sessionId st = Some sid ->
          sid <> ""%string ->
          exists es, eventSourceRef st = Some es /\ url_sessionId es = sid)
    /\ (sessionPhase st <> running ->
        eventSourceRef st = None
        /\ forall text, events (step (EventSource_onmessage text) st)
                        = events st).
Proof.
  intros evs cache st.
  assert (H : stream_matches st).
  { apply stream_matches_run. unfold mount.
    apply rehydration_keeps_stream. now apply effect_opens_the_source. }
  unfold stream_matches, subscription in H.
  split; [|split].
  - intros es Hes. rewrite Hes in H. simpl in H.
    destruct (sessionPhase st); try discriminate.
    destruct (sessionId st) as [[|c s]|]; try discriminate.
    simpl in H. injection H as H. rewrite H.
    split; [reflexivity|]. split; [reflexivity|discriminate].
  - intros sid Hph Hsid Hne. rewrite Hph, Hsid in H.
    destruct sid as [|c s]; [congruence|]. simpl in H.
    destruct (eventSourceRef st) as [es|]; [|discriminate].
    exists es. split; [reflexivity|]. simpl in H. congruence.
  - intros Hph.
    assert (Hnone : eventSourceRef st = None).
    { destruct (sessionPhase st); try congruence;
        destruct (eventSourceRef st); try discriminate; reflexivity. }
    split; [exact Hnone|].
    intros text. unfold step.
    destruct (commit_keeps st (handle (EventSource_onmessage text) st))
      as (_ & _ & _ & _ & _ & _ & _ & _ & E & _).
    rewrite E. unfold handle, onmessage. now rewrite Hnone.
Qed.

End EventStreamFacts.

(** ** The spinners *)

Section SpinnerFacts.
Import Api HomePage PageView.

Lemma pending_after_unpark (p : Continuation -> bool)
  (l : list Continuation) (k : nat) (y : Continuation) :
  nth_error l k = Some y -> p y = false ->
  (exists x, In x l /\ p x = true) ->
  exists x, In x (firstn k l ++ skipn (S k) l) /\ p x = true.
Proof.
  intros Hk Hy (x & Hin & Hx). exists x. split; [|exact Hx].
  rewrite <- (firstn_skipn_middle k l Hk) in Hin.
  apply in_app_or in Hin as [Hin|[Heq|Hin]]; apply in_or_app; auto.
  subst. congruence.
Qed.

Lemma pending_app (p : Continuation -> bool) (l l' : list Continuation) :
  (exists x, In x l /\ p x = true) ->
  exists x, In x (l ++ l') /\ p x = true.
Proof.
  intros (x & Hin & Hx). exists x. split; [|exact Hx].
  apply in_or_app. now left.
Qed.

Lemma pending_last (p : Continuation -> bool) (l : list Continuation)
  (x : Continuation) :
  p x = true -> exists y, In y (l ++ [x]) /\ p y = true.
Proof.
  intros Hx. exists x. split; [|exact Hx]. apply in_or_app. right. now left.
Qed.

Lemma handleSessionComplete_spinners (sid : option string) (st : State) :
  spinners_justified st -> spinners_justified (handleSessionComplete sid st).
Proof.
  intros H. destruct st as [ph id evs ls ps ic ifp er esr g rc cache susp cs].
  unfold handleSessionComplete. cbn [completionGuard].
  destruct (truthy sid) as [s|]; [|exact H]. destruct g; [exact H|].
  destruct H as [Hf Hc]. unfold spinners_justified in *. simpl in Hf, Hc.
  open_handlers. destruct esr; simpl; split; intros Hflag.
  all: try solve [apply pending_app; auto].
  all: apply (pending_last is_completion); reflexivity.
Qed.

Lemma settle_spinners (k : nat) (o : Outcome) (st : State) :
  spinners_justified st -> spinners_justified (settle k o st).
Proof.
  intros H. unfold settle.
  destruct (nth_error (suspended st) k) as [kont|] eqn:Hk; [|exact H].
  destruct (resume kont o) as [rest|] eqn:Hr; [|exact H].
  destruct st as [ph id evs ls ps ic ifp er esr g rc cache susp cs].
  destruct H as [Hf Hc]. unfold spinners_justified in *.
  cbn [suspended isFetchingPersisted isCompleting] in Hk, Hf, Hc.
  pose proof (pending_after_unpark is_await_fetchPersistedSummary susp k kont Hk)
    as Uf.
  pose proof (pending_after_unpark is_completion susp k kont Hk) as Uc.
  destruct kont, o; simpl in Hr; try discriminate; injection Hr as <-;
    try match goal with
        | |- context [initialPrompt ?r] => destruct (initialPrompt r)
        end;
    open_handlers;
    remember (firstn k susp ++ skipn (S k) susp) as remaining eqn:Hrem;
    clear Hrem; simpl; split; intros Hflag; try discriminate.
  all: try (apply pending_app; auto; fail).
  all: try (apply Uf; auto; fail).
  all: try (apply Uc; auto; fail).
  all: try (apply (pending_last is_await_fetchPersistedSummary); reflexivity).
  all: try (apply (pending_last is_completion); reflexivity).
Qed.

Lemma handle_spinners (ev : HomePage.Event) (st : State) :
  spinners_justified st -> spinners_justified (handle ev st).
Proof.
  intros H. destruct ev as [| |sid|k o|text| |rec blob| |rec]; unfold handle.
  - destruct (sessionPhase st) eqn:Hph; try exact H;
      destruct st; split; simpl; discriminate.
  - destruct (sessionPhase st); try exact H.
    now apply handleSessionComplete_spinners.
  - now apply handleSessionComplete_spinners.
  - now apply settle_spinners.
  - unfold onmessage. destruct (eventSourceRef st) as [[u [|]]|]; try exact H.
    destruct (JSON_parse text); exact H.
  - unfold onerror. destruct (eventSourceRef st) as [[u [|]]|] eqn:E;
      try exact H.
    destruct st. simpl in E. subst. exact H.
  - unfold ondataavailable. cbv zeta.
    destruct (skipn _ _) as [|c l]; [exact H|].
    destruct (truthy (AudioRecorder.to c)); exact H.
  - exact H.
  - exact H.
Qed.

Lemma step_spinners (ev : HomePage.Event) (st : State) :
  spinners_justified st -> spinners_justified (step ev st).
Proof.
  intros H. unfold step.
  pose proof (handle_spinners ev st H) as [Hf Hc].
  destruct (commit_keeps st (handle ev st))
    as (_ & _ & Es & _ & Ec & Ef & _).
  unfold spinners_justified. rewrite Es, Ec, Ef. split; assumption.
Qed.

(** X12. The spinners never hang.  In every state the page reaches: the
    banner that completion is in progress ([isCompleting]) is on only while
    a finalize call or a fetch of the persisted summary is awaited, and the
    status line reads that the summary is being saved only while such a
    fetch is awaited. *)
Theorem spinners_only_while_a_call_is_out :
  forall (evs : list HomePage.Event) (cache : option (JSONText Cached)),
    let st := run evs (mount cache) in
    (isCompleting st = true ->
     exists k, In k (suspended st) /\ is_completion k = true)
    /\ (summaryStatusMessage st
        = Some "Saving your reflections to the journal..."%string ->
        exists k, In k (suspended st)
                  /\ is_await_fetchPersistedSummary k = true).
Proof.
  intros evs cache st.
  assert (H : spinners_justified st).
  { subst st.
    assert (H0 : spinners_justified (mount cache)).
    { unfold mount.
      destruct (effect_only_seq _ _ effect_only_eventStream_effect
                  effect_only_rehydration_effect (first_render cache))
        as (ref & ls & extra & E & _).
      rewrite E. split; simpl; discriminate. }
    revert H0. generalize (mount cache).
    induction evs as [|ev evs IH]; intros s Hs; [exact Hs|].
    simpl. apply IH. now apply step_spinners. }
  destruct H as [Hf Hc]. split; [exact Hc|].
  intros Hmsg. apply Hf. unfold summaryStatusMessage in Hmsg.
  destruct (localSummary st); [|discriminate].
  destruct (persistedSummary st), (isFetchingPersisted st);
    try discriminate; reflexivity.
Qed.

End SpinnerFacts.

(** ** The audio of a page's first session *)

Section FirstSessionFacts.
Import Api HomePage PageView.

Lemma Forall_unpark {A : Type} (P : A -> Prop) (l : list A) (k : nat) :
  Forall P l -> Forall P (firstn k l ++ skipn (S k) l).
Proof.
  intros H. revert k. induction H as [|x l Hx Hl IH]; intros k.
  - destruct k; constructor.
  - destruct k as [|k]; [exact Hl|]. simpl. constructor; auto.
Qed.

Lemma Forall_nth_error {A : Type} (P : A -> Prop) (l : list A) (k : nat)
  (x : A) :
  Forall P l -> nth_error l k = Some x -> P x.
Proof.
  intros H Hk. rewrite Forall_forall in H. apply H.
  eapply nth_error_In. exact Hk.
Qed.

Lemma Forall_last {A : Type} (P : A -> Prop) (l : list A) (x : A) :
  Forall P l -> P x -> Forall P (l ++ [x]).
Proof. intros Hl Hx. apply Forall_app. split; auto. Qed.

Lemma set_inactive_sinks {Sink : Type} (P : Sink -> Prop) (rec : nat)
  (l : list (AudioRecorder.MediaRecorder Sink)) :
  Forall (fun r => P (AudioRecorder.onChunk r)) l ->
  Forall (fun r => P (AudioRecorder.onChunk r))
    (AudioRecorder.set_inactive rec l).
Proof.
  intros H. unfold AudioRecorder.set_inactive.
  apply Forall_app. split.
  - rewrite <- (firstn_skipn rec l) in H. now apply Forall_app in H.
  - apply Forall_app. split.
    + destruct (nth_error l rec) as [r|] eqn:E; constructor; [|constructor].
      exact (Forall_nth_error _ l rec r H E).
    + rewrite <- (firstn_skipn (S rec) l) in H. now apply Forall_app in H.
Qed.

Lemma stop_sinks {Sink : Type} (P : Sink -> Prop)
  (h : AudioRecorder.Hook Sink) :
  Forall (fun r => P (AudioRecorder.onChunk r)) (AudioRecorder.recorders h) ->
  Forall (fun r => P (AudioRecorder.onChunk r))
    (AudioRecorder.recorders (AudioRecorder.stop h)).
Proof.
  intros H. unfold AudioRecorder.stop.
  destruct (AudioRecorder.mediaRecorderRef h) as [rec|]; [|exact H].
  destruct (option_map _ _) as [[|]|]; try exact H.
  simpl. now apply set_inactive_sinks.
Qed.

Lemma stopped_sinks {Sink : Type} (P : Sink -> Prop) (rec : nat)
  (h : AudioRecorder.Hook Sink) :
  Forall (fun r => P (AudioRecorder.onChunk r)) (AudioRecorder.recorders h) ->
  Forall (fun r => P (AudioRecorder.onChunk r))
    (AudioRecorder.recorders (AudioRecorder.stopped rec h)).
Proof.
  intros H. unfold AudioRecorder.stopped.
  destruct (nth_error _ _); [|exact H].
  simpl. now apply set_inactive_sinks.
Qed.

Lemma start_resolved_sinks {Sink : Type} (P : Sink -> Prop) (sink : Sink)
  (constructor_throws : option Thrown) (h : AudioRecorder.Hook Sink) :
  P sink ->
  Forall (fun r => P (AudioRecorder.onChunk r)) (AudioRecorder.recorders h) ->
  Forall (fun r => P (AudioRecorder.onChunk r))
    (AudioRecorder.recorders
       (AudioRecorder.start_resolved sink constructor_throws h)).
Proof.
  intros Hs H. destruct constructor_throws; simpl; [exact H|].
  now apply Forall_last.
Qed.

(** A chunk handed to a [handleAudioChunk] that holds no session id is not
    uploaded. *)
Lemma ondataavailable_sinks (rec : nat) (blob : AudioRecorder.Blob)
  (st : State) :
  Forall (fun r => AudioRecorder.onChunk r = None)
    (AudioRecorder.recorders (recorder st)) ->
  calls (ondataavailable rec blob st) = calls st
  /\ AudioRecorder.recorders (recorder (ondataavailable rec blob st))
     = AudioRecorder.recorders (recorder st)
  /\ suspended (ondataavailable rec blob st) = suspended st
  /\ sessionId (ondataavailable rec blob st) = sessionId st.
Proof.
  intros H. destruct st as [ph id evs ls ps ic ifp er esr g rc cache susp cs].
  cbn [recorder] in H. unfold ondataavailable. cbv zeta. cbn [recorder].
  unfold AudioRecorder.dataavailable.
  destruct (nth_error (AudioRecorder.recorders rc) rec) as [r|] eqn:E.
  - destruct (0 <? AudioRecorder.size blob)%N.
    + cbn [AudioRecorder.onChunkCalls AudioRecorder.recorders].
      rewrite skipn_app, skipn_all, Nat.sub_diag. cbn [app skipn].
      cbn [AudioRecorder.to].
      rewrite (Forall_nth_error _ _ rec r H E). simpl. auto.
    + rewrite skipn_all. simpl. auto.
  - rewrite skipn_all. simpl. auto.
Qed.

Lemma handleSessionComplete_sinks (sid : option string) (st : State) :
  sinks_empty st -> sinks_empty (handleSessionComplete sid st).
Proof.
  intros H. unfold handleSessionComplete.
  destruct (truthy sid) as [s|]; [|exact H].
  destruct (completionGuard st) eqn:G; [exact H|].
  destruct st as [ph id evs ls ps ic ifp er esr g rc cache susp cs].
  destruct H as (Hr & Hs & Hc). unfold sinks_empty, made in *.
  cbn [recorder suspended calls] in Hr, Hs, Hc.
  open_handlers. destruct esr; cbn [recorder suspended calls];
    rewrite ?filter_app, ?length_app; simpl; rewrite Hc;
    (split; [now apply (stop_sinks (fun s => s = None))|split; [|reflexivity]]);
    now apply Forall_last.
Qed.

Lemma settle_sinks (k : nat) (o : Outcome) (st : State) :
  sinks_empty st -> sinks_empty (settle k o st).
Proof.
  intros H. unfold settle.
  destruct (nth_error (suspended st) k) as [kont|] eqn:Hk; [|exact H].
  destruct (resume kont o) as [rest|] eqn:Hr; [|exact H].
  destruct st as [ph id evs ls ps ic ifp er esr g rc cache susp cs].
  destruct H as (Hrec & Hs & Hc). unfold sinks_empty, made in *.
  cbn [recorder suspended calls] in Hk, Hrec, Hs, Hc.
  pose proof (Forall_nth_error _ _ _ _ Hs Hk) as Hkont.
  pose proof (Forall_unpark _ _ k Hs) as Hrest.
  destruct kont, o; simpl in Hr; try discriminate; injection Hr as <-;
    try match goal with
        | |- context [initialPrompt ?r] => destruct (initialPrompt r)
        end;
    open_handlers;
    remember (firstn k susp ++ skipn (S k) susp) as remaining eqn:Hrem;
    clear Hrem; cbn [recorder suspended calls];
    rewrite ?filter_app, ?length_app; simpl length; rewrite ?Hc;
    (split; [|split; [|reflexivity]]);
    try assumption.
  all: try (apply Forall_last; [assumption|exact Hkont || reflexivity]).
  all: try (apply (start_resolved_sinks (fun s => s = None));
             [exact Hkont|assumption]).
Qed.

Ltac sinks_frame H :=
  let Hr := fresh "Hr" in
  let Hs := fresh "Hs" in
  let Hc := fresh "Hc" in
  destruct H as (Hr & Hs & Hc); unfold sinks_empty, made in *;
  open_handlers; cbn [HomePage.recorder HomePage.suspended HomePage.calls] in *;
  rewrite ?filter_app, ?length_app; simpl List.length; rewrite ?Hc; auto.

Lemma handle_sinks (ev : HomePage.Event) (st : State) :
  ev <> Click_Start -> sinks_empty st -> sinks_empty (handle ev st).
Proof.
  intros Hev H. destruct ev as [| |sid|k o|text| |rec blob| |rec];
    unfold handle.
  - congruence.
  - destruct (sessionPhase st); try exact H.
    now apply handleSessionComplete_sinks.
  - now apply handleSessionComplete_sinks.
  - now apply settle_sinks.
  - destruct st as [ph id evs ls ps ic ifp er esr g rc cache susp cs].
    unfold onmessage. cbn [eventSourceRef].
    destruct esr as [[u [|]]|]; try exact H.
    destruct (JSON_parse text); sinks_frame H.
  - destruct st as [ph id evs ls ps ic ifp er esr g rc cache susp cs].
    unfold onerror. cbn [eventSourceRef].
    destruct esr as [[u [|]]|]; try exact H.
    sinks_frame H.
  - destruct H as (Hr & Hs & Hc).
    destruct (ondataavailable_sinks rec blob st Hr) as (Ec & Er & Es & _).
    unfold sinks_empty, made. rewrite Ec, Er, Es. auto.
  - destruct st. exact H.
  - destruct H as (Hr & Hs & Hc). destruct st. split; [|split; assumption].
    now apply (stopped_sinks (fun s => s = None)).
Qed.

Lemma step_sinks (ev : HomePage.Event) (st : State) :
  ev <> Click_Start -> sinks_empty st -> sinks_empty (step ev st).
Proof.
  intros Hev H. unfold step.
  destruct (handle_sinks ev st Hev H) as (Hr & Hs & Hc).
  destruct (commit_keeps st (handle ev st))
    as (_ & _ & Es & Er & _ & _ & _ & _ & _ & Em).
  unfold sinks_empty. rewrite Es, Er, Em. auto.
Qed.

Lemma run_sinks (evs : list HomePage.Event) (st : State) :
  ~ In Click_Start evs -> sinks_empty st -> sinks_empty (run evs st).
Proof.
  revert st. induction evs as [|ev evs IH]; intros st Hno H; [exact H|].
  simpl. apply IH.
  - intros Hin. apply Hno. now right.
  - apply step_sinks; [|exact H]. intros ->. apply Hno. now left.
Qed.

(** Until Start is clicked there is no session id. *)
Lemma handleSessionComplete_never_started (sid : option string) (st : State) :
  never_started st -> never_started (handleSessionComplete sid st).
Proof.
  intros H. unfold handleSessionComplete.
  destruct (truthy sid) as [s|]; [|exact H].
  destruct (completionGuard st) eqn:G; [exact H|].
  destruct st as [ph id evs ls ps ic ifp er esr g rc cache susp cs].
  destruct H as (Hid & Hs). unfold never_started in *.
  cbn [sessionId suspended] in Hid, Hs.
  open_handlers. destruct esr; cbn [sessionId suspended];
    (split; [exact Hid|]); now apply Forall_last.
Qed.

Lemma settle_never_started (k : nat) (o : Outcome) (st : State) :
  never_started st -> never_started (settle k o st).
Proof.
  intros H. unfold settle.
  destruct (nth_error (suspended st) k) as [kont|] eqn:Hk; [|exact H].
  destruct (resume kont o) as [rest|] eqn:Hr; [|exact H].
  destruct st as [ph id evs ls ps ic ifp er esr g rc cache susp cs].
  destruct H as (Hid & Hs). unfold never_started in *.
  cbn [sessionId suspended] in Hk, Hid, Hs.
  pose proof (Forall_nth_error _ _ _ _ Hs Hk) as Hkont.
  pose proof (Forall_unpark _ _ k Hs) as Hrest.
  destruct kont, o; simpl in Hr, Hkont; try discriminate; injection Hr as <-;
    open_handlers;
    remember (firstn k susp ++ skipn (S k) susp) as remaining eqn:Hrem;
    clear Hrem; cbn [sessionId suspended];
    (split; [exact Hid|]); try assumption.
  all: now apply Forall_last.
Qed.

Lemma handle_never_started (ev : HomePage.Event) (st : State) :
  ev <> Click_Start -> never_started st -> never_started (handle ev st).
Proof.
  intros Hev H. destruct ev as [| |sid|k o|text| |rec blob| |rec];
    unfold handle.
  - congruence.
  - destruct (sessionPhase st); try exact H.
    now apply handleSessionComplete_never_started.
  - now apply handleSessionComplete_never_started.
  - now apply settle_never_started.
  - unfold onmessage. destruct (eventSourceRef st) as [[u [|]]|]; try exact H.
    destruct (JSON_parse text); destruct st; exact H.
  - unfold onerror. destruct (eventSourceRef st) as [[u [|]]|] eqn:E;
      try exact H.
    destruct st. simpl in E. subst. exact H.
  - unfold ondataavailable. cbv zeta.
    destruct (skipn _ _) as [|c l]; [destruct st; exact H|].
    destruct (truthy (AudioRecorder.to c)); destruct st; exact H.
  - destruct st. exact H.
  - destruct st. exact H.
Qed.

Lemma run_never_started (evs : list HomePage.Event) (st : State) :
  ~ In Click_Start evs -> sinks_empty st -> never_started st ->
  sinks_empty (run evs st) /\ never_started (run evs st).
Proof.
  intros Hno Hs H. split; [now apply run_sinks|].
  clear Hs. revert st Hno H.
  induction evs as [|ev evs IH]; intros st Hno H; [exact H|].
  simpl. apply IH.
  - intros Hin. apply Hno. now right.
  - assert (Hev : ev <> Click_Start) by (intros ->; apply Hno; now left).
    pose proof (handle_never_started ev st Hev H) as [Hid Hsusp].
    unfold step.
    destruct (commit_keeps st (handle ev st)) as (_ & Ei & Es & _).
    unfold never_started. rewrite Ei, Es. auto.
Qed.

(** The first click: the [startRecording] it captures was made from the
    [handleAudioChunk] of a render without session id. *)
Lemma first_click_sinks (st : State) :
  sinks_empty st -> sessionId st = None -> sinks_empty (step Click_Start st).
Proof.
  intros (Hr & Hs & Hc) Hid. unfold step.
  destruct (commit_keeps st (handle Click_Start st))
    as (_ & _ & Es & Er & _ & _ & _ & _ & _ & Em).
  unfold sinks_empty. rewrite Es, Er, Em. clear Es Er Em.
  unfold handle. destruct (sessionPhase st); auto.
  all: destruct st as [ph id evs ls ps ic ifp er esr g rc cache susp cs];
    unfold made in *; cbn [recorder suspended calls sessionId] in *; subst id;
    open_handlers; cbn [recorder suspended calls];
    rewrite filter_app, length_app, Hc;
    (split; [exact Hr|split; [|reflexivity]]);
    now apply Forall_last.
Qed.

Lemma mount_pristine (cache : option (JSONText Cached)) :
  sinks_empty (mount cache) /\ never_started (mount cache).
Proof.
  unfold mount.
  destruct (effect_only_seq _ _ effect_only_eventStream_effect
              effect_only_rehydration_effect (first_render cache))
    as (ref & ls & extra & E & B).
  rewrite E. unfold sinks_empty, never_started, made. simpl.
  rewrite (by_effect_no_upload extra B). repeat split; constructor.
Qed.

(** X9. The audio of a page's first session is never uploaded.
    [handleSessionStart] calls the [startRecording] of the render in which
    Start was clicked, whose [handleAudioChunk] still holds
    [sessionId = null] and returns at its first line.  Whatever happens
    before and after the first click on Start (answers, chunks, expiries,
    stream traffic), no call of [uploadAudioChunk] is made, and every
    recorder made hands its chunks to a sink without session id. *)
Theorem first_session_uploads_nothing :
  forall (before after : list HomePage.Event)
         (cache : option (JSONText Cached)),
    ~ In Click_Start before -> ~ In Click_Start after ->
    let st := run (before ++ Click_Start :: after) (mount cache) in
    made is_uploadAudioChunk st = 0%nat
    /\ Forall (fun r => AudioRecorder.onChunk r = None)
         (AudioRecorder.recorders (recorder st)).
Proof.
  intros before after cache Hb Ha st.
  assert (H : sinks_empty st).
  { subst st. unfold run. rewrite fold_left_app. cbn [fold_left].
    apply run_sinks; [exact Ha|].
    destruct (mount_pristine cache) as [Hs Hn].
    destruct (run_never_started before (mount cache) Hb Hs Hn) as [Hs' Hn'].
    apply first_click_sinks; [exact Hs'|exact (proj1 Hn')]. }
  destruct H as (Hr & _ & Hc). auto.
Qed.

End FirstSessionFacts.

(** ** After the session *)

Section CompletedFacts.
Import Api HomePage PageView.

Lemma handleSessionComplete_completed (sid : option string) (st : State) :
  sessionPhase st = completed -> eventSourceRef st = None ->
  Forall (fun k => is_await_startSession k = false) (suspended st) ->
  sessionPhase (handleSessionComplete sid st) = completed
  /\ sessionId (handleSessionComplete sid st) = sessionId st
  /\ events (handleSessionComplete sid st) = events st
  /\ Forall (fun k => is_await_startSession k = false)
       (suspended (handleSessionComplete sid st)).
Proof.
  intros Hph Hes Hs. unfold handleSessionComplete.
  destruct (truthy sid) as [s|]; [|auto].
  destruct (completionGuard st) eqn:G; [auto|].
  destruct st as [ph id evs ls ps ic ifp er esr g rc cache susp cs].
  cbn [sessionPhase eventSourceRef suspended] in Hph, Hes, Hs. subst ph esr.
  open_handlers. repeat split. now apply Forall_last.
Qed.

Lemma settle_completed (k : nat) (o : Outcome) (st : State) :
  sessionPhase st = completed ->
  Forall (fun k => is_await_startSession k = false) (suspended st) ->
  sessionPhase (settle k o st) = completed
  /\ sessionId (settle k o st) = sessionId st
  /\ events (settle k o st) = events st
  /\ Forall (fun k => is_await_startSession k = false)
       (suspended (settle k o st)).
Proof.
  intros Hph Hs. unfold settle.
  destruct (nth_error (suspended st) k) as [kont|] eqn:Hk; [|auto].
  destruct (resume kont o) as [rest|] eqn:Hr; [|auto].
  destruct st as [ph id evs ls ps ic ifp er esr g rc cache susp cs].
  cbn [sessionPhase suspended] in Hph, Hk, Hs. subst ph.
  pose proof (Forall_nth_error _ _ _ _ Hs Hk) as Hkont.
  pose proof (Forall_unpark _ _ k Hs) as Hrest.
  destruct kont, o; simpl in Hr, Hkont; try discriminate; injection Hr as <-;
    open_handlers;
    remember (firstn k susp ++ skipn (S k) susp) as remaining eqn:Hrem;
    clear Hrem; repeat split; try assumption.
  all: now apply Forall_last.
Qed.

Lemma handle_completed (ev : HomePage.Event) (st : State) :
  ev <> Click_Start ->
  sessionPhase st = completed -> eventSourceRef st = None ->
  Forall (fun k => is_await_startSession k = false) (suspended st) ->
  sessionPhase (handle ev st) = completed
  /\ sessionId (handle ev st) = sessionId st
  /\ events (handle ev st) = events st
  /\ Forall (fun k => is_await_startSession k = false)
       (suspended (handle ev st)).
Proof.
  intros Hev Hph Hes Hs.
  destruct ev as [| |sid|k o|text| |rec blob| |rec]; unfold handle.
  - congruence.
  - rewrite Hph. auto.
  - now apply handleSessionComplete_completed.
  - now apply settle_completed.
  - unfold onmessage. rewrite Hes. auto.
  - unfold onerror. rewrite Hes. auto.
  - unfold ondataavailable. cbv zeta.
    destruct (skipn _ _) as [|c l]; [destruct st; auto|].
    destruct (truthy (AudioRecorder.to c)); destruct st; auto.
  - destruct st. auto.
  - destruct st. auto.
Qed.

(** X10. A completed session stays completed.  Once the page has reached
    the phase [completed] and no start call is awaited, nothing but a new
    click on Start changes the phase, the session id or the event log, and
    no event stream is opened. *)
Theorem completed_until_restarted :
  forall (evs more : list HomePage.Event)
         (cache : option (JSONText Cached)),
    let st := run evs (mount cache) in
    sessionPhase st = completed ->
    Forall (fun k => is_await_startSession k = false) (suspended st) ->
    ~ In Click_Start more ->
    let st' := run more st in
    sessionPhase st' = completed
    /\ sessionId st' = sessionId st
    /\ events st' = events st
    /\ eventSourceRef st' = None.
Proof.
  intros evs more cache st Hph Hs Hno.
  assert (Hm : stream_matches st).
  { apply stream_matches_run. unfold mount.
    apply rehydration_keeps_stream. now apply effect_opens_the_source. }
  clearbody st. revert st Hph Hs Hm.
  induction more as [|ev more IH]; intros st Hph Hs Hm.
  - simpl. repeat split; auto.
    unfold stream_matches, subscription in Hm. rewrite Hph in Hm.
    now destruct (eventSourceRef st).
  - assert (Hes : eventSourceRef st = None).
    { unfold stream_matches, subscription in Hm. rewrite Hph in Hm.
      now destruct (eventSourceRef st). }
    assert (Hev : ev <> Click_Start) by (intros ->; apply Hno; now left).
    destruct (handle_completed ev st Hev Hph Hes Hs) as (Hp & Hi & He & Hf).
    destruct (commit_keeps st (handle ev st))
      as (Ep & Ei & Es & _ & _ & _ & _ & _ & Ee & _).
    assert (Hno' : ~ In Click_Start more) by (intros H; apply Hno; now right).
    assert (Hm' : stream_matches (step ev st))
      by exact (stream_matches_run [ev] st Hm).
    cbn [run fold_left].
    destruct (IH Hno' (step ev st)) as (R1 & R2 & R3 & R4).
    + unfold step. now rewrite Ep.
    + unfold step. now rewrite Es.
    + exact Hm'.
    + unfold run in *. simpl in *. repeat split; auto.
      * rewrite R2. unfold step. now rewrite Ei.
      * rewrite R3. unfold step. now rewrite Ee.
Qed.

(** The state left when the finalize call fails. *)
Lemma finalize_rejected_state (st : State) (k : nat) (sid : string)
  (err : Thrown) :
  nth_error (suspended st) k = Some (await_completeSession sid) ->
  step (Settle k (Rejected err)) st
  = {| sessionPhase := sessionPhase st; sessionId := sessionId st;
       events := events st; localSummary := localSummary st;
       persistedSummary := persistedSummary st;
       isCompleting := false; isFetchingPersisted := false;
       error := Some (message_or err "Session completion failed");
       eventSourceRef := eventSourceRef st;
       completionGuard := completionGuard st; recorder := recorder st;
       latestJournalSummary := latestJournalSummary st;
       suspended := firstn k (suspended st) ++ skipn (S k) (suspended st);
       calls := calls st ++ [Call_console_error] |}.
Proof.
  intros Hk.
  destruct st as [ph id evs ls ps ic ifp er esr g rc cache susp cs].
  simpl in Hk. unfold step, handle, settle. simpl suspended. rewrite Hk.
  rewrite commit_same_deps by reflexivity.
  open_handlers. reflexivity.
Qed.

(** X11. A failed finalize call.  When [completeSession] rejects for a
    completed session that has no summary to show, the error state holds the
    failure's message and the banner goes off, but the summary column shows
    the placeholder that a summary will appear momentarily although no call
    is made for one: nothing is fetched, nothing is cached, the guard stays
    set, so a repeated invocation of the completion handler changes
    nothing. *)
Theorem failed_finalize_leaves_placeholder :
  forall (st : State) (k : nat) (sid : string) (err : Thrown),
    nth_error (suspended st) k = Some (await_completeSession sid) ->
    sessionPhase st = completed ->
    completionGuard st = true ->
    displayedSummary st = None ->
    let st' := step (Settle k (Rejected err)) st in
    error st' = Some (message_or err "Session completion failed")
    /\ isCompleting st' = false
    /\ summaryColumn st' = Column_placeholder
    /\ calls st' = calls st ++ [Call_console_error]
    /\ suspended st' = firstn k (suspended st) ++ skipn (S k) (suspended st)
    /\ latestJournalSummary st' = latestJournalSummary st
    /\ forall captured,
         step (Invoke_handleSessionComplete captured) st' = st'.
Proof.
  intros st k sid err Hk Hph Hg Hd st'.
  subst st'. rewrite (finalize_rejected_state st k sid err Hk).
  unfold summaryColumn, displayedSummary in *. cbn [persistedSummary localSummary
    sessionPhase isCompleting error calls suspended latestJournalSummary].
  rewrite Hph. destruct (persistedSummary st); [discriminate|]. rewrite Hd.
  repeat split.
  intros captured. unfold step, handle, handleSessionComplete.
  cbn [completionGuard]. rewrite Hg.
  destruct (truthy captured); apply commit_unchanged.
Qed.

End CompletedFacts.

(** ** Completion happens once, and in full *)

Section CompletionOnce.
Import Api HomePage PageView.








Lemma filter_sequence_last (l : list Call) (c : Call) :
  filter is_sequence_call (l ++ [c])
  = filter is_sequence_call l ++ (if is_sequence_call c then [c] else []).
Proof. now rewrite filter_app. Qed.


End CompletionOnce.

(** ** The audio of a later session *)

Section LaterSessionFacts.
Import Api HomePage PageView.

Lemma getUserMedia_resolved_state (st : State) (k : nat)
  (onChunk : option string) (constructor_throws : option Thrown) :
  nth_error (suspended st) k = Some (await_getUserMedia onChunk) ->
  step (Settle k (Resolved_MediaStream constructor_throws)) st
  = setRecorder
      (AudioRecorder.start_resolved onChunk constructor_throws (recorder st))
      (unpark k st).
Proof.
  intros Hk. unfold step, handle, settle. rewrite Hk. cbn [resume].
  apply commit_same_deps; reflexivity.
Qed.

(** A chunk with data from a recorder whose [handleAudioChunk] holds a
    session id is uploaded under that id. *)
Lemma dataavailable_uploads (st : State) (rec : nat)
  (r : AudioRecorder.MediaRecorder (option string)) (sid : string)
  (blob : AudioRecorder.Blob) :
  nth_error (AudioRecorder.recorders (recorder st)) rec = Some r ->
  AudioRecorder.onChunk r = Some sid -> sid <> ""%string ->
  (0 < AudioRecorder.size blob)%N ->
  calls (step (Recorder_dataavailable rec blob) st)
  = calls st
    ++ [Call_uploadAudioChunk sid
          (S (AudioRecorder.chunkSequenceRef (recorder st)))]
  /\ sessionId (step (Recorder_dataavailable rec blob) st) = sessionId st
  /\ sessionPhase (step (Recorder_dataavailable rec blob) st)
     = sessionPhase st.
Proof.
  intros Hr Hsink Hsid Hsize. apply N.ltb_lt in Hsize.
  assert (E : handle (Recorder_dataavailable rec blob) st
              = call (Call_uploadAudioChunk sid
                        (S (AudioRecorder.chunkSequenceRef (recorder st))))
                  (setRecorder
                     (AudioRecorder.dataavailable rec blob (recorder st)) st)).
  { unfold handle, ondataavailable. cbv zeta.
    unfold AudioRecorder.dataavailable at 1. rewrite Hr, Hsize.
    cbn [AudioRecorder.onChunkCalls].
    rewrite skipn_app, skipn_all, Nat.sub_diag. cbn [app skipn].
    cbn [AudioRecorder.to AudioRecorder.sequence]. rewrite Hsink.
    destruct sid as [|c sid]; [congruence|]. reflexivity. }
  unfold step. rewrite E. rewrite commit_same_deps by reflexivity.
  destruct st. simpl. auto.
Qed.

(** X18. The audio of a later session goes out under the id of the session
    before.  [handleSessionStart] uses the [startRecording] of the render in
    which Start was clicked, and its [handleAudioChunk] holds the
    [sessionId] of that render.  When Start is clicked on a page that still
    holds the id of an earlier session, the service opens a new session and
    the microphone is granted, the first chunk with data is uploaded with
    sequence number 1 under the earlier session's id, while the page's
    session is the new one. *)
Theorem later_session_uploads_under_previous_id :
  forall (st : State) (res : SessionStartResponse) (previous : string)
         (blob : AudioRecorder.Blob),
    sessionPhase st <> running ->
    sessionId st = Some previous -> previous <> ""%string ->
    (0 < AudioRecorder.size blob)%N ->
    let n := List.length (suspended st) in
    let listening :=
      run [Click_Start; Settle n (Resolved_SessionStartResponse res);
           Settle n (Resolved_MediaStream None)] st in
    let rec := List.length (AudioRecorder.recorders (recorder st)) in
    let uploading := step (Recorder_dataavailable rec blob) listening in
    sessionId listening = Some (Api.sessionId res)
    /\ sessionPhase listening = running
    /\ calls uploading
       = calls listening ++ [Call_uploadAudioChunk previous 1]
    /\ sessionId uploading = Some (Api.sessionId res).
Proof.
  intros st res previous blob Hph Hid Hprev Hsize n listening rec uploading.
  destruct (unpark_last (suspended st) (await_startSession (sessionId st)))
    as [N1 U1].
  destruct (unpark_last (suspended st) (await_getUserMedia (sessionId st)))
    as [N2 U2].
  pose proof (click_start_state st Hph) as E1.
  set (clicked := step Click_Start st) in *.
  assert (P1 : sessionPhase clicked <> running) by (rewrite E1; exact Hph).
  assert (K1 : nth_error (suspended clicked) n
               = Some (await_startSession (sessionId st)))
    by (rewrite E1; exact N1).
  pose proof (start_resolved_state clicked n (sessionId st) res P1 K1) as E2.
  set (started := step (Settle n (Resolved_SessionStartResponse res)) clicked)
    in *.
  assert (S2 : suspended started
               = suspended st ++ [await_getUserMedia (sessionId st)]).
  { rewrite E2. cbn [suspended]. rewrite E1. cbn [suspended].
    subst n. now rewrite U1. }
  assert (K2 : nth_error (suspended started) n
               = Some (await_getUserMedia (sessionId st)))
    by (rewrite S2; exact N2).
  pose proof (getUserMedia_resolved_state started n (sessionId st) None K2)
    as E3.
  assert (EL : listening
               = step (Settle n (Resolved_MediaStream None)) started)
    by reflexivity.
  rewrite <- EL in E3.
  assert (R2 : recorder started = recorder st).
  { rewrite E2. cbn [recorder]. rewrite E1. reflexivity. }
  assert (I3 : sessionId listening = Some (Api.sessionId res)).
  { rewrite E3. change (sessionId started = Some (Api.sessionId res)).
    rewrite E2. reflexivity. }
  assert (P3 : sessionPhase listening = running).
  { rewrite E3. change (sessionPhase started = running).
    rewrite E2. reflexivity. }
  assert (R3 : recorder listening
               = AudioRecorder.start_resolved (sessionId st) None
                   (recorder st)).
  { rewrite E3. rewrite <- R2. reflexivity. }
  destruct (dataavailable_uploads listening rec
              {| AudioRecorder.state := AudioRecorder.recording;
                 AudioRecorder.onChunk := sessionId st |}
              previous blob) as (Hc & Hi & _).
  - rewrite R3. cbn [AudioRecorder.start_resolved AudioRecorder.recorders].
    subst rec. rewrite nth_error_app2, Nat.sub_diag by apply Nat.le_refl.
    reflexivity.
  - exact Hid.
  - exact Hprev.
  - exact Hsize.
  - repeat split; auto.
    + fold uploading in Hc. rewrite Hc, R3. reflexivity.
    + fold uploading in Hi. now rewrite Hi.
Qed.

End LaterSessionFacts.

(* ================================================================== *)
(** ** The journal history page *)

Section SortFacts.
Context {A : Type} (comparefn : A -> A -> option Z).
Context (le : A -> A -> Prop) (good : A -> Prop).
Hypothesis le_trans : forall x y z, le x y -> le y z -> le x z.
Hypothesis comparefn_spec :
  forall x y, good x -> good y ->
    if 0 <? SortCompare comparefn x y then le y x else le x y.

Lemma insert_sorted_by (x : A) (l : list A) :
  good x -> Forall good l ->
  StronglySorted le l -> StronglySorted le (insert comparefn x l).
Proof.
  intros Hx Hl Hs.
  induction Hs as [|y rest Hrest IH Hy]; simpl.
  - constructor; constructor.
  - inversion Hl as [|? ? Hgy Hgrest]; subst.
    pose proof (comparefn_spec x y Hx Hgy) as Hcmp.
    destruct (0 <? SortCompare comparefn x y).
    + constructor; [now apply IH|].
      apply (Permutation_Forall
               (Permutation_sym (insert_Permutation comparefn x rest))).
      now constructor.
    + constructor; [now constructor|].
      constructor; [exact Hcmp|].
      eapply Forall_impl; [|exact Hy].
      intros z Hz. exact (le_trans x y z Hcmp Hz).
Qed.

Lemma Array_sort_sorted_by (l : list A) :
  Forall good l -> StronglySorted le (Array_sort comparefn l).
Proof.
  induction 1 as [|x rest Hx Hrest IH]; simpl.
  - constructor.
  - apply insert_sorted_by; trivial.
    apply (Permutation_Forall
             (Permutation_sym (Array_sort_Permutation comparefn rest))).
    exact Hrest.
Qed.

End SortFacts.

Section HistoryPageFacts.
Import HistoryPage.

Lemma started_ge_trans (a b c : JournalEntryMeta) :
  started_ge a b -> started_ge b c -> started_ge a c.
Proof.
  unfold started_ge.
  destruct (Date_getTime (sessionStartedAt a)),
    (Date_getTime (sessionStartedAt b)),
    (Date_getTime (sessionStartedAt c)); try tauto; lia.
Qed.

Lemma bySessionStartedAt_spec (x y : JournalEntryMeta) :
  dated x -> dated y ->
  if 0 <? SortCompare bySessionStartedAt x y
  then started_ge y x
  else started_ge x y.
Proof.
  unfold dated, SortCompare, bySessionStartedAt, started_ge.
  destruct (Date_getTime (sessionStartedAt x)) as [tx|]; [|congruence].
  destruct (Date_getTime (sessionStartedAt y)) as [ty|]; [|congruence].
  intros _ _. destruct (Z.ltb_spec 0 (ty - tx)); lia.
Qed.

Lemma entryId_eqb_refl (a : option string) : entryId_eqb a a = true.
Proof. destruct a; simpl; [apply String.eqb_refl|reflexivity]. Qed.

Lemma entryId_eqb_neq (a b : option string) :
  a <> b -> entryId_eqb a b = false.
Proof.
  destruct a as [x|], b as [y|]; simpl; try reflexivity.
  - intros H. apply String.eqb_neq. congruence.
  - congruence.
Qed.

(** A settled load never re-runs an effect. *)
Lemma settle_keeps_selection (k : nat) (o : Outcome) (st : State) :
  selectedEntryId (settle k o st) = selectedEntryId st.
Proof.
  unfold settle. destruct (nth_error (suspended st) k) as [kont|]; [|auto].
  destruct kont, o; reflexivity.
Qed.

Lemma step_settle (k : nat) (o : Outcome) (st : State) :
  step (Settle k o) st = settle k o st.
Proof.
  unfold step, commit, handle.
  now rewrite settle_keeps_selection, entryId_eqb_refl.
Qed.

(** X14. The list of past sessions is shown newest first.  When the
    history request is answered, the page keeps exactly the entries of the
    answer, sorted by start time from the latest to the earliest, and the
    loading note goes away; the ordering assumes each entry's
    [sessionStartedAt] parses to a time. *)
Theorem history_is_listed_newest_first :
  forall (st : State) (k : nat) (history : list JournalEntryMeta),
    nth_error (suspended st) k = Some await_fetchJournalHistory ->
    Forall dated history ->
    let st' := step (Settle k (Resolved_history history)) st in
    Permutation history (entries st')
    /\ StronglySorted started_ge (entries st')
    /\ isLoadingEntries st' = false
    /\ error st' = error st
    /\ selectedEntryId st' = selectedEntryId st.
Proof.
  intros st k history Hk Hd st'. subst st'.
  rewrite step_settle. unfold settle. rewrite Hk. simpl.
  repeat split.
  - apply Permutation_sym, Array_sort_Permutation.
  - apply (Array_sort_sorted_by bySessionStartedAt started_ge dated
             started_ge_trans bySessionStartedAt_spec).
    exact Hd.
Qed.

(** X15. The error note never goes away.  No handler of the history page
    resets [error]: once a load has failed, the note stays through every
    later click and every later answer, also the successful ones. *)
Theorem history_error_is_never_cleared :
  forall (evs : list Event) (st : State),
    error st <> None -> error (run evs st) <> None.
Proof.
  induction evs as [|ev evs IH]; intros st H; [exact H|].
  simpl. apply IH. clear IH.
  assert (Hl : forall s, error s <> None -> error (loadSummary s) <> None).
  { intros s Hs. unfold loadSummary.
    destruct (truthy (selectedEntryId s)); exact Hs. }
  assert (Hh : error (handle ev st) <> None).
  { destruct ev as [i|k o]; unfold handle.
    - unfold onClick. destruct (isLoadingEntries st); [exact H|].
      destruct (nth_error (entries st) i); exact H.
    - unfold settle.
      destruct (nth_error (suspended st) k) as [kont|]; [|exact H].
      destruct kont, o; simpl; try exact H; discriminate. }
  unfold step, commit.
  destruct (entryId_eqb _ _); [exact Hh|now apply Hl].
Qed.

(** Selecting another entry starts the load of its summary. *)
Lemma click_loads (st : State) (i : nat) (e : JournalEntryMeta) :
  isLoadingEntries st = false ->
  nth_error (entries st) i = Some e ->
  selectedEntryId st <> Some (id e) ->
  id e <> ""%string ->
  step (Click_entry i) st
  = {| entries := entries st; selectedEntryId := Some (id e);
       selectedSummary := selectedSummary st;
       isLoadingEntries := false; isLoadingSummary := true;
       error := error st;
       suspended := suspended st ++ [await_fetchJournalEntry (id e)];
       calls := calls st ++ [Call_fetchJournalEntry (id e)] |}.
Proof.
  intros Hl Hi Hsel Hid.
  unfold step, handle, onClick, commit. rewrite Hl, Hi.
  cbn [selectedEntryId]. rewrite (entryId_eqb_neq _ _ Hsel).
  unfold loadSummary. cbn [selectedEntryId truthy].
  destruct (id e) as [|c s] eqn:E; [congruence|].
  cbn. rewrite ?Hl. reflexivity.
Qed.

(** The answer of a load is shown, whichever entry it was asked for. *)
Lemma answer_shown (st : State) (k : nat) (entryId : string)
  (s : Api.SessionSummary) :
  nth_error (suspended st) k = Some (await_fetchJournalEntry entryId) ->
  step (Settle k (Resolved_summary s)) st
  = {| entries := entries st; selectedEntryId := selectedEntryId st;
       selectedSummary := Some s;
       isLoadingEntries := isLoadingEntries st; isLoadingSummary := false;
       error := error st;
       suspended := firstn k (suspended st) ++ skipn (S k) (suspended st);
       calls := calls st |}.
Proof.
  intros Hk. rewrite step_settle. unfold settle. rewrite Hk. reflexivity.
Qed.

Lemma find_by_id (selected : string) (l : list JournalEntryMeta) :
  In selected (map id l) ->
  exists e, find (fun entry => (id entry =? selected)%string) l = Some e
            /\ id e = selected.
Proof.
  induction l as [|x l IH]; simpl; [tauto|].
  intros H. destruct (String.eqb_spec (id x) selected) as [E|E].
  - exists x. auto.
  - apply IH. destruct H; [contradiction|assumption].
Qed.

(** X16. An answer that arrives late is shown under the wrong entry.
    [loadSummary] does not check, when its request is answered, that the
    entry it asked for is still the selected one.  If entry [a] is selected,
    then entry [b], and the answer for [b] arrives before the answer for
    [a], the page ends up with [b] selected and titled, showing the summary
    of [a]; and the loading note is already gone after the first answer,
    while the other load is still out. *)
Theorem late_answer_shows_under_other_entry :
  forall (st : State) (i j : nat) (a b : JournalEntryMeta)
         (sa sb : Api.SessionSummary),
    isLoadingEntries st = false ->
    nth_error (entries st) i = Some a ->
    nth_error (entries st) j = Some b ->
    selectedEntryId st <> Some (id a) ->
    id a <> id b -> id a <> ""%string -> id b <> ""%string ->
    let n := List.length (suspended st) in
    let first_answer :=
      run [Click_entry i; Click_entry j; Settle (S n) (Resolved_summary sb)]
        st in
    let last_answer := step (Settle n (Resolved_summary sa)) first_answer in
    isLoadingSummary first_answer = false
    /\ suspended first_answer
       = suspended st ++ [await_fetchJournalEntry (id a)]
    /\ selectedEntryId last_answer = Some (id b)
    /\ selectedSummary last_answer = Some sa
    /\ suspended last_answer = suspended st
    /\ exists shown,
         activeEntry last_answer = Some shown /\ id shown = id b
         /\ detail last_answer = Detail_card sa (sessionStartedAt shown).
Proof.
  intros st i j a b sa sb Hl Hi Hj Hsel Hab Ha Hb n first_answer last_answer.
  assert (E1 : step (Click_entry i) st
               = {| entries := entries st; selectedEntryId := Some (id a);
                    selectedSummary := selectedSummary st;
                    isLoadingEntries := false; isLoadingSummary := true;
                    error := error st;
                    suspended := suspended st ++ [await_fetchJournalEntry (id a)];
                    calls := calls st ++ [Call_fetchJournalEntry (id a)] |})
    by now apply click_loads.
  set (s1 := step (Click_entry i) st) in *.
  assert (E2 : step (Click_entry j) s1
               = {| entries := entries st; selectedEntryId := Some (id b);
                    selectedSummary := selectedSummary st;
                    isLoadingEntries := false; isLoadingSummary := true;
                    error := error st;
                    suspended := (suspended st ++ [await_fetchJournalEntry (id a)])
                                 ++ [await_fetchJournalEntry (id b)];
                    calls := (calls st ++ [Call_fetchJournalEntry (id a)])
                             ++ [Call_fetchJournalEntry (id b)] |}).
  { rewrite (click_loads s1 j b); rewrite ?E1; cbn; auto. congruence. }
  set (s2 := step (Click_entry j) s1) in *.
  assert (Hn : S n = List.length (suspended st ++ [await_fetchJournalEntry (id a)])).
  { subst n. rewrite length_app. simpl. lia. }
  destruct (unpark_last (suspended st ++ [await_fetchJournalEntry (id a)])
              (await_fetchJournalEntry (id b))) as [N2 U2].
  destruct (unpark_last (suspended st) (await_fetchJournalEntry (id a)))
    as [N1 U1].
  assert (E3 : first_answer
               = {| entries := entries st; selectedEntryId := Some (id b);
                    selectedSummary := Some sb;
                    isLoadingEntries := false; isLoadingSummary := false;
                    error := error st;
                    suspended := suspended st ++ [await_fetchJournalEntry (id a)];
                    calls := (calls st ++ [Call_fetchJournalEntry (id a)])
                             ++ [Call_fetchJournalEntry (id b)] |}).
  { subst first_answer. cbn [run fold_left]. fold s1. fold s2.
    rewrite (answer_shown s2 (S n) (id b)).
    - rewrite E2. cbn [entries selectedEntryId isLoadingEntries error
                       suspended calls]. rewrite Hn, U2. reflexivity.
    - rewrite E2. cbn [suspended]. rewrite Hn. exact N2. }
  assert (E4 : last_answer
               = {| entries := entries st; selectedEntryId := Some (id b);
                    selectedSummary := Some sa;
                    isLoadingEntries := false; isLoadingSummary := false;
                    error := error st;
                    suspended := suspended st;
                    calls := (calls st ++ [Call_fetchJournalEntry (id a)])
                             ++ [Call_fetchJournalEntry (id b)] |}).
  { subst last_answer.
    rewrite (answer_shown first_answer n (id a)).
    - rewrite E3. cbn [entries selectedEntryId isLoadingEntries error
                       suspended calls]. subst n. rewrite U1. reflexivity.
    - rewrite E3. cbn [suspended]. exact N1. }
  rewrite E4, E3. cbn [isLoadingSummary suspended selectedEntryId
                         selectedSummary].
  repeat split.
  destruct (find_by_id (id b) (entries st)) as (shown & Hf & Hid).
  { apply in_map. eapply nth_error_In. exact Hj. }
  exists shown. unfold detail, activeEntry.
  cbn [isLoadingSummary selectedSummary selectedEntryId entries].
  rewrite Hf. auto.
Qed.

Lemma In_unpark {A : Type} (l : list A) (k : nat) (x : A) :
  In x (firstn k l ++ skipn (S k) l) -> In x l.
Proof.
  revert k. induction l as [|y l IH]; intros k H.
  - destruct k; exact H.
  - destruct k as [|k]; [now right|].
    simpl in H. destruct H as [H|H]; [now left|right; eauto].
Qed.

Lemma counted {A : Type} (p : A -> bool) (l : list A) (x : A) :
  In x l -> p x = true -> (1 <= List.length (filter p l))%nat.
Proof.
  intros Hin Hp.
  assert (H : In x (filter p l)) by (apply filter_In; auto).
  destruct (filter p l); [contradiction|simpl; lia].
Qed.

Lemma loadSummary_coherent (st : State) :
  coherent st -> coherent (loadSummary st).
Proof.
  intros (H1 & H2 & H3 & H4 & H5). unfold loadSummary.
  destruct (truthy (selectedEntryId st)) as [entryId|] eqn:T;
    unfold coherent; cbn [entries selectedEntryId selectedSummary suspended].
  - assert (Hsel : selectedEntryId st <> None)
      by (destruct (selectedEntryId st); [discriminate|discriminate]).
    rewrite filter_app, length_app. simpl. rewrite Nat.add_0_r.
    repeat split; auto.
    + apply H2. apply in_app_or in H as [H|[H|[]]]; [exact H|discriminate].
    + apply H2. apply in_app_or in H as [H|[H|[]]]; [exact H|discriminate].
  - repeat split; auto; try apply H2; auto.
Qed.

Lemma commit_coherent (before st : State) :
  coherent st -> coherent (commit before st).
Proof.
  intros H. unfold commit. destruct (entryId_eqb _ _); [exact H|].
  now apply loadSummary_coherent.
Qed.

Lemma onClick_coherent (i : nat) (st : State) :
  coherent st -> coherent (onClick i st).
Proof.
  intros H. unfold onClick. destruct (isLoadingEntries st); [exact H|].
  destruct (nth_error (entries st) i) as [e|] eqn:E; [|exact H].
  destruct H as (H1 & H2 & H3 & H4 & H5).
  unfold coherent; cbn [entries selectedEntryId selectedSummary suspended].
  repeat split; auto.
  - destruct (H2 H) as [Hnil _]. rewrite Hnil in E. now destruct i.
  - destruct (H2 H) as [Hnil _]. rewrite Hnil in E. now destruct i.
  - intros selected [= <-]. apply in_map. eapply nth_error_In. exact E.
  - discriminate.
  - discriminate.
Qed.

Lemma settle_coherent (k : nat) (o : Outcome) (st : State) :
  coherent st -> coherent (settle k o st).
Proof.
  intros H. unfold settle.
  destruct (nth_error (suspended st) k) as [kont|] eqn:Hk; [|exact H].
  destruct (resume kont o) as [rest|] eqn:Hr; [|exact H].
  destruct H as (H1 & H2 & H3 & H4 & H5).
  pose proof (filter_unpark is_await_fetchJournalHistory _ _ _ Hk) as Hcount.
  pose proof (nth_error_In _ _ Hk) as Hin.
  assert (Hless :
            (List.length
               (filter is_await_fetchJournalHistory
                  (firstn k (suspended st) ++ skipn (S k) (suspended st)))
             <= 1)%nat) by lia.
  destruct kont, o; simpl in Hr; try discriminate; injection Hr as <-;
    unfold coherent, unpark;
    cbn [entries selectedEntryId selectedSummary suspended];
    cbn [is_await_fetchJournalHistory] in Hcount.
  - (* the history arrives *)
    destruct (H2 Hin) as [_ Hnone].
    assert (Hgone :
              ~ In await_fetchJournalHistory
                  (firstn k (suspended st) ++ skipn (S k) (suspended st))).
    { intros Hstill.
      pose proof (counted is_await_fetchJournalHistory _ _ Hstill eq_refl).
      lia. }
    repeat split; auto; try contradiction.
    + intros selected Hsel. congruence.
    + intros entryId Hp. apply (H5 entryId). eapply In_unpark. exact Hp.
  - (* the history request fails *)
    repeat split; auto.
    + apply H2. eapply In_unpark. exact H.
    + apply H2. eapply In_unpark. exact H.
    + intros entryId Hp. apply (H5 entryId). eapply In_unpark. exact Hp.
  - (* the answer of a summary request *)
    repeat split; auto.
    + apply H2. eapply In_unpark. exact H.
    + apply H2. eapply In_unpark. exact H.
    + intros _. exact (H5 entryId Hin).
    + intros entryId' Hp. apply (H5 entryId'). eapply In_unpark. exact Hp.
  - (* a summary request fails *)
    repeat split; auto.
    + apply H2. eapply In_unpark. exact H.
    + apply H2. eapply In_unpark. exact H.
    + intros entryId' Hp. apply (H5 entryId'). eapply In_unpark. exact Hp.
Qed.

Lemma run_coherent (evs : list Event) (st : State) :
  coherent st -> coherent (run evs st).
Proof.
  revert st. induction evs as [|ev evs IH]; intros st H; [exact H|].
  simpl. apply IH. unfold step. apply commit_coherent.
  destruct ev as [i|k o]; simpl.
  - now apply onClick_coherent.
  - now apply settle_coherent.
Qed.

Lemma mount_coherent : coherent mount.
Proof.
  unfold coherent, mount. simpl. repeat split; auto; try discriminate.
  intros entryId [H|[]]. discriminate.
Qed.

(** X17. The selected entry is always in the list.  Whatever is clicked
    and however the requests are answered, the selection is the id of a
    listed entry, so [activeEntry] is found; hence a loaded summary is never
    hidden by the [activeEntry] guard of the card: unless a load is in
    progress the card is shown, titled with the start of the selected
    entry.  And the list is still empty as long as the history request is
    out. *)
Theorem selected_entry_is_always_listed :
  forall (evs : list Event),
    let st := run evs mount in
    (forall selected, selectedEntryId st = Some selected ->
       exists e, activeEntry st = Some e /\ id e = selected)
    /\ (forall s, selectedSummary st = Some s ->
          exists e, activeEntry st = Some e
                    /\ Some (id e) = selectedEntryId st
                    /\ (isLoadingSummary st = false ->
                        detail st = Detail_card s (sessionStartedAt e)))
    /\ (In await_fetchJournalHistory (suspended st) -> entries st = []).
Proof.
  intros evs st.
  destruct (run_coherent evs mount mount_coherent)
    as (H1 & H2 & H3 & H4 & H5). fold st in H1, H2, H3, H4, H5.
  assert (Hactive : forall selected, selectedEntryId st = Some selected ->
            exists e, activeEntry st = Some e /\ id e = selected).
  { intros selected Hsel. unfold activeEntry. rewrite Hsel.
    apply find_by_id. now apply H3. }
  split; [exact Hactive|]. split.
  - intros s Hs.
    destruct (selectedEntryId st) as [selected|] eqn:Hsel.
    + destruct (Hactive selected eq_refl) as (e & He & Hid).
      exists e. repeat split; [exact He|congruence|].
      intros Hl. unfold detail. now rewrite Hl, Hs, He.
    + exfalso. apply H4; [congruence|reflexivity].
  - intros Hin. now destruct (H2 Hin).
Qed.

End HistoryPageFacts.

(* ================================================================== *)
(** * More of the theorems at work *)

Section TimerWitnesses.
Import SessionTimer.

(** X2 on a countdown of 300 ticks that was disarmed at 120 and is armed
    again at 500. *)
Lemma rearming_restarts_the_countdown_witness :
  isRunning
    (run [Render 300 true false 0; Frame 100; Render 300 false false 120]
       (mount 300)) = false
  /\ remainingMs
       (run [Render 300 true false 0; Frame 100; Render 300 false false 120]
          (mount 300)) = 300
  /\ expiries
       (run (map Frame ([500; 700] ++ 800 :: [900]))
          (arm 500
             (run [Render 300 true false 0; Frame 100;
                   Render 300 false false 120] (mount 300))))
     = [800].
Proof.
  assert (H : isRunning
                (run [Render 300 true false 0; Frame 100;
                      Render 300 false false 120] (mount 300)) = false)
    by reflexivity.
  destruct (rearming_restarts_the_countdown 300
              [Render 300 true false 0; Frame 100; Render 300 false false 120]
              500 H) as [Hr Hf].
  split; [exact H|]. split; [exact Hr|].
  refine (Hf [500; 700] [900] 800 _ _).
  - repeat constructor.
  - vm_compute. discriminate.
Defined.

End TimerWitnesses.

Section TimerDisplayWitnesses.
Import QArith TimerDisplay.
Local Open Scope Q_scope.

(** X3 on 61.5 s and 61.001 s: both read as 62 seconds. *)
Lemma clock_text_tells_the_seconds_witness :
  0 <= 61500 /\ 0 <= 61001 /\ formatted 61500 = formatted 61001.
Proof.
  assert (H1 : 0 <= 61500) by (vm_compute; discriminate).
  assert (H2 : 0 <= 61001) by (vm_compute; discriminate).
  split; [exact H1|]. split; [exact H2|].
  destruct (clock_text_tells_the_seconds 61500 61001 H1 H2) as (_ & Hiff & _).
  apply Hiff. reflexivity.
Defined.

(** X4 on a five-minute session, half-way and at its start. *)
Lemma ring_percent_in_range_witness :
  0 < 300000 /\ 0 <= 150000 /\ 150000 <= 300000
  /\ 0 <= percent 300000 150000 <= 100
  /\ percent 300000 300000 <= percent 300000 150000.
Proof.
  assert (H1 : 0 < 300000) by reflexivity.
  assert (H2 : 0 <= 150000) by (vm_compute; discriminate).
  assert (H3 : 150000 <= 300000) by (vm_compute; discriminate).
  split; [exact H1|]. split; [exact H2|]. split; [exact H3|].
  destruct (ring_percent_in_range 300000 150000 300000 H1 H2 H3)
    as (Hrange & _ & _ & Hmono).
  split; [exact Hrange|exact Hmono].
Defined.

End TimerDisplayWitnesses.

Section PageWitnesses.
Import Api HomePage PageView Scenario.

(** X6 on a fresh page whose start request is answered with status 500. *)
Lemma start_answer_decides_phase_and_message_witness :
  sessionPhase (mount None) <> running
  /\ error
       (step
          (Settle (List.length (suspended (mount None)))
             (Fetch.startSession
                (Fetch.Answered
                   {| Fetch.status := 500;
                      Fetch.body := Unparsable "Internal Server Error" |})))
          (step Click_Start (mount None)))
     = Some "API request failed with status 500"%string.
Proof.
  assert (H : sessionPhase (mount None) <> running) by discriminate.
  split; [exact H|].
  exact (proj1 (proj2 (proj2
           (start_answer_decides_phase_and_message (mount None)
              (Fetch.Answered
                 {| Fetch.status := 500;
                    Fetch.body := Unparsable "Internal Server Error" |})
              H)))).
Defined.

(** X7 on the chunks of the scenario. *)
Lemma chunk_forms_are_distinct_witness :
  AudioRecorder.only_from 0 chunks
  /\ AudioRecorder.no_further_recorder chunks
  /\ NoDup
       (map (fun c => Fetch.chunk_filename
                        (Fetch.uploadAudioChunk_form (AudioRecorder.sequence c)))
          (skipn 0
             (AudioRecorder.onChunkCalls
                (AudioRecorder.run chunks
                   (AudioRecorder.start_resolved (Some "s1"%string) None
                      AudioRecorder.initial))))).
Proof.
  assert (H : AudioRecorder.only_from 0 chunks)
    by (unfold AudioRecorder.only_from, chunks; repeat constructor).
  assert (N : AudioRecorder.no_further_recorder chunks)
    by (unfold AudioRecorder.no_further_recorder, chunks; repeat constructor).
  split; [exact H|]. split; [exact N|].
  exact (proj1 (chunk_forms_are_distinct (option string) (Some "s1"%string)
                  AudioRecorder.initial chunks H N)).
Defined.

(** X9 on the first session of the scenario: a chunk arrives, nothing is
    uploaded. *)
Lemma first_session_uploads_nothing_witness :
  ~ In Click_Start []
  /\ ~ In Click_Start
         [Settle 0 (Resolved_SessionStartResponse s1);
          Settle 0 (Resolved_MediaStream None);
          Recorder_dataavailable 0 {| AudioRecorder.size := 4096 |}]
  /\ made is_uploadAudioChunk
       (run ([] ++ Click_Start
                :: [Settle 0 (Resolved_SessionStartResponse s1);
                    Settle 0 (Resolved_MediaStream None);
                    Recorder_dataavailable 0 {| AudioRecorder.size := 4096 |}])
          (mount None)) = 0%nat.
Proof.
  assert (H1 : ~ In Click_Start []) by (simpl; tauto).
  assert (H2 : ~ In Click_Start
                 [Settle 0 (Resolved_SessionStartResponse s1);
                  Settle 0 (Resolved_MediaStream None);
                  Recorder_dataavailable 0 {| AudioRecorder.size := 4096 |}])
    by (simpl; intuition discriminate).
  split; [exact H1|]. split; [exact H2|].
  exact (proj1 (first_session_uploads_nothing [] _ None H1 H2)).
Defined.

(** X10 on the completed session of the scenario: the answers of the remote
    calls, another expiry and a stray message leave it completed. *)
Lemma completed_until_restarted_witness :
  sessionPhase
    (run [Click_Start; Settle 0 (Resolved_SessionStartResponse s1);
          Settle 0 (Resolved_MediaStream None); Timer_onExpire] (mount None))
  = completed
  /\ sessionPhase
       (run [Settle 0 (Resolved_SessionSummary local1); Timer_onExpire;
             EventSource_onmessage (Encodes e2);
             Settle 0 (Resolved_SessionSummary persisted1)]
          (run [Click_Start; Settle 0 (Resolved_SessionStartResponse s1);
                Settle 0 (Resolved_MediaStream None); Timer_onExpire]
             (mount None)))
     = completed.
Proof.
  assert (H1 : sessionPhase
                 (run [Click_Start; Settle 0 (Resolved_SessionStartResponse s1);
                       Settle 0 (Resolved_MediaStream None); Timer_onExpire]
                    (mount None)) = completed) by reflexivity.
  split; [exact H1|].
  refine (proj1 (completed_until_restarted
                   [Click_Start; Settle 0 (Resolved_SessionStartResponse s1);
                    Settle 0 (Resolved_MediaStream None); Timer_onExpire]
                   [Settle 0 (Resolved_SessionSummary local1); Timer_onExpire;
                    EventSource_onmessage (Encodes e2);
                    Settle 0 (Resolved_SessionSummary persisted1)]
                   None H1 _ _)).
  - vm_compute. repeat constructor.
  - simpl. intuition discriminate.
Defined.

(** X11 on the scenario, when the finalize call fails. *)
Lemma failed_finalize_leaves_placeholder_witness :
  nth_error (suspended completing) 0 = Some (await_completeSession "s1")
  /\ sessionPhase completing = completed
  /\ completionGuard completing = true
  /\ displayedSummary completing = None
  /\ summaryColumn (step (Settle 0 (Rejected http500)) completing)
     = Column_placeholder.
Proof.
  assert (H1 : nth_error (suspended completing) 0
               = Some (await_completeSession "s1")) by reflexivity.
  assert (H2 : sessionPhase completing = completed) by reflexivity.
  assert (H3 : completionGuard completing = true) by reflexivity.
  assert (H4 : displayedSummary completing = None) by reflexivity.
  split; [exact H1|]. split; [exact H2|]. split; [exact H3|].
  split; [exact H4|].
  exact (proj1 (proj2 (proj2
           (failed_finalize_leaves_placeholder completing 0 "s1" http500
              H1 H2 H3 H4)))).
Defined.

(** X13 on a fresh page and the start response of the scenario. *)
Lemma session_runs_from_start_to_finalize_witness :
  sessionPhase (mount None) <> running
  /\ Api.sessionId s1 <> ""%string
  /\ sessionPhase
       (step Timer_onExpire
          (step (Settle (List.length (suspended (mount None)))
                   (Resolved_SessionStartResponse s1))
             (step Click_Start (mount None))))
     = completed.
Proof.
  assert (H1 : sessionPhase (mount None) <> running) by discriminate.
  assert (H2 : Api.sessionId s1 <> ""%string) by discriminate.
  split; [exact H1|]. split; [exact H2|].
  exact (proj1 (proj2
           (session_runs_from_start_to_finalize (mount None) s1 H1 H2))).
Defined.

(** X18 on the second session of the scenario. *)
Lemma later_session_uploads_under_previous_id_witness :
  sessionPhase over <> running
  /\ sessionId over = Some "s1"%string
  /\ "s1"%string <> ""%string
  /\ (0 < AudioRecorder.size {| AudioRecorder.size := 4096 |})%N
  /\ calls
       (step (Recorder_dataavailable
                (List.length (AudioRecorder.recorders (recorder over)))
                {| AudioRecorder.size := 4096 |})
          (run [Click_Start;
                Settle (List.length (suspended over))
                  (Resolved_SessionStartResponse s2);
                Settle (List.length (suspended over))
                  (Resolved_MediaStream None)] over))
     = calls
         (run [Click_Start;
               Settle (List.length (suspended over))
                 (Resolved_SessionStartResponse s2);
               Settle (List.length (suspended over))
                 (Resolved_MediaStream None)] over)
       ++ [Call_uploadAudioChunk "s1" 1].
Proof.
  assert (H1 : sessionPhase over <> running)
    by (vm_compute; discriminate).
  assert (H2 : sessionId over = Some "s1"%string)
    by (vm_compute; reflexivity).
  assert (H3 : "s1"%string <> ""%string) by discriminate.
  assert (H4 : (0 < AudioRecorder.size {| AudioRecorder.size := 4096 |})%N)
    by reflexivity.
  split; [exact H1|]. split; [exact H2|]. split; [exact H3|].
  split; [exact H4|].
  exact (proj1 (proj2 (proj2
           (later_session_uploads_under_previous_id over s2 "s1"
              {| AudioRecorder.size := 4096 |} H1 H2 H3 H4)))).
Defined.


End PageWitnesses.

Section HistoryWitnesses.
Import HistoryPage HistoryScenario.

(** X14 on a history that arrives oldest first. *)
Lemma history_is_listed_newest_first_witness :
  nth_error (suspended mount) 0 = Some await_fetchJournalHistory
  /\ Forall dated [monday; tuesday]
  /\ StronglySorted started_ge (entries listed).
Proof.
  assert (H1 : nth_error (suspended mount) 0 = Some await_fetchJournalHistory)
    by reflexivity.
  assert (H2 : Forall dated [monday; tuesday])
    by (repeat constructor; discriminate).
  split; [exact H1|]. split; [exact H2|].
  exact (proj1 (proj2
           (history_is_listed_newest_first mount 0 [monday; tuesday] H1 H2))).
Defined.

(** X15 on a page whose history request failed: the note is still there
    after a retry of nothing and a stray answer. *)
Lemma history_error_is_never_cleared_witness :
  error unlisted <> None
  /\ error (run [Click_entry 0; Settle 0 (Resolved_summary of_monday)] unlisted)
     <> None.
Proof.
  assert (H : error unlisted <> None) by discriminate.
  split; [exact H|].
  exact (history_error_is_never_cleared
           [Click_entry 0; Settle 0 (Resolved_summary of_monday)] unlisted H).
Defined.

(** X16 on the two entries of the scenario: Tuesday's entry (listed first)
    is selected, then Monday's, and Tuesday's summary arrives last. *)
Lemma late_answer_shows_under_other_entry_witness :
  isLoadingEntries listed = false
  /\ nth_error (entries listed) 0 = Some tuesday
  /\ nth_error (entries listed) 1 = Some monday
  /\ selectedEntryId listed <> Some (id tuesday)
  /\ id tuesday <> id monday
  /\ id tuesday <> ""%string
  /\ id monday <> ""%string
  /\ selectedEntryId
       (step (Settle (List.length (suspended listed))
                (Resolved_summary of_tuesday))
          (run [Click_entry 0; Click_entry 1;
                Settle (S (List.length (suspended listed)))
                  (Resolved_summary of_monday)] listed))
     = Some (id monday)
  /\ selectedSummary
       (step (Settle (List.length (suspended listed))
                (Resolved_summary of_tuesday))
          (run [Click_entry 0; Click_entry 1;
                Settle (S (List.length (suspended listed)))
                  (Resolved_summary of_monday)] listed))
     = Some of_tuesday.
Proof.
  assert (H1 : isLoadingEntries listed = false) by reflexivity.
  assert (H2 : nth_error (entries listed) 0 = Some tuesday) by reflexivity.
  assert (H3 : nth_error (entries listed) 1 = Some monday) by reflexivity.
  assert (H4 : selectedEntryId listed <> Some (id tuesday)) by discriminate.
  assert (H5 : id tuesday <> id monday) by discriminate.
  assert (H6 : id tuesday <> ""%string) by discriminate.
  assert (H7 : id monday <> ""%string) by discriminate.
  repeat (split; [assumption|]).
  destruct (late_answer_shows_under_other_entry listed 0 1 tuesday monday
              of_tuesday of_monday H1 H2 H3 H4 H5 H6 H7)
    as (_ & _ & Hsel & Hsum & _).
  split; [exact Hsel|exact Hsum].
Defined.

End HistoryWitnesses.
